(** * paddle_geometric: heterogeneous message passing, graph layout
    conversion, rooted subgraphs and parameter dictionaries.

    Part I embeds the Python functions; Part II states and proves their
    properties.  Python dictionaries whose iteration order matters are
    association lists in insertion order; dictionaries that are only looked
    up are [gmap]s.  The edge indices to which
    [construct_bipartite_edge_index] adds offsets are int64 tensors, whose
    addition wraps around; the index tensors elsewhere hold positions below
    a node or edge count and are lists of natural numbers. *)

From Stdlib Require Import ZArith String Ascii Lia.
From stdpp Require Import gmap strings list sorting.

(* ================================================================== *)
(** * Part I: the embedding                                            *)
(* ================================================================== *)

(** ** Python outcomes: a value or a raised exception *)

Inductive exn : Type :=
| ValueError
| KeyError
| IndexError
| AssertionError
| AttributeError
| TypeError
| NotImplementedError
| RuntimeError (code : nat).

Inductive result (A : Type) : Type :=
| Ok (a : A)
| Raise (e : exn).
Arguments Ok {A} a.
Arguments Raise {A} e.

Definition result_bind {A B} (f : A → result B) (m : result A) : result B :=
  match m with
  | Ok a => f a
  | Raise e => Raise e
  end.

#[global] Instance result_fmap : FMap result := λ A B f m,
  match m with
  | Ok a => Ok (f a)
  | Raise e => Raise e
  end.
#[global] Instance result_ret : MRet result := λ A a, Ok a.
#[global] Instance result_mbind : MBind result := λ A B f m, result_bind f m.

(** [d[k]] on a dictionary: [KeyError] when the key is absent. *)
Definition getitem `{Lookup K V M} (d : M) (k : K) : result V :=
  match d !! k with
  | Some v => Ok v
  | None => Raise KeyError
  end.

(** [xs[i]] on a list: [IndexError] when out of range. *)
Definition list_getitem {A} (xs : list A) (i : nat) : result A :=
  match xs !! i with
  | Some v => Ok v
  | None => Raise IndexError
  end.

(** A [for] loop whose body may raise, threading the loop state. *)
Fixpoint for_each {A S} (body : S → A → result S) (xs : list A) (s : S)
  : result S :=
  match xs with
  | [] => Ok s
  | x :: xs' => s' ← body s x; for_each body xs' s'
  end.

(** A list comprehension [[f(x) for x in xs]] whose body may raise. *)
Fixpoint traverse {A B} (f : A → result B) (xs : list A) : result (list B) :=
  match xs with
  | [] => Ok []
  | x :: xs' => y ← f x; ys ← traverse f xs'; Ok (y :: ys)
  end.

(** ** 64-bit integers

    The entries of an int64 tensor.  An addition whose result leaves the
    range wraps around in two's complement. *)

Definition in_int64 (z : Z) : bool := (- 2 ^ 63 <=? z)%Z && (z <? 2 ^ 63)%Z.

Definition wrap64 (z : Z) : Z := ((z + 2 ^ 63) `mod` 2 ^ 64 - 2 ^ 63)%Z.

Definition add64 (a b : Z) : Z := wrap64 (a + b).

(** ** paddle_geometric.typing *)

Module typing.

Abbreviation NodeType := string (only parsing).

(** [EdgeType = Tuple[str, str, str]]: (source type, relation, destination type). *)
Abbreviation EdgeType := (string * string * string)%type (only parsing).

(** [key[0]] and [key[-1]] of an edge type. *)
Definition key_first (key : EdgeType) : NodeType := key.1.1.
Definition key_last (key : EdgeType) : NodeType := key.2.

End typing.
Import typing.

(** Python [str.endswith] and the slice [s[:-n]]. *)
Definition endswith (s suffix : string) : bool :=
  let n := String.length s in
  let k := String.length suffix in
  (k <=? n)%nat && String.eqb (String.substring (n - k) k s) suffix.

Definition drop_last (n : nat) (s : string) : string :=
  String.substring 0 (String.length s - n) s.

(** ** Dictionaries in insertion order *)

Section dict.
Context {X V : Type} `{EqDecision X}.

(** [d[k] = v]: the value is replaced under a key that is there, the entry
    is appended otherwise. *)
Fixpoint dict_store (k : X) (v : V) (d : list (X * V)) : list (X * V) :=
  match d with
  | [] => [(k, v)]
  | (k', v') :: d' =>
    if decide (k' = k) then (k', v) :: d' else (k', v') :: dict_store k v d'
  end.

(** [d.get(k)]. *)
Fixpoint dict_get (k : X) (d : list (X * V)) : option V :=
  match d with
  | [] => None
  | (k', v') :: d' => if decide (k' = k) then Some v' else dict_get k d'
  end.

End dict.

(** ** nn/conv/hetero_conv.py, with [check_add_self_loops] of utils/hetero.py *)

Module hetero_conv.

(** The tensor operations of the framework that [group] calls.  They belong
    to Paddle, not to this repository, and are taken as an interface:
    [paddle_stack xs axis], [paddle_concat xs axis], and [paddle_getattr name],
    which is [getattr(paddle, name)]: absent ([AttributeError]) or a function
    of a tensor and an axis returning a tensor or a tuple of tensors. *)
Inductive reduced (T : Type) : Type :=
| RTensor (t : T)
| RTuple (ts : list T).
Arguments RTensor {T} t.
Arguments RTuple {T} ts.

Class Paddle (T : Type) : Type := {
  paddle_stack : list T → Z → result T;
  paddle_concat : list T → Z → result T;
  paddle_getattr : string → option (T → Z → result (reduced T));
}.

(** An argument handed to a convolution: the value stored for the edge type
    or node type, or the pair [(value_dict.get(src), value_dict.get(dst))]. *)
Inductive Arg (V : Type) : Type :=
| Single (v : V)
| Pair (s d : option V).
Arguments Single {V} v.
Arguments Pair {V} s d.

(** A message passing layer: its optional [add_self_loops] attribute and its
    call on positional and keyword arguments. *)
Record MessagePassing (T V : Type) : Type := {
  add_self_loops : option bool;
  call : list (Arg V) → gmap string (Arg V) → result T;
}.
Arguments add_self_loops {T V} _.
Arguments call {T V} _ _ _.

(** utils/hetero.py, [check_add_self_loops]. *)
Definition check_add_self_loops {T V} (module : MessagePassing T V)
    (edge_types : list EdgeType) : result unit :=
  let is_bipartite :=
    existsb (λ key, negb (String.eqb (key_first key) (key_last key)))
            edge_types in
  if is_bipartite && default false (add_self_loops module)
  then Raise ValueError
  else Ok tt.

Section group.
Context {T : Type} `{Paddle T}.

(** [out[0] if isinstance(out, tuple) else out]. *)
Definition untuple (out : reduced T) : result T :=
  match out with
  | RTensor t => Ok t
  | RTuple ts => match ts with t :: _ => Ok t | [] => Raise IndexError end
  end.

Definition group (xs : list T) (aggr : option string) : result (option T) :=
  if (length xs =? 0)%nat then Ok None
  else match aggr with
  | None => Some <$> paddle_stack xs 1%Z
  | Some aggr =>
    if (length xs =? 1)%nat then Some <$> list_getitem xs 0
    else if String.eqb aggr "cat" then Some <$> paddle_concat xs (-1)%Z
    else
      out ← paddle_stack xs 0%Z;
      match paddle_getattr aggr with
      | None => Raise AttributeError
      | Some f => out ← f out 0%Z; Some <$> untuple out
      end
  end.

End group.

Section HeteroConv.
Context {T V : Type} `{Paddle T}.

(** A dictionary passed to [forward]: keyed by node types and edge types. *)
Abbreviation value_dict := (gmap (NodeType + EdgeType) V).

Record HeteroConv : Type := {
  convs : list (EdgeType * MessagePassing T V);
  aggr : option string;
}.

(** [__init__], with the body of its loop over [convs.items()] first; the
    result carries whether the warning about node types that are never a
    destination was issued.  [ModuleDict] is not among the sources: the
    layer holds the items that [self.convs.items()] yields. *)
Definition init_step (_ : unit) (item : EdgeType * MessagePassing T V)
  : result unit :=
  let '(edge_type, module) := item in check_add_self_loops module [edge_type].

Definition init (convs : list (EdgeType * MessagePassing T V))
    (aggr : option string) : result (HeteroConv * bool) :=
  _ ← for_each init_step convs tt;
  let src_node_types := (λ kv, key_first kv.1) <$> convs in
  let dst_node_types := (λ kv, key_last kv.1) <$> convs in
  let unused :=
    filter (λ s, s ∉ dst_node_types) src_node_types in
  Ok ({| convs := convs; aggr := aggr |}, (0 <? length unused)%nat).

(** One turn of [for value_dict in args_dict]. *)
Definition args_step (edge_type : EdgeType)
    (st : bool * list (Arg V)) (value_dict : value_dict)
  : bool * list (Arg V) :=
  let '(src, _, dst) := edge_type in
  let '(has_edge_level_arg, args) := st in
  match value_dict !! inr edge_type with
  | Some v => (true, args ++ [Single v])
  | None =>
    match String.eqb src dst, value_dict !! inl src with
    | true, Some v => (has_edge_level_arg, args ++ [Single v])
    | _, _ =>
      if bool_decide (is_Some (value_dict !! inl src))
         || bool_decide (is_Some (value_dict !! inl dst))
      then (has_edge_level_arg,
            args ++ [Pair (value_dict !! inl src) (value_dict !! inl dst)])
      else (has_edge_level_arg, args)
    end
  end.

(** One turn of [for arg, value_dict in kwargs_dict.items()]. *)
Definition kwargs_step (edge_type : EdgeType)
    (st : bool * gmap string (Arg V)) (item : string * value_dict)
  : result (bool * gmap string (Arg V)) :=
  let '(src, _, dst) := edge_type in
  let '(has_edge_level_arg, kwargs) := st in
  let '(arg, value_dict) := item in
  if negb (endswith arg "_dict") then Raise ValueError
  else
    let arg := drop_last 5 arg in
    match value_dict !! inr edge_type with
    | Some v => Ok (true, <[arg := Single v]> kwargs)
    | None =>
      match String.eqb src dst, value_dict !! inl src with
      | true, Some v => Ok (has_edge_level_arg, <[arg := Single v]> kwargs)
      | _, _ =>
        if bool_decide (is_Some (value_dict !! inl src))
           || bool_decide (is_Some (value_dict !! inl dst))
        then Ok (has_edge_level_arg,
                 <[arg := Pair (value_dict !! inl src)
                               (value_dict !! inl dst)]> kwargs)
        else Ok (has_edge_level_arg, kwargs)
      end
    end.

(** [out_dict[dst] = [out]] for a new key, [out_dict[dst].append(out)]
    otherwise; the dictionary keeps insertion order. *)
Fixpoint out_dict_add (dst : NodeType) (out : T)
    (out_dict : list (NodeType * list T)) : list (NodeType * list T) :=
  match out_dict with
  | [] => [(dst, [out])]
  | (key, value) :: rest =>
    if String.eqb key dst then (key, value ++ [out]) :: rest
    else (key, value) :: out_dict_add dst out rest
  end.

(** The body of [for edge_type, conv in self.convs.items()]. *)
Definition forward_step (args_dict : list value_dict)
    (kwargs_dict : list (string * value_dict))
    (out_dict : list (NodeType * list T))
    (item : EdgeType * MessagePassing T V)
  : result (list (NodeType * list T)) :=
  let '(edge_type, conv) := item in
  let dst := key_last edge_type in
  let '(has_edge_level_arg, args) :=
    foldl (args_step edge_type) (false, []) args_dict in
  '(has_edge_level_arg, kwargs) ←
    for_each (kwargs_step edge_type) kwargs_dict (has_edge_level_arg, ∅);
  if negb has_edge_level_arg then Ok out_dict
  else
    out ← call conv args kwargs;
    Ok (out_dict_add dst out out_dict).

(** The closing loop [out_dict[key] = group(value, self.aggr)]. *)
Definition group_step (aggr : option string)
    (acc : list (NodeType * option T)) (item : NodeType * list T)
  : result (list (NodeType * option T)) :=
  g ← group item.2 aggr; Ok (acc ++ [(item.1, g)]).

Definition forward (self : HeteroConv) (args_dict : list value_dict)
    (kwargs_dict : list (string * value_dict))
  : result (list (NodeType * option T)) :=
  out_dict ← for_each (forward_step args_dict kwargs_dict) (convs self) [];
  for_each (group_step (aggr self)) out_dict [].

End HeteroConv.
Arguments HeteroConv T V : clear implicits.

(** *** Vocabulary of the statements about [forward] *)

Section forward_vocabulary.
Context {T V : Type} `{Paddle T}.

(** The convolution of [edge_type] receives an edge-level argument: the edge
    type is a key of one of the positional or keyword dictionaries. *)
Definition edge_level (edge_type : EdgeType)
    (args_dict : list (gmap (NodeType + EdgeType) V))
    (kwargs_dict : list (string * gmap (NodeType + EdgeType) V)) : bool :=
  existsb (λ d, bool_decide (is_Some (d !! inr edge_type))) args_dict
  || existsb (λ kv, bool_decide (is_Some (kv.2 !! inr edge_type))) kwargs_dict.

(** The registered edge types that target [dst] and are not skipped. *)
Definition targeting (dst : NodeType)
    (args_dict : list (gmap (NodeType + EdgeType) V))
    (kwargs_dict : list (string * gmap (NodeType + EdgeType) V))
    (convs : list (EdgeType * MessagePassing T V))
  : list (EdgeType * MessagePassing T V) :=
  filter (λ item, key_last item.1 = dst
                  ∧ edge_level item.1 args_dict kwargs_dict = true) convs.

(** What the convolution of an item returns on the arguments [forward]
    collects for it. *)
Definition conv_output
    (args_dict : list (gmap (NodeType + EdgeType) V))
    (kwargs_dict : list (string * gmap (NodeType + EdgeType) V))
    (item : EdgeType * MessagePassing T V) : result T :=
  st ← for_each (kwargs_step item.1) kwargs_dict
                ((foldl (args_step item.1) (false, []) args_dict).1, ∅);
  call item.2 (foldl (args_step item.1) (false, []) args_dict).2 st.2.

(** The reduction named [name] over the outputs stacked on axis 0. *)
Definition named_reduction (name : string) (outs : list T) : result T :=
  stacked ← paddle_stack outs 0%Z;
  match paddle_getattr name with
  | None => Raise AttributeError
  | Some f => out ← f stacked 0%Z; untuple out
  end.

(** The grouping of a non-empty list of outputs, in the words of the
    documentation: stacked on axis 1 without an aggregation, the output
    itself when there is one, concatenated along the last axis for ["cat"],
    reduced otherwise. *)
Definition grouping (aggr : option string) (outs : list T) : result T :=
  match aggr, outs with
  | None, _ => paddle_stack outs 1%Z
  | Some _, [x] => Ok x
  | Some name, _ =>
    if String.eqb name "cat" then paddle_concat outs (-1)%Z
    else named_reduction name outs
  end.

(** The outputs collected so far under a key of [out_dict]. *)
Fixpoint collected (dst : NodeType) (out_dict : list (NodeType * list T))
  : list T :=
  match out_dict with
  | [] => []
  | (key, value) :: rest =>
    if String.eqb key dst then value else collected dst rest
  end.

(** The dictionary of collected outputs has distinct keys and no empty
    list. *)
Definition out_dict_wf (out_dict : list (NodeType * list T)) : Prop :=
  NoDup out_dict.*1 ∧ Forall (λ kv, kv.2 ≠ []) out_dict.

End forward_vocabulary.

End hetero_conv.

(** ** utils/hetero.py: [construct_bipartite_edge_index]

    Tensors are objects in a store, so that [clone] and the in-place
    [edge_index[0] += src_offset] are what they are in Python: the first
    allocates a new object, the second overwrites an existing one. *)

Module hetero.

(** Locations are positions in the store. *)
Abbreviation loc := nat (only parsing).

(** A [SparseTensor] (or a framework sparse tensor when [sp_SparseTensor]
    is false) in coordinate form; [sp_value] refers to the value tensor. *)
Record Sparse : Type := {
  sp_SparseTensor : bool;
  sp_row : list Z;
  sp_col : list Z;
  sp_value : option loc;
  sp_sizes : option Z * option Z;
}.

Inductive obj (A : Type) : Type :=
| Dense (cols : list (Z * Z))       (* integer tensor of shape [2, E], by columns *)
| Attr (rows : list (list A))       (* tensor of shape [k, F], by rows *)
| SparseObj (s : Sparse).
Arguments Dense {A} cols.
Arguments Attr {A} rows.
Arguments SparseObj {A} s.

Abbreviation heap A := (list (obj A)) (only parsing).

(** Computations on the store that may raise; the store is returned on
    both outcomes. *)
Definition M (A X : Type) : Type := heap A → result X * heap A.

#[global] Instance M_ret {A} : MRet (M A) := λ X x h, (Ok x, h).
#[global] Instance M_bind {A} : MBind (M A) := λ X Y f m h,
  match m h with
  | (Ok x, h') => f x h'
  | (Raise e, h') => (Raise e, h')
  end.

Section store.
Context {A : Type}.
Local Abbreviation M := (M A).
Local Abbreviation obj := (obj A).

Definition lift {X} (r : result X) : M X := λ h, (r, h).
Definition raise {X} (e : exn) : M X := λ h, (Raise e, h).

Definition alloc (o : obj) : M loc := λ h, (Ok (length h), h ++ [o]).
Definition read (l : loc) : M obj := λ h,
  match h !! l with
  | Some o => (Ok o, h)
  | None => (Raise (RuntimeError 0), h)
  end.
Definition write (l : loc) (o : obj) : M unit := λ h, (Ok tt, <[l := o]> h).

Fixpoint forM {X S} (body : S → X → M S) (xs : list X) (s : S) : M S :=
  match xs with
  | [] => mret s
  | x :: xs' => s' ← body s x; forM body xs' s'
  end.

(** [edge_index.clone()]. *)
Definition clone (l : loc) : M loc := o ← read l; alloc o.

(** [edge_index[i] += offset], in place, on an int64 tensor: a sum
    outside the range of the dtype wraps around. *)
Definition iadd_row (l : loc) (i : nat) (offset : Z) : M unit :=
  o ← read l;
  match o with
  | Dense cols =>
    match i with
    | 0 => write l (Dense ((λ c, (add64 c.1 offset, c.2)) <$> cols))
    | 1 => write l (Dense ((λ c, (c.1, add64 c.2 offset)) <$> cols))
    | _ => raise IndexError
    end
  | _ => raise TypeError
  end.

(** [to_edge_index(adj)[0]] followed by [paddle.flip(_, [0])]: the
    coordinate rows of a sparse matrix stacked as [[col; row]] in a new
    tensor.  The helper is not among the sources. *)
Definition flipped_edge_index (s : Sparse) : M loc :=
  alloc (Dense (zip (sp_col s) (sp_row s))).

Definition as_dense (o : obj) : result (list (Z * Z)) :=
  match o with Dense cols => Ok cols | _ => Raise TypeError end.
Definition as_attr (o : obj) : result (list (list A)) :=
  match o with Attr rows => Ok rows | _ => Raise TypeError end.

(** [paddle.concat(xs, axis=1)] on [2, E_i] tensors: raises on no input. *)
Definition concat_axis1 (ls : list loc) : M loc :=
  parts ← forM (λ acc l, o ← read l; c ← lift (as_dense o); mret (acc ++ [c]))
               ls [];
  match parts with
  | [] => raise ValueError
  | _ => alloc (Dense (concat parts))
  end.

(** All rows of all the tensors have one width. *)
Definition same_width (parts : list (list (list A))) : bool :=
  match concat parts with
  | [] => true
  | r :: rs => forallb (λ r', (length r' =? length r)%nat) rs
  end.

(** [paddle.concat(xs, axis=0)] on [k_i, F] tensors: raises on no input
    and when the widths differ. *)
Definition concat_rows (parts : list (list (list A)))
  : result (list (list A)) :=
  match parts with
  | [] => Raise ValueError
  | _ => if same_width parts then Ok (concat parts) else Raise ValueError
  end.

Definition concat_axis0 (ls : list loc) : M loc :=
  parts ← forM (λ acc l, o ← read l; c ← lift (as_attr o); mret (acc ++ [c]))
               ls [];
  rows ← lift (concat_rows parts);
  alloc (Attr rows).

(** [paddle.expand(value, shape=[n, -1])] on a [k, F] tensor: the single
    row repeated [n] times when [k = 1], an error otherwise (the caller
    has excluded [k = n]). *)
Definition expand_rows (rows : list (list A)) (n : nat)
  : result (list (list A)) :=
  match rows with
  | [r] => Ok (replicate n r)
  | _ => Raise ValueError
  end.

(** [edge_attr_dict]: a plain dictionary keyed by edge type, or a
    [LayerDict] keyed by ['__'.join(edge_type)]. *)
Inductive attr_dict : Type :=
| PlainDict (d : gmap EdgeType loc)
| LayerDict (d : gmap string loc).

Definition join2 (edge_type : EdgeType) : string :=
  let '(src, rel, dst) := edge_type in
  (src +:+ "__" +:+ rel +:+ "__" +:+ dst)%string.

Definition attr_getitem (d : attr_dict) (edge_type : EdgeType) : result loc :=
  match d with
  | LayerDict d => getitem d (join2 edge_type)
  | PlainDict d => getitem d edge_type
  end.

(** The body of [for edge_type, src_offset in src_offset_dict.items()];
    the loop state is [(is_sparse_tensor, edge_indices, edge_attrs)]. *)
Definition construct_step (edge_index_dict : gmap EdgeType loc)
    (dst_offset_dict : gmap NodeType Z) (edge_attr_dict : option attr_dict)
    (st : bool * list loc * list loc) (item : EdgeType * Z)
  : M (bool * list loc * list loc) :=
  let '(_, edge_indices, edge_attrs) := st in
  let '(edge_type, src_offset) := item in
  edge_index ← lift (getitem edge_index_dict edge_type);
  dst_offset ← lift (getitem dst_offset_dict (key_last edge_type));
  o ← read edge_index;
  let is_sparse_tensor :=
    match o with SparseObj s => sp_SparseTensor s | _ => false end in
  edge_index ← match o with
               | SparseObj s => flipped_edge_index s
               | _ => clone edge_index
               end;
  _ ← iadd_row edge_index 0 src_offset;
  _ ← iadd_row edge_index 1 dst_offset;
  let edge_indices := edge_indices ++ [edge_index] in
  match edge_attr_dict with
  | None => mret (is_sparse_tensor, edge_indices, edge_attrs)
  | Some d =>
    value ← lift (attr_getitem d edge_type);
    v ← read value;
    rows ← lift (as_attr v);
    e ← read edge_index;
    cols ← lift (as_dense e);
    value ← (if negb (length rows =? length cols)%nat
             then rows' ← lift (expand_rows rows (length cols));
                  alloc (Attr rows')
             else mret value);
    mret (is_sparse_tensor, edge_indices, edge_attrs ++ [value])
  end.

Definition construct_bipartite_edge_index
    (edge_index_dict : gmap EdgeType loc)
    (src_offset_dict : list (EdgeType * Z))
    (dst_offset_dict : gmap NodeType Z)
    (edge_attr_dict : option attr_dict)
    (num_nodes : option Z) : M (loc * option loc) :=
  '(is_sparse_tensor, edge_indices, edge_attrs) ←
    forM (construct_step edge_index_dict dst_offset_dict edge_attr_dict)
         src_offset_dict (false, [], []);
  edge_index ← concat_axis1 edge_indices;
  edge_attr ← match edge_attr_dict with
              | None => mret None
              | Some _ => a ← concat_axis0 edge_attrs; mret (Some a)
              end;
  if is_sparse_tensor : bool then
    e ← read edge_index;
    cols ← lift (as_dense e);
    adj ← alloc (SparseObj {| sp_SparseTensor := true;
                              sp_row := cols.*2; sp_col := cols.*1;
                              sp_value := edge_attr;
                              sp_sizes := (num_nodes, num_nodes) |});
    mret (adj, edge_attr)
  else mret (edge_index, edge_attr).

End store.

(** *** Vocabulary of the statements about [construct_bipartite_edge_index] *)

Section construct_vocabulary.
Context {A : Type}.

(** The dense edge index, or the attribute tensor, stored at a location. *)
Definition dense_at (h : heap A) (l : loc) : option (list (Z * Z)) :=
  match h !! l with Some (Dense cols) => Some cols | _ => None end.
Definition attr_at (h : heap A) (l : loc) : option (list (list A)) :=
  match h !! l with Some (Attr rows) => Some rows | _ => None end.

(** Every tensor of [edge_index_dict] is a dense edge index; every tensor of
    [edge_attr_dict] is an attribute tensor. *)
Definition holds_dense (h : heap A) (edge_index_dict : gmap EdgeType loc)
  : bool :=
  forallb (λ kv, bool_decide (is_Some (dense_at h kv.2)))
          (map_to_list edge_index_dict).

Definition attr_locs (d : attr_dict) : list loc :=
  match d with
  | PlainDict d => (map_to_list d).*2
  | LayerDict d => (map_to_list d).*2
  end.

Definition holds_attrs (h : heap A) (edge_attr_dict : option attr_dict)
  : bool :=
  match edge_attr_dict with
  | None => true
  | Some d => forallb (λ l, bool_decide (is_Some (attr_at h l))) (attr_locs d)
  end.

Definition to_option {X} (r : result X) : option X :=
  match r with Ok x => Some x | Raise _ => None end.

(** An edge index with its first row increased by [src_offset] and its
    second row by [dst_offset], by the addition [add] of the entries. *)
Definition offset_index (add : Z → Z → Z) (src_offset dst_offset : Z)
    (cols : list (Z * Z)) : list (Z * Z) :=
  (λ c, (add c.1 src_offset, add c.2 dst_offset)) <$> cols.

(** The contribution of one edge type to the edge index: its dense edge
    index, offset by [src_offset_dict[edge_type]] and by
    [dst_offset_dict] of its destination type. *)
Definition shifted (add : Z → Z → Z) (h : heap A)
    (edge_index_dict : gmap EdgeType loc)
    (dst_offset_dict : gmap NodeType Z) (item : EdgeType * Z)
  : option (list (Z * Z)) :=
  l ← edge_index_dict !! item.1;
  cols ← dense_at h l;
  dst_offset ← dst_offset_dict !! key_last item.1;
  Some (offset_index add item.2 dst_offset cols).

(** The contribution of one edge type to the attributes: its attribute
    tensor, expanded to the edge count when its first dimension differs. *)
Definition attr_part (h : heap A) (edge_index_dict : gmap EdgeType loc)
    (d : attr_dict) (item : EdgeType * Z)
  : option (list (list A)) :=
  l ← edge_index_dict !! item.1;
  cols ← dense_at h l;
  la ← to_option (attr_getitem d item.1);
  rows ← attr_at h la;
  if (length rows =? length cols)%nat then Some rows
  else to_option (expand_rows rows (length cols)).

(** The column-wise concatenation over the edge types in the iteration
    order of [src_offset_dict]; there is none of no tensor.  With [add64]
    the rows are increased as int64 numbers, with [Z.add] as integers. *)
Definition spec_edge_index (add : Z → Z → Z) (h : heap A)
    (edge_index_dict : gmap EdgeType loc)
    (src_offset_dict : list (EdgeType * Z))
    (dst_offset_dict : gmap NodeType Z) : option (list (Z * Z)) :=
  parts ← mapM (shifted add h edge_index_dict dst_offset_dict)
               src_offset_dict;
  match parts with
  | [] => None
  | _ => Some (concat parts)
  end.

(** No sum of an entry and its offset leaves the range of int64. *)
Definition sums_in_range (h : heap A) (edge_index_dict : gmap EdgeType loc)
    (src_offset_dict : list (EdgeType * Z))
    (dst_offset_dict : gmap NodeType Z) : bool :=
  forallb (λ item,
    match shifted Z.add h edge_index_dict dst_offset_dict item with
    | Some cols => forallb (λ c, in_int64 c.1 && in_int64 c.2) cols
    | None => true
    end) src_offset_dict.

(** The row-wise concatenation of the attributes in the same order, when
    attributes are given. *)
Definition spec_edge_attr (h : heap A) (edge_index_dict : gmap EdgeType loc)
    (src_offset_dict : list (EdgeType * Z))
    (edge_attr_dict : option attr_dict) : option (option (list (list A))) :=
  match edge_attr_dict with
  | None => Some None
  | Some d =>
    parts ← mapM (attr_part h edge_index_dict d) src_offset_dict;
    rows ← to_option (concat_rows parts);
    Some (Some rows)
  end.

(** The attribute tensor a call returned, if any. *)
Definition returned_attr (h : heap A) (la : option loc)
  : option (option (list (list A))) :=
  match la with
  | None => Some None
  | Some l => Some <$> attr_at h l
  end.

(** A computation leaves the first [n] objects of the store as they are,
    whatever its outcome, and its results satisfy [Q]. *)
Definition preserves (n : nat) {X} (m : M A X) (Q : X → Prop) : Prop :=
  ∀ h, n ≤ length h →
    take n (m h).2 = take n h
    ∧ n ≤ length (m h).2
    ∧ ∀ x, (m h).1 = Ok x → Q x.

End construct_vocabulary.

(** *** [get_unused_node_types] *)

Definition get_unused_node_types (node_types : list NodeType)
    (edge_types : list EdgeType) : gset NodeType :=
  let dst_node_types : gset NodeType := list_to_set (key_last <$> edge_types) in
  list_to_set node_types ∖ dst_node_types.

(** *** [group_hetero_graph]

    Node and edge indices are natural numbers; an edge index is the list of
    its columns.  [enumerate] pairs the items of a dictionary with their
    positions. *)

Definition enumerate {A} (xs : list A) : list (nat * A) :=
  zip (seq 0 (length xs)) xs.

(** [paddle.concat(xs, axis=0)] on vectors, and on [2, E_i] tensors along
    the last axis: no input is an error. *)
Definition concat_vectors {A} (xs : list (list A)) : result (list A) :=
  match xs with
  | [] => Raise ValueError
  | _ => Ok (concat xs)
  end.

(** The state of the loop over [num_nodes_dict.items()]. *)
Record node_state : Type := {
  key2int : gmap (NodeType + EdgeType) nat;
  cumsum : nat;
  offset : gmap NodeType nat;
  node_types : list (list nat);
  local_node_indices : list (list nat);
  local2global : gmap (NodeType + nat) (list nat);
}.

Definition node_state_init : node_state :=
  {| key2int := ∅; cumsum := 0; offset := ∅; node_types := [];
     local_node_indices := []; local2global := ∅ |}.

Definition node_step (st : node_state) (item : nat * (NodeType * nat))
  : node_state :=
  let '(i, (key, N)) := item in
  let arange := seq 0 N in
  let global := (λ x, x + cumsum st) <$> arange in
  {| key2int := <[inl key := i]> (key2int st);
     cumsum := cumsum st + N;
     offset := <[key := cumsum st]> (offset st);
     node_types := node_types st ++ [replicate N i];
     local_node_indices := local_node_indices st ++ [arange];
     local2global :=
       <[inr i := global]> (<[inl key := global]> (local2global st)) |}.

(** The body of the loop over [edge_index_dict.items()]; the state is
    [(key2int, edge_indices, edge_types)]. *)
Definition edge_step (offset : gmap NodeType nat)
    (st : gmap (NodeType + EdgeType) nat * list (list (nat * nat))
          * list (list nat))
    (item : nat * (EdgeType * list (nat * nat)))
  : result (gmap (NodeType + EdgeType) nat * list (list (nat * nat))
            * list (list nat)) :=
  let '(key2int, edge_indices, edge_types) := st in
  let '(i, (keys, edge_index)) := item in
  let key2int := <[inr keys := i]> key2int in
  inc0 ← getitem offset (key_first keys);
  inc1 ← getitem offset (key_last keys);
  Ok (key2int,
      edge_indices ++ [(λ c, (c.1 + inc0, c.2 + inc1)) <$> edge_index],
      edge_types ++ [replicate (length edge_index) i]).

Section group_hetero_graph.
(** [maybe_num_nodes_dict] of utils/num_nodes.py is not among the sources:
    it is an argument, called on the two arguments of the function. *)
Variable maybe_num_nodes_dict :
  list (EdgeType * list (nat * nat)) → option (list (NodeType * nat))
  → result (list (NodeType * nat)).

(** Returns [(edge_index, edge_type, node_type, local_node_idx,
    local2global, key2int)]. *)
Definition group_hetero_graph
    (edge_index_dict : list (EdgeType * list (nat * nat)))
    (num_nodes_dict : option (list (NodeType * nat)))
  : result (list (nat * nat) * list nat * list nat * list nat
            * gmap (NodeType + nat) (list nat)
            * gmap (NodeType + EdgeType) nat) :=
  num_nodes_dict ← maybe_num_nodes_dict edge_index_dict num_nodes_dict;
  tmp ← list_getitem edge_index_dict.*2 0;
  let st := foldl node_step node_state_init (enumerate num_nodes_dict) in
  node_type ← concat_vectors (node_types st);
  local_node_idx ← concat_vectors (local_node_indices st);
  '(key2int, edge_indices, edge_types) ←
    for_each (edge_step (offset st)) (enumerate edge_index_dict)
             (key2int st, [], []);
  edge_index ← concat_vectors edge_indices;
  edge_type ← concat_vectors edge_types;
  Ok (edge_index, edge_type, node_type, local_node_idx,
      local2global st, key2int).

End group_hetero_graph.

(** *** Vocabulary of the statements about [group_hetero_graph] *)

(** The global index that [local2global] gives the [j]-th node of a type. *)
Definition global_index (local2global : gmap (NodeType + nat) (list nat))
    (key : NodeType + nat) (j : nat) : option nat :=
  local2global !! key ≫= (.!! j).

(** Every endpoint of every edge is below the node count of its type. *)
Definition edges_in_range (num_nodes_dict : list (NodeType * nat))
    (edge_index_dict : list (EdgeType * list (nat * nat))) : bool :=
  forallb (λ item,
    match dict_get (key_first item.1) num_nodes_dict,
          dict_get (key_last item.1) num_nodes_dict with
    | Some Ns, Some Nd => forallb (λ c, (c.1 <? Ns) && (c.2 <? Nd)) item.2
    | _, _ => false
    end) edge_index_dict.

End hetero.

(** ** The [Data] object, as far as the functions below read it *)

Module data.

(** A graph: [edge_index] is the list of (source, destination) columns of
    the [2, E] tensor; node indices are natural numbers.  [adj] and [adj_t]
    stand for the optional [SparseTensor] attributes, given by what
    [adj.csc()] and [adj_t.csr()] return: a pointer array and an index
    array.  [size(1)] of a [Data] object is its [num_nodes]. *)
Record Data : Type := {
  adj : option (list nat * list nat);
  adj_t : option (list nat * list nat);
  edge_index : option (list (nat * nat));
  num_nodes : option nat;
}.

End data.
Import data.

(** [xs[idx]] with an index tensor: the gathered entries, or [IndexError]. *)
Definition gather {A} (xs : list A) (idx : list nat) : result (list A) :=
  traverse (list_getitem xs) idx.

(** ** sampler/utils.py: conversion to CSC *)

Module sampler_utils.

(** Stable insertion of a keyed position in a list sorted by key. *)
Fixpoint insert_key {K} (leb : K → K → bool) (x : K * nat)
    (l : list (K * nat)) : list (K * nat) :=
  match l with
  | [] => [x]
  | y :: l' => if leb x.1 y.1 then x :: y :: l' else y :: insert_key leb x l'
  end.

Definition sort_keys {K} (leb : K → K → bool) (keys : list K)
  : list (K * nat) :=
  foldr (insert_key leb) [] (zip keys (seq 0 (length keys))).

(** Modelled from the spec: [index_sort] of paddle_geometric.utils is not
    among the sources; the "CSR/CSC conversion" needs of it the sorted values
    together with the permutation that sorts them.  It is taken to be a
    stable sort; the properties proved of [to_csc] do not depend on
    stability. *)
Definition index_sort (inputs : list nat) : list nat * list nat :=
  let s := sort_keys Nat.leb inputs in (s.*1, s.*2).

(** Modelled from the spec: [lexsort] of paddle_geometric.utils is not among
    the sources; the last key is the primary one, as in NumPy. *)
Definition lex_leb (a b : nat * Z) : bool :=
  (a.1 <? b.1)%nat || ((a.1 =? b.1)%nat && (a.2 <=? b.2)%Z).

Definition lexsort2 (secondary : list Z) (primary : list nat) : list nat :=
  (sort_keys lex_leb (zip primary secondary)).*2.

(** Modelled from the spec: [index2ptr] of paddle_geometric.index is not
    among the sources; it converts sorted indices to the pointer array of the
    compressed format: entry [i] counts the indices below [i].  Without a
    size, the size is one more than the largest index. *)
Definition index2ptr (index : list nat) (size : option nat) : list nat :=
  let size := default (foldr (λ i m, S i `max` m) 0 index) size in
  (λ i, length (filter (λ c, c < i) index)) <$> seq 0 (S size).

Definition sort_csc (row col : list nat)
    (src_node_time edge_time : option (list Z))
  : result (list nat * list nat * list nat) :=
  match src_node_time, edge_time with
  | None, None =>
    let '(col, perm) := index_sort col in
    row ← gather row perm; Ok (row, col, perm)
  | _, Some edge_time =>
    if bool_decide (src_node_time = None) then
      let perm := lexsort2 edge_time col in
      row ← gather row perm; col ← gather col perm; Ok (row, col, perm)
    else Raise AssertionError
  | Some src_node_time, None =>
    t ← gather src_node_time row;
    let perm := lexsort2 t col in
    row ← gather row perm; col ← gather col perm; Ok (row, col, perm)
  end.

(** [to_csc]; the [device] and [share_memory] arguments move the result
    between memories and do not change its values, they are left out. *)
Definition to_csc (data : Data) (is_sorted : bool)
    (src_node_time edge_time : option (list Z))
  : result (list nat * list nat * option (list nat)) :=
  match adj data with
  | Some (colptr, row) =>
    if bool_decide (src_node_time ≠ None) then Raise NotImplementedError
    else Ok (colptr, row, None)
  | None =>
    match adj_t data with
    | Some (colptr, row) => Ok (colptr, row, None)
    | None =>
      match edge_index data with
      | Some edge_index =>
        let row := edge_index.*1 in
        let col := edge_index.*2 in
        '(row, col, perm) ←
          (if negb is_sorted
           then '(row, col, perm) ← sort_csc row col src_node_time edge_time;
                Ok (row, col, Some perm)
           else Ok (row, col, None));
        let colptr := index2ptr col (num_nodes data) in
        Ok (colptr, row, perm)
      | None =>
        match num_nodes data with
        | Some n => Ok (replicate (n + 1) 0, [], None)
        | None => Raise TypeError
        end
      end
    end
  end.

(** The order that [lexsort] establishes on (destination, time): by
    destination, and by time among equal destinations. *)
Definition lex_le (a b : nat * Z) : Prop :=
  a.1 < b.1 ∨ (a.1 = b.1 ∧ (a.2 ≤ b.2)%Z).

(** *** [to_hetero_csc]

    [data.edge_items()] yields the edge types with their stores; a store is
    read through [adj], [adj_t], [edge_index] and [size(1)], like a [Data]
    object.  The loop state is [(colptr_dict, row_dict, perm_dict)]. *)
Definition to_hetero_csc_step (is_sorted : bool)
    (node_time_dict : option (gmap NodeType (list Z)))
    (edge_time_dict : option (gmap EdgeType (list Z)))
    (st : list (EdgeType * list nat) * list (EdgeType * list nat)
          * list (EdgeType * option (list nat)))
    (item : EdgeType * Data)
  : result (list (EdgeType * list nat) * list (EdgeType * list nat)
            * list (EdgeType * option (list nat))) :=
  let '(colptr_dict, row_dict, perm_dict) := st in
  let '(edge_type, store) := item in
  let src_node_time := default ∅ node_time_dict !! key_first edge_type in
  let edge_time := default ∅ edge_time_dict !! edge_type in
  '(colptr, row, perm) ← to_csc store is_sorted src_node_time edge_time;
  Ok (dict_store edge_type colptr colptr_dict,
      dict_store edge_type row row_dict,
      dict_store edge_type perm perm_dict).

Definition to_hetero_csc (data : list (EdgeType * Data)) (is_sorted : bool)
    (node_time_dict : option (gmap NodeType (list Z)))
    (edge_time_dict : option (gmap EdgeType (list Z))) :=
  for_each (to_hetero_csc_step is_sorted node_time_dict edge_time_dict)
           data ([], [], []).

(** *** [remap_keys] *)

Section remap_keys.
Context {X V : Type} `{Countable X}.

(** The key of the comprehension: [k if k in exclude else mapping.get(k, k)]. *)
Definition remap_key (mapping : gmap X X) (exclude : list X) (k : X) : X :=
  if bool_decide (k ∈ exclude) then k else default k (mapping !! k).

(** [exclude or []] first; the comprehension then stores the entries of
    [inputs] one after the other under their new keys. *)
Definition remap_keys (inputs : list (X * V)) (mapping : gmap X X)
    (exclude : option (list X)) : list (X * V) :=
  let exclude := default [] exclude in
  foldl (λ d kv, dict_store (remap_key mapping exclude kv.1) kv.2 d)
        [] inputs.

End remap_keys.

End sampler_utils.

(** ** transforms/rooted_subgraph.py *)

Module rooted_subgraph.

(** [paddle.nonzero(m, as_tuple=True)] on a matrix: the row and column
    indices of the true entries, in row-major order; [marked] lists them as
    pairs. *)
Definition true_columns (row : list bool) : list nat :=
  filter (λ v, row !! v = Some true) (seq 0 (length row)).

Definition marked (m : list (list bool)) : list (nat * nat) :=
  mjoin (imap (λ b row, (λ v, (b, v)) <$> true_columns row) m).

Definition nonzero (m : list (list bool)) : list nat * list nat :=
  ((marked m).*1, (marked m).*2).

(** [m[:, idx]]: the columns [idx] of every row. *)
Fixpoint columns {A} (m : list (list A)) (idx : list nat)
  : result (list (list A)) :=
  match m with
  | [] => Ok []
  | row :: m' => r ← gather row idx; rs ← columns m' idx; Ok (r :: rs)
  end.

(** Elementwise [&] of two boolean matrices. *)
Definition mask_and (a b : list (list bool)) : list (list bool) :=
  zip_with (zip_with andb) a b.

(** [m[rows, cols] = values] with index tensors of one length. *)
Fixpoint index_put {A} (m : list (list A)) (rows cols : list nat)
    (values : list A) : result (list (list A)) :=
  match rows, cols, values with
  | [], [], [] => Ok m
  | b :: rows', v :: cols', a :: values' =>
    row ← list_getitem m b;
    if bool_decide (v < length row) then
      index_put (<[b := <[v := a]> row]> m) rows' cols' values'
    else Raise IndexError
  | _, _, _ => Raise ValueError
  end.

Definition assert_some {A} (o : option A) : result A :=
  match o with
  | Some a => Ok a
  | None => Raise AssertionError
  end.

(** [RootedSubgraph.map]: returns
    [(sub_edge_index, n_id, e_id, n_sub_batch, e_sub_batch)], the first as
    its two rows. *)
Definition map (data : Data) (n_mask : list (list bool))
  : result ((list nat * list nat) * list nat * list nat * list nat * list nat) :=
  edge_index ← assert_some (edge_index data);
  num_nodes ← assert_some (num_nodes data);
  let '(n_sub_batch, n_id) := nonzero n_mask in
  m0 ← columns n_mask edge_index.*1;
  m1 ← columns n_mask edge_index.*2;
  let e_mask := mask_and m0 m1 in
  let '(e_sub_batch, e_id) := nonzero e_mask in
  sub0 ← gather edge_index.*1 e_id;
  sub1 ← gather edge_index.*2 e_id;
  let arange := seq 0 (length n_id) in
  let node_map := replicate num_nodes (replicate num_nodes 1) in
  node_map ← index_put node_map n_sub_batch n_id arange;
  offset ← gather ((λ a, a * num_nodes) <$> arange) e_sub_batch;
  let sub0 := zip_with Nat.add sub0 offset in
  let sub1 := zip_with Nat.add sub1 offset in
  let flat := mjoin node_map in
  sub0 ← gather flat sub0;
  sub1 ← gather flat sub1;
  Ok ((sub0, sub1), n_id, e_id, n_sub_batch, e_sub_batch).

(** *** Keyword arguments of the tensor creation functions

    The subclasses call [paddle.eye], [paddle.arange] and [paddle.zeros]
    with the keywords [dtype] and [place]; [map] calls [paddle.arange] with
    [device].  The creation functions of the framework take [dtype] and
    [device] and no keyword [place]: a call that passes it raises
    [TypeError] before a tensor is made. *)
Inductive keyword : Type := kw_dtype | kw_device | kw_place.

Definition accepted (k : keyword) : bool :=
  match k with
  | kw_dtype | kw_device => true
  | kw_place => false
  end.

(** The call of a creation function with the given keywords, [value]
    being what it makes when it accepts them. *)
Definition creation {A} (keywords : list keyword) (value : A) : result A :=
  if forallb accepted keywords then Ok value else Raise TypeError.

(** *** [RootedEgoNets] *)

Definition matrix (n m : nat) (f : nat → nat → nat) : list (list nat) :=
  (λ i, (λ j, f i j) <$> seq 0 m) <$> seq 0 n.

Definition entry (a : list (list nat)) (i j : nat) : nat :=
  default 0 (a !! i ≫= (.!! j)).

(** Modelled from the spec: [to_paddle_csc_tensor] of
    paddle_geometric.utils is not among the sources; for the "subgraph
    masking" it yields the [n] by [n] adjacency matrix, whose entry
    [(r, c)] counts the edges from [r] to [c]; an endpoint outside the size
    is an error. *)
Definition to_paddle_csc_tensor (edge_index : list (nat * nat)) (n : nat)
  : result (list (list nat)) :=
  if forallb (λ e, (e.1 <? n) && (e.2 <? n)) edge_index
  then Ok (matrix n n (λ r c,
             length (filter (λ e, e = (r, c)) edge_index)))
  else Raise IndexError.

Definition transpose (n : nat) (a : list (list nat)) : list (list nat) :=
  matrix n n (λ i j, entry a j i).

Definition eye (n : nat) : list (list nat) :=
  matrix n n (λ i j, if (i =? j)%nat then 1 else 0).

Definition matmul (n : nat) (a b : list (list nat)) : list (list nat) :=
  matrix n n (λ i j,
    foldr Nat.add 0 ((λ m, entry a i m * entry b m j) <$> seq 0 n)).

Definition matadd (n : nat) (a b : list (list nat)) : list (list nat) :=
  matrix n n (λ i j, entry a i j + entry b i j).

(** [for _ in range(num_hops): n_mask += adj_t @ n_mask].  The entries are
    float32 sums of products of non-negative numbers: while finite, such a
    sum is positive exactly when the sum over the natural numbers is, which
    is all [n_mask > 0] reads of it.  The entries are therefore natural
    numbers here. *)
Fixpoint hops (n : nat) (adj_t n_mask : list (list nat)) (num_hops : nat)
  : list (list nat) :=
  match num_hops with
  | 0 => n_mask
  | S k => hops n adj_t (matadd n n_mask (matmul n adj_t n_mask)) k
  end.

(** [n_mask > 0]. *)
Definition positive (n_mask : list (list nat)) : list (list bool) :=
  fmap (M := list) (λ x, 0 <? x) <$> n_mask.

(** [paddle.eye(num_nodes, dtype='float32', place=...)]. *)
Definition paddle_eye (num_nodes : nat) (keywords : list keyword)
  : result (list (list nat)) :=
  creation keywords (eye num_nodes).

Definition ego_mask (data : Data) (num_hops : nat)
  : result (list (list bool)) :=
  edge_index ← assert_some (edge_index data);
  num_nodes ← assert_some (num_nodes data);
  adj ← to_paddle_csc_tensor edge_index num_nodes;
  let adj_t := transpose num_nodes adj in
  n_mask ← paddle_eye num_nodes [kw_dtype; kw_place];
  let n_mask := hops num_nodes adj_t n_mask num_hops in
  Ok (positive n_mask).

Definition RootedEgoNets_extract (num_hops : nat) (data : Data) :=
  n_mask ← ego_mask data num_hops; map data n_mask.

(** *** [RootedRWSubgraph] *)

(** [paddle.tile(x.reshape([-1, 1]), [1, k]).reshape([-1])]: every entry
    repeated [k] times. *)
Definition tile_each {A} (k : nat) (x : list A) : list A :=
  mjoin (replicate k <$> x).

(** [paddle.arange(num_nodes, dtype='int64', place=...)] and
    [paddle.zeros((num_nodes, num_nodes), dtype='bool', place=...)]. *)
Definition paddle_arange (num_nodes : nat) (keywords : list keyword)
  : result (list nat) :=
  creation keywords (seq 0 num_nodes).

Definition paddle_zeros (rows cols : nat) (keywords : list keyword)
  : result (list (list bool)) :=
  creation keywords (replicate rows (replicate cols false)).

(** [n_mask[start, walk.reshape([-1])] = True], with [start] tiled along
    the walks. *)
Definition mark_walks (n_mask : list (list bool)) (walk_length : nat)
    (start : list nat) (walk : list (list nat))
  : result (list (list bool)) :=
  let start := tile_each (walk_length + 1) start in
  let flat := mjoin walk in
  index_put n_mask start flat (replicate (length flat) true).

(** [random_walk] is not among the sources and draws random numbers: it is
    an argument, called on the two rows of [edge_index], the start nodes, the
    walk length and [num_nodes], and returns the walks as the rows of a
    matrix. *)
Definition rw_mask
    (random_walk : list nat → list nat → list nat → nat → nat
                   → list (list nat))
    (walk_length repeat : nat) (data : Data) : result (list (list bool)) :=
  edge_index ← assert_some (edge_index data);
  num_nodes ← assert_some (num_nodes data);
  start ← paddle_arange num_nodes [kw_dtype; kw_place];
  let start := tile_each repeat start in
  let walk :=
    random_walk edge_index.*1 edge_index.*2 start walk_length num_nodes in
  n_mask ← paddle_zeros num_nodes num_nodes [kw_dtype; kw_place];
  mark_walks n_mask walk_length start walk.

Definition RootedRWSubgraph_extract random_walk (walk_length repeat : nat)
    (data : Data) :=
  n_mask ← rw_mask random_walk walk_length repeat data; map data n_mask.

(** *** [RootedSubgraphData] and [RootedSubgraph.forward] *)

(** The attributes of the [Data] object, copied by
    [from_dict(data.to_dict())], and the five that [forward] adds. *)
Record RootedSubgraphData : Type := {
  data_of : Data;
  sub_edge_index : list nat * list nat;
  n_id : list nat;
  e_id : list nat;
  n_sub_batch : list nat;
  e_sub_batch : list nat;
}.

Definition RootedSubgraph_forward
    (extract : Data → result ((list nat * list nat) * list nat * list nat
                              * list nat * list nat))
    (data : Data) : result RootedSubgraphData :=
  out ← extract data;
  let '(sub_edge_index, n_id, e_id, n_sub_batch, e_sub_batch) := out in
  Ok {| data_of := data; sub_edge_index := sub_edge_index; n_id := n_id;
        e_id := e_id; n_sub_batch := n_sub_batch;
        e_sub_batch := e_sub_batch |}.

(** [xs[-1]]. *)
Definition getitem_last {A} (xs : list A) : result A :=
  match last xs with
  | Some x => Ok x
  | None => Raise IndexError
  end.

Section inc.
Context {Val : Type}.
(** [Data.__inc__] is not among the sources: it is an argument.  The
    increment is an integer, or [None] where [num_nodes] is. *)
Variable super_inc : RootedSubgraphData → string → Val → result (option nat).

Definition __inc__ (self : RootedSubgraphData) (key : string) (value : Val)
  : result (option nat) :=
  if String.eqb key "sub_edge_index" then Ok (Some (length (n_id self)))
  else if bool_decide (key ∈ ["n_sub_batch"; "e_sub_batch"]%string) then
    b ← getitem_last (n_sub_batch self); Ok (Some (1 + b))
  else if String.eqb key "n_id" then Ok (num_nodes (data_of self))
  else if String.eqb key "e_id" then
    edge_index ← assert_some (edge_index (data_of self));
    Ok (Some (length edge_index))
  else super_inc self key value.

End inc.

(** *** Vocabulary of the statements about rooted subgraphs *)

(** The entry of a matrix at a row and a column, when in range. *)
Definition cell {A} (m : list (list A)) (i j : nat) : option A :=
  m !! i ≫= (.!! j).

(** A matrix of [n] rows and [n] columns. *)
Definition square {A} (n : nat) (m : list (list A)) : bool :=
  (length m =? n) && forallb (λ row, length row =? n) m.

(** Every endpoint of every edge is a node. *)
Definition valid_edges (n : nat) (edge_index : list (nat * nat)) : bool :=
  forallb (λ e, (e.1 <? n) && (e.2 <? n)) edge_index.

(** The edge index holds every edge in both directions. *)
Definition symmetric (edge_index : list (nat * nat)) : bool :=
  forallb (λ e, bool_decide ((e.2, e.1) ∈ edge_index)) edge_index.

(** The walks returned for the given start nodes form a matrix with one
    row of [walk_length + 1] nodes for every start node. *)
Definition walks_shaped (n walk_length : nat) (start : list nat)
    (walks : list (list nat)) : bool :=
  (length walks =? length start)
  && forallb (λ r, (length r =? walk_length + 1) && forallb (λ v, v <? n) r)
             walks.

(** Every walk begins at its start node. *)
Definition walks_rooted (start : list nat) (walks : list (list nat)) : bool :=
  forallb (λ sr, bool_decide (head sr.2 = Some sr.1)) (zip start walks).

(** [walk edges k u v]: a walk of at most [k] edges leads from [u] to [v]. *)
Inductive walk (edge_index : list (nat * nat)) : nat → nat → nat → Prop :=
| walk_here k v : walk edge_index k v v
| walk_step k u w v :
    (u, w) ∈ edge_index → walk edge_index k w v → walk edge_index (S k) u v.

End rooted_subgraph.

(** ** nn/parameter_dict.py *)

Module parameter_dict.

(** [Key = Union[str, Tuple[str, ...]]]. *)
Inductive Key : Type :=
| KStr (s : string)
| KTuple (t : list string).

(** [s.replace(a, b)] for one-character [a] and [b]. *)
Fixpoint replace (a b : ascii) (s : string) : string :=
  match s with
  | EmptyString => EmptyString
  | String c s' =>
    String (if Ascii.eqb c a then b else c) (replace a b s')
  end.

(** [sep.join(parts)]. *)
Fixpoint join (sep : string) (parts : list string) : string :=
  match parts with
  | [] => EmptyString
  | [p] => p
  | p :: ps => p +:+ sep +:+ join sep ps
  end.

(** [s.startswith(p)]. *)
Fixpoint startswith (p s : string) : bool :=
  match p, s with
  | EmptyString, _ => true
  | String a p', String b s' => Ascii.eqb a b && startswith p' s'
  | String _ _, EmptyString => false
  end.

(** [sep in s]. *)
Fixpoint contains (sep s : string) : bool :=
  startswith sep s
  || match s with
     | EmptyString => false
     | String _ s' => contains sep s'
     end.

(** [s.split(sep)] for a non-empty [sep]: scanning from the left, every
    occurrence of [sep] closes the current piece and is skipped.  [skip]
    counts the characters of a matched separator still to pass over. *)
Fixpoint split_go (sep : string) (skip : nat) (cur s : string)
  : list string :=
  match s with
  | EmptyString => [cur]
  | String c s' =>
    match skip with
    | S k => split_go sep k cur s'
    | O =>
      if startswith sep s
      then cur :: split_go sep (String.length sep - 1) EmptyString s'
      else split_go sep 0 (cur +:+ String c EmptyString) s'
    end
  end.

Definition split (sep s : string) : list string :=
  split_go sep 0 EmptyString s.

(** [key[1:-1]]. *)
Definition inner (key : string) : string :=
  String.substring 1 (String.length key - 2) key.

(** [key[0] == '<' and key[-1] == '>']: [key[0]] raises on the empty
    string; [and] does not look at [key[-1]] when the first test fails. *)
Definition wrapped (key : string) : result bool :=
  match key with
  | EmptyString => Raise IndexError
  | String c _ =>
    Ok (Ascii.eqb c "<"
        && bool_decide (String.get (String.length key - 1) key = Some ">"%char))
  end.

(** The f-string [f'<{key}>']. *)
Definition bracket (key : string) : string := "<" +:+ key +:+ ">".

Section ParameterDict.
(** [CLASS_ATTRS = set(dir(paddle.nn.LayerDict))], by its membership test;
    the attribute names are the framework's. *)
Variable CLASS_ATTRS : string → bool.
(** The values the dictionary holds.  The [LayerDict] underneath asserts of
    every value handed to it that it is a [Layer]; [P] stands for the
    values that pass, and the assertion is not modelled. *)
Context {P : Type}.

Definition to_internal_key (key : Key) : result string :=
  key ← match key with
        | KTuple t =>
          if bool_decide (1 < length t)
          then Ok (bracket (join "___" t))
          else Raise AssertionError
        | KStr s => Ok s
        end;
  let key := if CLASS_ATTRS key then bracket key else key in
  Ok (replace "." "#" key).

Definition to_external_key (key : string) : result Key :=
  let key := replace "#" "." key in
  w ← wrapped key;
  let key := if w && CLASS_ATTRS (inner key) then inner key else key in
  w ← wrapped key;
  if w && contains "___" key
  then Ok (KTuple (split "___" (inner key)))
  else Ok (KStr key).

(** The [LayerDict] underneath: an ordered dictionary with string keys. *)
Fixpoint dict_set (k : string) (v : P) (d : list (string * P))
  : list (string * P) :=
  match d with
  | [] => [(k, v)]
  | (k', v') :: d' =>
    if String.eqb k' k then (k', v) :: d' else (k', v') :: dict_set k v d'
  end.

Definition setitem (self : list (string * P)) (key : Key) (parameter : P)
  : result (list (string * P)) :=
  k ← to_internal_key key; Ok (dict_set k parameter self).

Definition keys (self : list (string * P)) : result (list Key) :=
  traverse to_external_key self.*1.

Definition items (self : list (string * P)) : result (list (Key * P)) :=
  traverse (λ kv, k ← to_external_key kv.1; Ok (k, kv.2)) self.

(** [__getitem__], [__delitem__] and [__contains__] hand the internal key
    to the dictionary underneath, whose keys are distinct. *)
Definition __getitem__ (self : list (string * P)) (key : Key) : result P :=
  k ← to_internal_key key;
  match dict_get k self with
  | Some parameter => Ok parameter
  | None => Raise KeyError
  end.

Definition __delitem__ (self : list (string * P)) (key : Key)
  : result (list (string * P)) :=
  k ← to_internal_key key;
  match dict_get k self with
  | Some _ => Ok (filter (λ kv, kv.1 ≠ k) self)
  | None => Raise KeyError
  end.

Definition __contains__ (self : list (string * P)) (key : Key) : result bool :=
  k ← to_internal_key key; Ok (bool_decide (is_Some (dict_get k self))).

(** [__init__]: the comprehension over [parameters.items()] builds a
    dictionary under the internal keys, which the [LayerDict] takes over
    entry by entry; nothing is converted when [parameters] is [None] or
    empty. *)
Definition __init__ (parameters : option (list (Key * P)))
  : result (list (string * P)) :=
  match parameters with
  | None | Some [] => Ok []
  | Some parameters =>
    for_each (λ d kv, k ← to_internal_key kv.1; Ok (dict_set k kv.2 d))
             parameters []
  end.

End ParameterDict.

(** *** Vocabulary of the statements about keys *)

Definition first_is (c : ascii) (s : string) : bool :=
  match s with
  | String c' _ => Ascii.eqb c' c
  | EmptyString => false
  end.

Definition last_is (c : ascii) (s : string) : bool :=
  bool_decide (String.get (String.length s - 1) s = Some c).

(** The keys of the round-trip claim: a string without ['#'] that is not
    both opened by ['<'] and closed by ['>'], or a tuple of at least two
    components without ['.'], ['#'] and ['___']. *)
Definition component_claimed (c : string) : bool :=
  negb (contains "." c) && negb (contains "#" c) && negb (contains "___" c).

Definition key_claimed (key : Key) : bool :=
  match key with
  | KStr s => negb (contains "#" s) && negb (first_is "<" s && last_is ">" s)
  | KTuple t => (2 <=? length t)%nat && forallb component_claimed t
  end.

(** The keys that do round-trip: moreover, a string key is not empty, no
    component of a tuple except the last ends in an underscore, and the
    joined components are not an attribute name of the class. *)
Definition key_ok (CLASS_ATTRS : string → bool) (key : Key) : bool :=
  key_claimed key
  && match key with
     | KStr s => negb (String.eqb s "")
     | KTuple t =>
       forallb (λ c, negb (last_is "_" c)) (removelast t)
       && negb (CLASS_ATTRS (join "___" t))
     end.

(** The keys that [to_internal_key] accepts: its assertion refuses a tuple
    of fewer than two components. *)
Definition key_accepted (key : Key) : bool :=
  match key with
  | KStr _ => true
  | KTuple t => bool_decide (1 < length t)
  end.

(** The attribute names of a class are identifiers: none is empty, opens
    with ['<'] or holds ['.'] or ['#']. *)
Definition plain_name (s : string) : bool :=
  negb (String.eqb s "") && negb (first_is "<" s)
  && negb (contains "." s) && negb (contains "#" s).

Definition attrs_plain (CLASS_ATTRS : string → bool) : Prop :=
  ∀ s, CLASS_ATTRS s = true → plain_name s = true.

(** What assignments keep true of the dictionary underneath: its keys are
    distinct, and each is the internal form of a key. *)
Definition well_keyed {P} (CLASS_ATTRS : string → bool)
    (self : list (string * P)) : Prop :=
  NoDup self.*1
  ∧ Forall (λ k, ∃ key : Key, to_internal_key CLASS_ATTRS key = Ok k) self.*1.

(** A sample of the attribute names of [paddle.nn.LayerDict], for the
    examples. *)
Definition sample_attrs (s : string) : bool :=
  bool_decide (s ∈ ["clear"; "forward"; "items"; "keys"; "pop"; "update";
                    "values"; "parameters"; "sublayers"; "state_dict";
                    "__init__"; "__len__"; "__iter__"; "__getitem__";
                    "__setitem__"; "__delitem__"; "__contains__"]%string).

End parameter_dict.

(** ** Examples

    A small model of the framework on integer tensors, and the concrete
    inputs on which the statements of Part II are run. *)

Module examples.
Import hetero_conv hetero rooted_subgraph parameter_dict.

(** An integer tensor: its shape and its values in row-major order. *)
Record tensor : Type := {
  shape : list nat;
  values : list Z;
}.

#[global] Instance tensor_eq_dec : EqDecision tensor.
Proof. solve_decision. Defined.

Definition size_of (shape : list nat) : nat := foldr Nat.mul 1 shape.

(** The [i]-th block of [size] values. *)
Definition block (size i : nat) (x : tensor) : list Z :=
  take size (drop (i * size) (values x)).

Definition same_shapes (xs : list tensor) : bool :=
  match xs with
  | [] => false
  | x :: _ => forallb (λ y, bool_decide (shape y = shape x)) xs
  end.

(** [paddle.stack] on axes 0 and 1 of tensors of one shape. *)
Definition stack (xs : list tensor) (axis : Z) : result tensor :=
  if negb (same_shapes xs) then Raise ValueError
  else match xs, axis with
  | x :: _, 0%Z =>
    Ok {| shape := length xs :: shape x; values := xs ≫= values |}
  | x :: _, 1%Z =>
    match shape x with
    | n :: s =>
      Ok {| shape := n :: length xs :: s;
            values := seq 0 n ≫= λ i, xs ≫= block (size_of s) i |}
    | [] => Raise ValueError
    end
  | _, _ => Raise ValueError
  end.

(** [paddle.concat] along the last axis of tensors that agree on the
    other axes. *)
Definition concat_last (xs : list tensor) (axis : Z) : result tensor :=
  match xs, axis with
  | x :: _, (-1)%Z =>
    let pre := removelast (shape x) in
    if forallb (λ y, bool_decide (removelast (shape y) = pre)
                     && negb (bool_decide (shape y = []))) xs
    then Ok {| shape := pre ++ [foldr Nat.add 0 ((λ y, List.last (shape y) 0) <$> xs)];
               values := seq 0 (size_of pre) ≫= λ r,
                         xs ≫= λ y, block (List.last (shape y) 0) r y |}
    else Raise ValueError
  | _, _ => Raise ValueError
  end.

(** An elementwise reduction over axis 0. *)
Definition reduce0 (op : Z → Z → Z) (x : tensor) (axis : Z)
  : result (reduced tensor) :=
  match shape x, axis with
  | S k :: s, 0%Z =>
    Ok (RTensor
          {| shape := s;
             values := (λ p, foldr op (nth p (block (size_of s) k x) 0%Z)
                                   ((λ c, nth p (block (size_of s) c x) 0%Z)
                                      <$> seq 0 k))
                       <$> seq 0 (size_of s) |})
  | _, _ => Raise ValueError
  end.

#[global] Instance paddle_int : Paddle tensor := {|
  paddle_stack := stack;
  paddle_concat := concat_last;
  paddle_getattr name :=
    if String.eqb name "sum" then Some (reduce0 Z.add)
    else if String.eqb name "max" then Some (reduce0 Z.max)
    else if String.eqb name "min" then Some (reduce0 Z.min)
    else None;
|}.

(** A heterogeneous graph of authors and papers. *)
Definition writes : EdgeType := ("author", "writes", "paper")%string.
Definition cites : EdgeType := ("paper", "cites", "paper")%string.
Definition written_by : EdgeType := ("paper", "written_by", "author")%string.

Definition t22 (a b c d : Z) : tensor :=
  {| shape := [2; 2]; values := [a; b; c; d] |}.

(** A convolution that returns a fixed tensor. *)
Definition const_conv (out : tensor) : MessagePassing tensor tensor :=
  {| add_self_loops := Some false; call := λ _ _, Ok out |}.

Definition ex_conv : HeteroConv tensor tensor :=
  {| convs := [(writes, const_conv (t22 1 2 3 4));
               (cites, const_conv (t22 10 20 30 40));
               (written_by, const_conv (t22 5 5 5 5))];
     aggr := Some "sum"%string |}.

Definition ex_x_dict : gmap (NodeType + EdgeType) tensor :=
  {[ inl "author"%string := t22 0 0 0 0; inl "paper"%string := t22 1 1 1 1 ]}.

Definition ex_edge_index_dict : gmap (NodeType + EdgeType) tensor :=
  {[ inr writes := t22 0 1 1 0; inr cites := t22 0 0 1 1 ]}.

Definition ex_out : list (NodeType * option tensor) :=
  [("paper"%string, Some (t22 11 22 33 44))].

(** A store with two edge indices and two attribute tensors. *)
Definition to_b : EdgeType := ("a", "to", "b")%string.
Definition to_a : EdgeType := ("b", "to", "a")%string.

Definition ex_heap : list (obj Z) :=
  [Dense [(0, 1); (1, 0)]; Dense [(0, 0)]; Attr [[5]]; Attr [[7]]]%Z.
Definition ex_index_dict : gmap EdgeType nat := {[ to_b := 0; to_a := 1 ]}.
Definition ex_src_offset : list (EdgeType * Z) := [(to_b, 10); (to_a, 20)]%Z.
Definition ex_dst_offset : gmap NodeType Z :=
  {[ "a"%string := 100; "b"%string := 200 ]}%Z.
Definition ex_attr_dict : option attr_dict :=
  Some (PlainDict {[ to_b := 2; to_a := 3 ]}).

(** A path on three nodes, with every edge in both directions, and a star
    with four edges. *)
Definition path3 : Data :=
  {| adj := None; adj_t := None;
     edge_index := Some [(0, 1); (1, 0); (1, 2); (2, 1)];
     num_nodes := Some 3 |}.

Definition star4 : Data :=
  {| adj := None; adj_t := None;
     edge_index := Some [(0, 2); (1, 0); (2, 1); (3, 0)];
     num_nodes := Some 4 |}.

Definition path3_mask : list (list bool) :=
  [[true; true; false]; [true; true; true]; [false; true; true]].

(** Two walks of length one from every node of the path. *)
Definition ex_random_walk (row col start : list nat) (walk_length n : nat)
  : list (list nat) :=
  [[0; 1]; [0; 1]; [1; 2]; [1; 0]; [2; 1]; [2; 1]].

Definition ex_key : Key := KTuple ["author"; "writes"; "paper"]%string.

(** A dictionary, a renaming of two of its keys and the renaming back. *)
Definition ex_inputs : list (string * nat) :=
  [("a", 1); ("b", 2); ("c", 3)]%string.
Definition ex_mapping : gmap string string :=
  {[ "a" := "x"; "b" := "y" ]}%string.
Definition ex_inverse : gmap string string :=
  {[ "x" := "a"; "y" := "b" ]}%string.

(** Parameters to build a [ParameterDict] from. *)
Definition ex_parameters : list (Key * nat) :=
  [(ex_key, 1); (KStr "keys", 2)].

(** The layer with the two edge types into "paper" only, and a dictionary
    with an edge index for "writes" alone. *)
Definition ex_conv_papers : HeteroConv tensor tensor :=
  {| convs := [(writes, const_conv (t22 1 2 3 4));
               (cites, const_conv (t22 10 20 30 40))];
     aggr := Some "sum"%string |}.

Definition ex_writes_dict : gmap (NodeType + EdgeType) tensor :=
  {[ inr writes := t22 0 1 1 0 ]}.

(** Two node types with their counts, the local edge indices between
    them, and a stand-in for [maybe_num_nodes_dict] that returns the counts
    it is given. *)
Definition ex_num_nodes : list (NodeType * nat) :=
  [("a", 2); ("b", 3)]%string.
Definition ex_local_edges : list (EdgeType * list (nat * nat)) :=
  [(to_b, [(0, 1); (1, 2)]); (to_a, [(2, 0)])].
Definition ex_maybe_num_nodes_dict
    (edge_index_dict : list (EdgeType * list (nat * nat)))
    (num_nodes_dict : option (list (NodeType * nat)))
  : result (list (NodeType * nat)) :=
  Ok (default [] num_nodes_dict).

(** The star with its edges in the order of their destinations, time
    stamps for the four edges of the star, and a heterogeneous graph of two
    edge stores. *)
Definition star4_sorted : Data :=
  {| adj := None; adj_t := None;
     edge_index := Some [(1, 0); (3, 0); (2, 1); (0, 2)];
     num_nodes := Some 4 |}.

Definition ex_edge_time : list Z := [5; 3; 1; 2]%Z.

Definition ex_hetero : list (EdgeType * Data) := [(to_b, path3); (to_a, star4)].

(** A stand-in for [Data.__inc__]. *)
Definition ex_super_inc (self : RootedSubgraphData) (key : string)
    (value : unit) : result (option nat) :=
  Ok (Some 0).

End examples.

(* ================================================================== *)
(** * Part II: properties                                              *)
(* ================================================================== *)

(** ** Outcomes *)

Lemma bind_Ok {A B} (m : result A) (f : A → result B) (b : B) :
  m ≫= f = Ok b ↔ ∃ a, m = Ok a ∧ f a = Ok b.
Proof.
  destruct m as [a|e]; simpl; split.
  - intros Hf. exists a. done.
  - intros (a' & [= <-] & Hf). done.
  - discriminate.
  - intros (a' & [=] & _).
Qed.

Lemma fmap_Ok {A B} (m : result A) (f : A → B) (b : B) :
  f <$> m = Ok b ↔ ∃ a, m = Ok a ∧ b = f a.
Proof.
  destruct m as [a|e]; simpl; split.
  - intros [= <-]. eauto.
  - intros (a' & [= <-] & ->). done.
  - discriminate.
  - intros (a' & [=] & _).
Qed.

(** Splits a hypothesis [m ≫= f = Ok b] into its two steps. *)
Ltac bind_inv H :=
  let a := fresh "a" in
  let Ha := fresh "Hstep" in
  apply bind_Ok in H as (a & Ha & H).

Lemma for_each_app {A S} (body : S → A → result S) xs ys s :
  for_each body (xs ++ ys) s = for_each body xs s ≫= for_each body ys.
Proof.
  revert s. induction xs as [|x xs IH]; intros s; simpl; [done|].
  destruct (body s x) as [s'|e]; simpl; [apply IH | done].
Qed.

Lemma traverse_Ok_Forall2 {A B} (f : A → result B) xs ys :
  traverse f xs = Ok ys ↔ Forall2 (λ x y, f x = Ok y) xs ys.
Proof.
  revert ys. induction xs as [|x xs IH]; intros ys; simpl.
  - split; [intros [= <-]; constructor | by inversion 1].
  - split.
    + intros H. bind_inv H. bind_inv H. injection H as <-.
      constructor; [done | by apply IH].
    + inversion 1 as [|? y ? ys' Hx Hxs]; subst. rewrite Hx. simpl.
      apply IH in Hxs. rewrite Hxs. done.
Qed.

(** ** [check_add_self_loops] and [HeteroConv.__init__] *)

Section self_loops.
Import hetero_conv.
Context {T V : Type}.
Implicit Types (module : MessagePassing T V) (edge_types : list EdgeType).
Implicit Types convs : list (EdgeType * MessagePassing T V).

Lemma is_bipartite_true edge_types :
  existsb (λ key, negb (String.eqb (key_first key) (key_last key))) edge_types
    = true
  ↔ ∃ key, key ∈ edge_types ∧ key_first key ≠ key_last key.
Proof.
  rewrite existsb_exists. split.
  - intros (key & Hin & Hne). exists key. split; [by apply list_elem_of_In|].
    apply negb_true_iff, String.eqb_neq in Hne. done.
  - intros (key & Hin & Hne). exists key. split; [by apply list_elem_of_In|].
    by apply negb_true_iff, String.eqb_neq.
Qed.

Lemma check_add_self_loops_Raise module edge_types e :
  check_add_self_loops module edge_types = Raise e ↔
  e = ValueError
  ∧ (∃ key, key ∈ edge_types ∧ key_first key ≠ key_last key)
  ∧ add_self_loops module = Some true.
Proof.
  unfold check_add_self_loops. rewrite <- is_bipartite_true.
  destruct (existsb _ edge_types), (add_self_loops module) as [[]|];
    simpl; split; try discriminate; try (intros [= <-]; done);
    try (intros (-> & ? & ?)); try done.
Qed.

Lemma init_loop_Ok convs :
  for_each init_step convs tt = Ok tt
  ↔ ∀ et m, (et, m) ∈ convs →
            ¬ (key_first et ≠ key_last et ∧ add_self_loops m = Some true).
Proof.
  induction convs as [|[et m] convs IH]; simpl.
  - split; [intros _ ?? Hin; by apply elem_of_nil in Hin | done].
  - destruct (check_add_self_loops m [et]) as [[]|e] eqn:Hc; simpl.
    + rewrite IH. split.
      * intros Hrest et' m' [[= -> ->]|Hin]%elem_of_cons; [|by apply Hrest].
        intros [Hne Hs].
        assert (check_add_self_loops m [et] = Raise ValueError) as Hr.
        { apply check_add_self_loops_Raise. split_and!; [done| |done].
          exists et. split; [apply list_elem_of_here | done]. }
        congruence.
      * intros Hall et' m' Hin. apply Hall. by apply elem_of_cons; right.
    + split; [discriminate|]. intros Hall.
      apply check_add_self_loops_Raise in Hc as (_ & (key & Hin & Hne) & Hs).
      apply list_elem_of_singleton in Hin as ->.
      exfalso. apply (Hall et m); [apply list_elem_of_here | done].
Qed.

Lemma init_loop_Raise convs e :
  for_each init_step convs tt = Raise e →
  e = ValueError
  ∧ ∃ et m, (et, m) ∈ convs ∧ key_first et ≠ key_last et
            ∧ add_self_loops m = Some true.
Proof.
  induction convs as [|[et m] convs IH]; simpl; [discriminate|].
  destruct (check_add_self_loops m [et]) as [[]|e'] eqn:Hc; simpl.
  - intros Hr. destruct (IH Hr) as (-> & et' & m' & Hin & Hne & Hs).
    split; [done|]. exists et', m'. split; [by apply elem_of_cons; right|done].
  - intros [= <-].
    apply check_add_self_loops_Raise in Hc as (-> & (key & Hin & Hne) & Hs).
    apply list_elem_of_singleton in Hin as ->.
    split; [done|]. exists et, m. split; [apply list_elem_of_here | done].
Qed.

(** C8.  [check_add_self_loops] raises [ValueError] when the list has a
    bipartite edge type and the module's [add_self_loops] is true, and
    returns normally when no edge type is bipartite or the attribute is
    absent or false; constructing a [HeteroConv] raises [ValueError] exactly
    when one of its items is such a pair, and otherwise yields the layer. *)
Theorem check_add_self_loops_spec module edge_types convs aggr :
  (check_add_self_loops module edge_types = Raise ValueError ↔
     (∃ key, key ∈ edge_types ∧ key_first key ≠ key_last key)
     ∧ add_self_loops module = Some true)
  ∧ (check_add_self_loops module edge_types = Ok tt ↔
     (∀ key, key ∈ edge_types → key_first key = key_last key)
     ∨ add_self_loops module = None ∨ add_self_loops module = Some false)
  ∧ (init convs aggr = Raise ValueError ↔
     ∃ et m, (et, m) ∈ convs ∧ key_first et ≠ key_last et
             ∧ add_self_loops m = Some true)
  ∧ ((∃ w, init convs aggr = Ok ({| convs := convs; aggr := aggr |}, w)) ↔
     ∀ et m, (et, m) ∈ convs →
             key_first et = key_last et ∨ add_self_loops m = None
             ∨ add_self_loops m = Some false).
Proof.
  assert (∀ (m : MessagePassing T V) (P : Prop), Decision P →
            ¬ (¬ P ∧ add_self_loops m = Some true) ↔
            P ∨ add_self_loops m = None ∨ add_self_loops m = Some false)
    as Hcase.
  { intros m P HP. destruct (add_self_loops m) as [[]|], (decide P);
      split; intros Hx; try tauto; try (intros [_ [=]]);
      try (destruct Hx as [|[|]]; done). }
  split_and!.
  - rewrite check_add_self_loops_Raise. tauto.
  - destruct (check_add_self_loops module edge_types) as [[]|e] eqn:Hc.
    + split; [intros _ | done].
      destruct (add_self_loops module) as [[]|] eqn:Hs; [|by auto..].
      left. intros key Hin.
      destruct (decide (key_first key = key_last key)) as [|Hne]; [done|].
      assert (check_add_self_loops module edge_types = Raise ValueError) as Hr.
      { apply check_add_self_loops_Raise. eauto. }
      congruence.
    + split; [discriminate|].
      apply check_add_self_loops_Raise in Hc as (_ & (key & Hin & Hne) & Hs).
      intros [Hall | [? | ?]]; [|congruence..].
      by specialize (Hall key Hin).
  - unfold init.
    destruct (for_each _ convs tt) as [[]|e] eqn:Hloop; simpl.
    + split; [discriminate|]. intros (et & m & Hin & Hne & Hs).
      pose proof (proj1 (init_loop_Ok _) Hloop) as Hall.
      exfalso. by apply (Hall et m).
    + destruct (init_loop_Raise _ _ Hloop) as [-> Hex]. done.
  - unfold init.
    destruct (for_each _ convs tt) as [[]|e] eqn:Hloop; simpl.
    + pose proof (proj1 (init_loop_Ok _) Hloop) as Hall.
      split; [intros _ | eauto].
      intros et m Hin. apply (Hcase m (key_first et = key_last et) _).
      by apply Hall.
    + split; [intros [w [=]]|]. intros Hall.
      assert (for_each init_step convs tt = Ok tt) as Hok; [|congruence].
      apply init_loop_Ok. intros et m Hin.
      apply (Hcase m (key_first et = key_last et) _). by apply Hall.
Qed.

End self_loops.

(** ** [HeteroConv.forward] *)

Section forward.
Import hetero_conv.
Context {T V : Type} `{Paddle T}.
Implicit Types (edge_type : EdgeType) (dst : NodeType).
Implicit Types convs : list (EdgeType * MessagePassing T V).
Implicit Types args_dict : list (gmap (NodeType + EdgeType) V).
Implicit Types kwargs_dict : list (string * gmap (NodeType + EdgeType) V).
Implicit Types out_dict : list (NodeType * list T).
Implicit Types d : gmap (NodeType + EdgeType) V.
Implicit Types item : EdgeType * MessagePassing T V.

(** *** Which convolutions run *)

Lemma bool_decide_is_Some {A} (o : option A) :
  bool_decide (is_Some o) = match o with Some _ => true | None => false end.
Proof.
  destruct o; [by apply bool_decide_eq_true_2 | apply bool_decide_eq_false_2].
  by intros [? ?].
Qed.

Lemma args_step_flag edge_type (st : bool * list (Arg V)) d :
  (args_step edge_type st d).1
  = st.1 || bool_decide (is_Some (d !! inr edge_type)).
Proof.
  destruct edge_type as [[src rel] dst], st as [has args]. simpl.
  rewrite !bool_decide_is_Some.
  destruct (d !! inr (src, rel, dst)) as [v|] eqn:Hv; rewrite ?Hv; simpl.
  - by rewrite orb_true_r.
  - rewrite orb_false_r.
    destruct (String.eqb src dst), (d !! inl src), (d !! inl dst); done.
Qed.

Lemma args_loop_flag edge_type (st : bool * list (Arg V)) args_dict :
  (foldl (args_step edge_type) st args_dict).1
  = st.1 || existsb (λ d, bool_decide (is_Some (d !! inr edge_type))) args_dict.
Proof.
  revert st. induction args_dict as [|d ds IH]; intros st; simpl.
  - by rewrite orb_false_r.
  - rewrite IH, args_step_flag. by rewrite orb_assoc.
Qed.

Lemma kwargs_step_flag edge_type (st st' : bool * gmap string (Arg V))
    (item : string * gmap (NodeType + EdgeType) V) :
  kwargs_step edge_type st item = Ok st' →
  st'.1 = st.1 || bool_decide (is_Some (item.2 !! inr edge_type)).
Proof.
  destruct edge_type as [[src rel] dst], st as [has kw], item as [arg d].
  simpl. destruct (negb (endswith arg "_dict")); [discriminate|].
  rewrite !bool_decide_is_Some.
  destruct (d !! inr (src, rel, dst)) as [v|] eqn:Hv; rewrite ?Hv; simpl.
  - intros [= <-]. simpl. by rewrite orb_true_r.
  - rewrite orb_false_r.
    destruct (String.eqb src dst), (d !! inl src), (d !! inl dst); simpl;
      by intros [= <-].
Qed.

Lemma kwargs_loop_flag edge_type (st st' : bool * gmap string (Arg V))
    kwargs_dict :
  for_each (kwargs_step edge_type) kwargs_dict st = Ok st' →
  st'.1 = st.1
          || existsb (λ kv, bool_decide (is_Some (kv.2 !! inr edge_type)))
                     kwargs_dict.
Proof.
  revert st. induction kwargs_dict as [|item kw IH]; intros st; simpl.
  - intros [= <-]. by rewrite orb_false_r.
  - intros Hloop. bind_inv Hloop.
    apply IH in Hloop. apply kwargs_step_flag in Hstep.
    rewrite Hloop, Hstep. by rewrite orb_assoc.
Qed.

Lemma forward_step_Ok args_dict kwargs_dict out_dict item out_dict' :
  forward_step args_dict kwargs_dict out_dict item = Ok out_dict' →
  if edge_level item.1 args_dict kwargs_dict
  then ∃ out, conv_output args_dict kwargs_dict item = Ok out
              ∧ out_dict' = out_dict_add (key_last item.1) out out_dict
  else out_dict' = out_dict.
Proof.
  destruct item as [edge_type conv]. unfold forward_step, conv_output, edge_level.
  simpl.
  pose proof (args_loop_flag edge_type (false, []) args_dict) as Hargs.
  destruct (foldl (args_step edge_type) (false, []) args_dict)
    as [has args] eqn:Hfold. simpl in *.
  intros Hstep. bind_inv Hstep. destruct a as [has' kwargs].
  pose proof (kwargs_loop_flag _ _ _ _ Hstep0) as Hkw. simpl in Hkw.
  rewrite Hargs in Hkw. rewrite <- Hkw.
  destruct has'; simpl in *.
  - bind_inv Hstep. injection Hstep as <-.
    exists a. rewrite Hstep0. done.
  - by injection Hstep as <-.
Qed.

(** *** The dictionary of collected outputs *)

Lemma out_dict_add_keys dst out out_dict key :
  key ∈ (out_dict_add dst out out_dict).*1 ↔ key = dst ∨ key ∈ out_dict.*1.
Proof.
  induction out_dict as [|[k v] rest IH]; simpl.
  - rewrite list_elem_of_singleton, elem_of_nil. tauto.
  - destruct (String.eqb_spec k dst) as [->|Hne]; simpl.
    + rewrite !elem_of_cons. tauto.
    + rewrite !elem_of_cons, IH. tauto.
Qed.

Lemma out_dict_add_wf dst out out_dict :
  out_dict_wf out_dict → out_dict_wf (out_dict_add dst out out_dict).
Proof.
  intros [Hnd Hne]. induction out_dict as [|[k v] rest IH]; simpl.
  - split; [apply NoDup_singleton | by repeat constructor].
  - simpl in Hnd. apply NoDup_cons in Hnd as [Hk Hnd].
    apply Forall_cons in Hne as [Hv Hne].
    destruct (String.eqb_spec k dst) as [->|Hkd]; simpl.
    + split; [by apply NoDup_cons|].
      constructor; [simpl; by destruct v | done].
    + destruct (IH Hnd Hne) as [Hnd' Hne'].
      split; [|by constructor].
      simpl. apply NoDup_cons. split; [|done].
      rewrite out_dict_add_keys. intros [->|?]; done.
Qed.

Lemma collected_add dst out out_dict key :
  collected key (out_dict_add dst out out_dict)
  = collected key out_dict ++ (if decide (key = dst) then [out] else []).
Proof.
  induction out_dict as [|[k v] rest IH]; simpl.
  - destruct (String.eqb_spec dst key) as [->|Hne].
    + by rewrite decide_True.
    + by rewrite decide_False.
  - destruct (String.eqb_spec k dst) as [->|Hkd]; simpl.
    + destruct (String.eqb_spec dst key) as [->|Hne].
      * by rewrite decide_True.
      * rewrite decide_False by done. by rewrite app_nil_r.
    + destruct (String.eqb_spec k key) as [->|Hne]; [|apply IH].
      rewrite decide_False by done. by rewrite app_nil_r.
Qed.

Lemma collected_lookup out_dict key value :
  NoDup out_dict.*1 → (key, value) ∈ out_dict → collected key out_dict = value.
Proof.
  induction out_dict as [|[k v] rest IH]; simpl; intros Hnd Hin.
  - by apply elem_of_nil in Hin.
  - apply NoDup_cons in Hnd as [Hk Hnd].
    apply elem_of_cons in Hin as [[= <- <-]|Hin].
    + by rewrite String.eqb_refl.
    + destruct (String.eqb_spec k key) as [->|Hne]; [|by apply IH].
      exfalso. apply Hk. apply list_elem_of_fmap. by exists (key, value).
Qed.

Lemma collected_nonempty out_dict key :
  out_dict_wf out_dict → key ∈ out_dict.*1 ↔ collected key out_dict ≠ [].
Proof.
  intros [Hnd Hne]. split.
  - intros ([k v] & -> & Hin)%list_elem_of_fmap. simpl.
    rewrite (collected_lookup _ _ _ Hnd Hin).
    by apply (proj1 (Forall_forall _ _) Hne (k, v)).
  - clear. induction out_dict as [|[k v] rest IH]; simpl; [done|].
    destruct (String.eqb_spec k key) as [->|Hkd]; intros Hc.
    + apply list_elem_of_here.
    + apply elem_of_cons. right. by apply IH.
Qed.

(** *** The loop over the registered edge types *)

Lemma forward_loop_Ok args_dict kwargs_dict convs out_dict out_dict' :
  for_each (forward_step args_dict kwargs_dict) convs out_dict = Ok out_dict' →
  out_dict_wf out_dict →
  out_dict_wf out_dict'
  ∧ ∀ dst, ∃ outs,
      Forall2 (λ item out, conv_output args_dict kwargs_dict item = Ok out)
              (targeting dst args_dict kwargs_dict convs) outs
      ∧ collected dst out_dict' = collected dst out_dict ++ outs.
Proof.
  revert out_dict. induction convs as [|item convs IH]; intros od; simpl.
  - intros [= <-] Hwf. split; [done|]. intros dst. exists [].
    split; [constructor | by rewrite app_nil_r].
  - intros Hloop Hwf. bind_inv Hloop. rename a into od1.
    apply forward_step_Ok in Hstep.
    assert (out_dict_wf od1) as Hwf1.
    { destruct (edge_level item.1 args_dict kwargs_dict); [|by subst].
      destruct Hstep as (out & _ & ->). by apply out_dict_add_wf. }
    destruct (IH _ Hloop Hwf1) as [Hwf' Hrest]. split; [done|]. intros dst.
    destruct (Hrest dst) as (outs & Houts & Hcol).
    unfold targeting. rewrite filter_cons.
    destruct (edge_level item.1 args_dict kwargs_dict) eqn:Hlevel.
    + destruct Hstep as (out & Hout & ->). rewrite collected_add in Hcol.
      destruct (decide (key_last item.1 = dst)) as [Hd|Hd].
      * rewrite decide_True by done. exists (out :: outs).
        split; [by constructor|].
        rewrite decide_True in Hcol by done. by rewrite <- app_assoc in Hcol.
      * rewrite decide_False by tauto. exists outs. split; [done|].
        rewrite decide_False in Hcol by done. by rewrite app_nil_r in Hcol.
    + subst od1. rewrite decide_False by (intros [_ [=]]). eauto.
Qed.

(** *** Grouping *)

Lemma group_grouping (xs : list T) aggr g :
  xs ≠ [] →
  group xs aggr = Ok g ↔ ∃ t, g = Some t ∧ grouping aggr xs = Ok t.
Proof.
  intros Hne. unfold group, grouping, named_reduction.
  destruct xs as [|x xs]; [done|]. simpl length.
  destruct aggr as [name|]; simpl.
  - destruct xs as [|y xs]; simpl.
    + split; [intros [= <-]; eauto | by intros (t & -> & [= <-])].
    + destruct (String.eqb name "cat").
      * rewrite fmap_Ok. split; [intros (t & ? & ->); eauto|].
        intros (t & -> & ?); eauto.
      * destruct (paddle_stack (x :: y :: xs) 0) as [s|e]; simpl;
          [|split; [done | by intros (? & _ & [=])]].
        destruct (paddle_getattr name) as [f|]; simpl;
          [|split; [done | by intros (? & _ & [=])]].
        destruct (f s 0%Z) as [r|e]; simpl;
          [|split; [done | by intros (? & _ & [=])]].
        rewrite fmap_Ok. split; [intros (t & ? & ->); eauto|].
        intros (t & -> & ?); eauto.
  - rewrite fmap_Ok. split; [intros (t & ? & ->); eauto|].
    intros (t & -> & ?); eauto.
Qed.

Lemma group_loop_Ok aggr out_dict acc out :
  for_each (group_step aggr) out_dict acc = Ok out →
  ∃ grouped, out = acc ++ grouped
    ∧ Forall2 (λ kv kg, kg.1 = kv.1 ∧ group kv.2 aggr = Ok kg.2)
              out_dict grouped.
Proof.
  revert acc. induction out_dict as [|kv rest IH]; intros acc; simpl.
  - intros [= <-]. exists []. split; [by rewrite app_nil_r | constructor].
  - intros Hloop. bind_inv Hloop. unfold group_step in Hstep.
    bind_inv Hstep. injection Hstep as <-. rename a0 into g.
    destruct (IH _ Hloop) as (grouped & -> & Hall).
    exists ((kv.1, g) :: grouped). split; [by rewrite <- app_assoc|].
    by constructor.
Qed.

(** C1.  Whenever [forward] returns a dictionary, its keys are distinct; a
    node type is a key exactly when it is the destination of a registered
    edge type whose convolution received an edge-level argument; and the
    value under a key is the grouping, according to [aggr], of the outputs
    of the convolutions of those edge types, in registration order. *)
Theorem forward_spec (self : HeteroConv T V) args_dict kwargs_dict out :
  forward self args_dict kwargs_dict = Ok out →
  NoDup out.*1
  ∧ ∀ dst,
      (dst ∈ out.*1 ↔
         ∃ item, item ∈ convs self ∧ key_last item.1 = dst
                 ∧ edge_level item.1 args_dict kwargs_dict = true)
      ∧ ∀ value, (dst, value) ∈ out →
          ∃ outs t,
            Forall2 (λ item o, conv_output args_dict kwargs_dict item = Ok o)
                    (targeting dst args_dict kwargs_dict (convs self)) outs
            ∧ value = Some t
            ∧ grouping (aggr self) outs = Ok t.
Proof.
  unfold forward. intros Hfwd. bind_inv Hfwd. rename a into od.
  assert (out_dict_wf ([] : list (NodeType * list T))) as Hwf0.
  { split; [apply NoDup_nil_2 | constructor]. }
  destruct (forward_loop_Ok _ _ _ _ _ Hstep Hwf0) as [Hwf Hcol].
  destruct (group_loop_Ok _ _ _ _ Hfwd) as (grouped & -> & Hall).
  rewrite app_nil_l.
  assert (grouped.*1 = od.*1) as Hkeys.
  { clear -Hall.
    induction Hall as [|kv kg ?? [Hk _] _ IH]; simpl; by f_equal. }
  split; [rewrite Hkeys; apply Hwf|]. intros dst.
  destruct (Hcol dst) as (outs & Houts & Hc). simpl in Hc.
  split.
  - rewrite Hkeys, (collected_nonempty _ _ Hwf), Hc.
    split.
    + intros Hne. destruct outs as [|o outs]; [done|].
      inversion Houts as [|item ? rest ? _ _ Heq]; subst.
      assert (item ∈ targeting dst args_dict kwargs_dict (convs self)) as Hin.
      { rewrite <- Heq. apply list_elem_of_here. }
      apply list_elem_of_filter in Hin as [[Hd Hl] Hin]. eauto.
    + intros (item & Hin & Hd & Hl) ->.
      apply Forall2_nil_inv_r in Houts.
      assert (item ∈ targeting dst args_dict kwargs_dict (convs self)) as Hin'.
      { apply list_elem_of_filter. eauto. }
      rewrite Houts in Hin'. by apply elem_of_nil in Hin'.
  - intros value Hin.
    apply list_elem_of_lookup in Hin as [i Hi].
    destruct (Forall2_lookup_r _ _ _ _ _ Hall Hi) as ([k xs] & Hkv & Hk & Hg).
    simpl in *. subst k.
    assert (collected dst od = xs) as Hxs.
    { apply collected_lookup; [apply Hwf|]. apply list_elem_of_lookup. eauto. }
    assert (xs ≠ []) as Hne.
    { destruct Hwf as [_ Hne].
      apply (proj1 (Forall_forall _ _) Hne (dst, xs)).
      apply list_elem_of_lookup. eauto. }
    apply group_grouping in Hg as (t & Hv & Hg); [|done].
    exists outs, t. rewrite Hc in Hxs. subst xs. done.
Qed.

End forward.

(** ** [construct_bipartite_edge_index] *)

Section construct.
Import hetero.
Context {A : Type}.
Implicit Types (h k : heap A) (l : loc) (o : obj A).
Implicit Types edge_index_dict : gmap EdgeType loc.
Implicit Types dst_offset_dict : gmap NodeType Z.
Implicit Types src_offset_dict : list (EdgeType * Z).
Implicit Types edge_attr_dict : option attr_dict.
Implicit Types st : bool * list loc * list loc.

(** *** Running the primitives *)

Lemma bind_run {X Y} (m : M A X) (f : X → M A Y) h p :
  m h = p →
  (m ≫= f) h
  = match p.1 with Ok x => f x p.2 | Raise e => (Raise e, p.2) end.
Proof. intros <-. unfold mbind, M_bind. by destruct (m h) as [[] ?]. Qed.

Lemma read_run h l o : h !! l = Some o → read l h = (Ok o, h).
Proof. intros Hl. unfold read. by rewrite Hl. Qed.

Lemma insert_fresh h o o' : <[length h := o']> (h ++ [o]) = h ++ [o'].
Proof.
  rewrite insert_app_r_alt by done. by rewrite Nat.sub_diag.
Qed.

Lemma lookup_fresh h o : (h ++ [o]) !! length h = Some o.
Proof. rewrite lookup_app_r by done. by rewrite Nat.sub_diag. Qed.

(** Cloning a dense edge index and adding the two offsets in place leaves
    the store extended by the offset copy. *)
Lemma clone_offset_run h l cols src_offset dst_offset :
  h !! l = Some (Dense cols) →
  (edge_index ← clone l;
   _ ← iadd_row edge_index 0 src_offset;
   _ ← iadd_row edge_index 1 dst_offset;
   mret edge_index) h
  = (Ok (length h), h ++ [Dense (offset_index add64 src_offset dst_offset cols)]).
Proof.
  intros Hl. unfold clone, iadd_row, mbind, M_bind, mret, M_ret, alloc, write.
  rewrite (read_run _ _ _ Hl).
  rewrite (read_run _ _ _ (lookup_fresh h _)). rewrite insert_fresh.
  rewrite (read_run _ _ _ (lookup_fresh h _)). rewrite insert_fresh.
  do 4 f_equal. unfold offset_index. by rewrite <- list_fmap_compose.
Qed.

Lemma dense_at_Some h l cols :
  dense_at h l = Some cols ↔ h !! l = Some (Dense cols).
Proof.
  unfold dense_at. destruct (h !! l) as [[]|]; split; congruence.
Qed.

Lemma attr_at_Some h l rows :
  attr_at h l = Some rows ↔ h !! l = Some (Attr rows).
Proof.
  unfold attr_at. destruct (h !! l) as [[]|]; split; congruence.
Qed.

Lemma holds_dense_lookup h edge_index_dict edge_type l :
  holds_dense h edge_index_dict = true →
  edge_index_dict !! edge_type = Some l →
  ∃ cols, h !! l = Some (Dense cols).
Proof.
  unfold holds_dense. rewrite forallb_forall. intros Hall Hl.
  apply elem_of_map_to_list, list_elem_of_In, Hall in Hl.
  apply bool_decide_eq_true in Hl as [cols Hl]. exists cols.
  by apply dense_at_Some.
Qed.

Lemma holds_attrs_lookup h d edge_type la :
  holds_attrs h (Some d) = true →
  attr_getitem d edge_type = Ok la →
  ∃ rows, h !! la = Some (Attr rows).
Proof.
  unfold holds_attrs, attr_getitem, getitem. rewrite forallb_forall.
  intros Hall Hl.
  assert (la ∈ attr_locs d) as Hin.
  { destruct d as [d|d]; simpl in *.
    - destruct (d !! edge_type) as [l|] eqn:Hd; [|done].
      injection Hl as ->. apply list_elem_of_fmap. exists (edge_type, la).
      split; [done | by apply elem_of_map_to_list].
    - destruct (d !! join2 edge_type) as [l|] eqn:Hd; [|done].
      injection Hl as ->. apply list_elem_of_fmap.
      exists (join2 edge_type, la).
      split; [done | by apply elem_of_map_to_list]. }
  apply list_elem_of_In, Hall in Hin.
  apply bool_decide_eq_true in Hin as [rows Hin]. exists rows.
  by apply attr_at_Some.
Qed.

Lemma length_offset_index src_offset dst_offset (cols : list (Z * Z)) :
  length (offset_index add64 src_offset dst_offset cols) = length cols.
Proof. apply length_fmap. Qed.

(** *** One turn of the loop *)

Lemma construct_step_run h0 h edge_index_dict dst_offset_dict edge_attr_dict
    st item :
  holds_dense h0 edge_index_dict = true →
  holds_attrs h0 edge_attr_dict = true →
  h0 `prefix_of` h →
  ∃ r h',
    construct_step edge_index_dict dst_offset_dict edge_attr_dict st item h
      = (r, h')
    ∧ h `prefix_of` h'
    ∧ match r with
      | Ok st' =>
        ∃ le cols,
          shifted add64 h0 edge_index_dict dst_offset_dict item = Some cols
          ∧ st'.1.1 = false
          ∧ st'.1.2 = st.1.2 ++ [le]
          ∧ dense_at h' le = Some cols
          ∧ match edge_attr_dict with
            | None => st'.2 = st.2
            | Some d =>
              ∃ la rows,
                attr_part h0 edge_index_dict d item = Some rows
                ∧ st'.2 = st.2 ++ [la]
                ∧ attr_at h' la = Some rows
            end
      | Raise e =>
        shifted add64 h0 edge_index_dict dst_offset_dict item = None
        ∨ ∃ d, edge_attr_dict = Some d
               ∧ attr_part h0 edge_index_dict d item = None
      end.
Proof.
  intros Hd Ha Hpre. destruct st as [[b eis] eas], item as [et off].
  unfold construct_step, shifted, attr_part. simpl.
  unfold mbind at 1, M_bind at 1, lift at 1, getitem at 1.
  destruct (edge_index_dict !! et) as [l|] eqn:Hl; simpl;
    [|eexists _, _; split_and!; [done..|by left]].
  destruct (holds_dense_lookup _ _ _ _ Hd Hl) as [cols Hcols].
  rewrite (proj2 (dense_at_Some _ _ _) Hcols). simpl.
  pose proof (prefix_lookup_Some _ _ _ _ Hcols Hpre) as Hcols'.
  unfold mbind at 1, M_bind at 1, lift at 1, getitem at 1.
  destruct (dst_offset_dict !! key_last et) as [d|] eqn:Hdst; simpl;
    [|eexists _, _; split_and!; [done..|by left]].
  unfold mbind at 1, M_bind at 1. rewrite (read_run _ _ _ Hcols').
  pose proof (clone_offset_run h l cols off d Hcols') as Hrun.
  unfold mbind, M_bind, mret, M_ret in Hrun |- *.
  destruct (clone l h) as [[le|e] h1] eqn:Hclone;
    [|unfold clone, mbind, M_bind in Hclone;
      rewrite (read_run _ _ _ Hcols') in Hclone; discriminate].
  destruct (iadd_row le 0 off h1) as [[[]|e] h2] eqn:Hadd0; [|discriminate].
  destruct (iadd_row le 1 d h2) as [[[]|e] h3] eqn:Hadd1; [|discriminate].
  injection Hrun as -> ->.
  assert (h `prefix_of` h ++ [Dense (offset_index add64 off d cols)]) as Hpre1
    by apply prefix_app_r, reflexivity.
  assert (dense_at (h ++ [Dense (offset_index add64 off d cols)]) (length h)
          = Some (offset_index add64 off d cols)) as Hnew.
  { apply dense_at_Some, lookup_fresh. }
  destruct edge_attr_dict as [ad|].
  2:{ eexists _, _. split_and!; [done..|]. simpl. eauto 10. }
  unfold lift at 1.
  destruct (attr_getitem ad et) as [la|e] eqn:Hla; simpl;
    [|eexists _, _; split_and!; [done..|]; right; exists ad; split; [done|];
      by rewrite Hla].
  destruct (holds_attrs_lookup _ _ _ _ Ha Hla) as [rows Hrows].
  rewrite (proj2 (attr_at_Some _ _ _) Hrows). simpl.
  pose proof (prefix_lookup_Some _ _ _ _ Hrows Hpre) as Hrows1.
  pose proof (prefix_lookup_Some _ _ _ _ Hrows1 Hpre1) as Hrows2.
  rewrite (read_run _ _ _ Hrows2). simpl.
  rewrite (read_run _ _ _ (lookup_fresh h _)). simpl.
  rewrite !length_offset_index.
  destruct (length rows =? length cols)%nat eqn:Hlen; simpl.
  - eexists _, _. split_and!; [done..|]. simpl.
    exists (length h), (offset_index add64 off d cols). split_and!; try done.
    exists la, rows. split_and!; try done. by apply attr_at_Some.
  - destruct (expand_rows rows (length cols)) as [rows'|e] eqn:Hexp; simpl.
    + unfold alloc. eexists _, _. split_and!; [done| |].
      { etrans; [done|]. by apply prefix_app_r. }
      simpl.
      exists (length h), (offset_index add64 off d cols). split_and!; try done.
      { apply dense_at_Some. apply lookup_app_l_Some, lookup_fresh. }
      eexists _, rows'. split_and!; try done.
      apply attr_at_Some, lookup_fresh.
    + eexists _, _. split_and!; [done..|]. right.
      exists ad. split; [done|]. rewrite Hla. simpl.
      rewrite (proj2 (attr_at_Some _ _ _) Hrows). simpl.
      by rewrite Hlen, Hexp.
Qed.

(** *** The whole loop *)

Lemma mapM_cons_None {X Y} (f : X → option Y) x xs :
  mapM f xs = None → mapM f (x :: xs) = None.
Proof. intros Hxs. simpl. rewrite Hxs. by destruct (f x). Qed.

Lemma construct_loop_run h0 edge_index_dict dst_offset_dict edge_attr_dict
    src_offset_dict :
  holds_dense h0 edge_index_dict = true →
  holds_attrs h0 edge_attr_dict = true →
  ∀ st h, h0 `prefix_of` h → st.1.1 = false →
  ∃ r h',
    forM (construct_step edge_index_dict dst_offset_dict edge_attr_dict)
         src_offset_dict st h = (r, h')
    ∧ h `prefix_of` h'
    ∧ match r with
      | Ok st' =>
        ∃ les parts,
          mapM (shifted add64 h0 edge_index_dict dst_offset_dict) src_offset_dict
            = Some parts
          ∧ st'.1.1 = false
          ∧ st'.1.2 = st.1.2 ++ les
          ∧ Forall2 (λ le cols, dense_at h' le = Some cols) les parts
          ∧ match edge_attr_dict with
            | None => st'.2 = st.2
            | Some d =>
              ∃ las aparts,
                mapM (attr_part h0 edge_index_dict d) src_offset_dict
                  = Some aparts
                ∧ st'.2 = st.2 ++ las
                ∧ Forall2 (λ la rows, attr_at h' la = Some rows) las aparts
            end
      | Raise e =>
        mapM (shifted add64 h0 edge_index_dict dst_offset_dict) src_offset_dict
          = None
        ∨ ∃ d, edge_attr_dict = Some d
               ∧ mapM (attr_part h0 edge_index_dict d) src_offset_dict = None
      end.
Proof.
  intros Hd Ha.
  induction src_offset_dict as [|item items IH]; intros st h Hpre Hflag.
  - exists (Ok st), h. split_and!; [done..|].
    exists [], []. rewrite app_nil_r. split_and!; try done.
    destruct edge_attr_dict; [|done].
    exists [], []. rewrite app_nil_r. done.
  - destruct (construct_step_run h0 h _ dst_offset_dict _ st item Hd Ha Hpre)
      as (r1 & h1 & Hrun1 & Hpre1 & Hpost1).
    simpl forM. rewrite (bind_run _ _ _ _ Hrun1). simpl.
    destruct r1 as [st1|e].
    2:{ exists (Raise e), h1. split_and!; [done..|].
        destruct Hpost1 as [Hs|(d & -> & Ha1)].
        - left. simpl. by rewrite Hs.
        - right. exists d. split; [done|]. simpl. by rewrite Ha1. }
    destruct Hpost1 as (le & cols & Hs & Hflag1 & Heis & Hle & Hattr).
    destruct (IH st1 h1 ltac:(by etrans) Hflag1)
      as (r & h' & Hrun & Hpre' & Hpost).
    exists r, h'. split_and!; [done | by etrans |].
    destruct r as [st'|e].
    2:{ destruct Hpost as [Hs'|(d & -> & Ha')].
        - left. by apply mapM_cons_None.
        - right. exists d. split; [done|]. by apply mapM_cons_None. }
    destruct Hpost as (les & parts & Hparts & Hflag' & Heis' & Hles & Hattr').
    exists (le :: les), (cols :: parts). split_and!.
    + simpl. by rewrite Hs, Hparts.
    + done.
    + rewrite Heis', Heis. by rewrite <- app_assoc.
    + constructor; [|done].
      apply dense_at_Some. apply dense_at_Some in Hle.
      by apply (prefix_lookup_Some _ _ _ _ Hle).
    + destruct edge_attr_dict as [d|]; [|congruence].
      destruct Hattr as (la & rows & Ha1 & Heas & Hla).
      destruct Hattr' as (las & aparts & Haparts & Heas' & Hlas).
      exists (la :: las), (rows :: aparts). split_and!.
      * simpl. by rewrite Ha1, Haparts.
      * rewrite Heas', Heas. by rewrite <- app_assoc.
      * constructor; [|done].
        apply attr_at_Some. apply attr_at_Some in Hla.
        by apply (prefix_lookup_Some _ _ _ _ Hla).
Qed.

(** Reading back the collected tensors. *)
Lemma read_dense_run h les parts acc :
  Forall2 (λ le cols, dense_at h le = Some cols) les parts →
  forM (λ acc l, o ← read l; c ← lift (as_dense o); mret (acc ++ [c]))
       les acc h = (Ok (acc ++ parts), h).
Proof.
  intros Hall. revert acc.
  induction Hall as [|le cols les parts Hle _ IH]; intros acc; simpl.
  - by rewrite app_nil_r.
  - apply dense_at_Some in Hle.
    unfold mbind at 1, M_bind at 1. unfold mbind at 1, M_bind at 1.
    rewrite (read_run _ _ _ Hle). simpl.
    rewrite IH. by rewrite <- app_assoc.
Qed.

Lemma read_attr_run h las aparts acc :
  Forall2 (λ la rows, attr_at h la = Some rows) las aparts →
  forM (λ acc l, o ← read l; c ← lift (as_attr o); mret (acc ++ [c]))
       las acc h = (Ok (acc ++ aparts), h).
Proof.
  intros Hall. revert acc.
  induction Hall as [|la rows las aparts Hla _ IH]; intros acc; simpl.
  - by rewrite app_nil_r.
  - apply attr_at_Some in Hla.
    unfold mbind at 1, M_bind at 1. unfold mbind at 1, M_bind at 1.
    rewrite (read_run _ _ _ Hla). simpl.
    rewrite IH. by rewrite <- app_assoc.
Qed.

Lemma concat_axis1_run h les parts :
  Forall2 (λ le cols, dense_at h le = Some cols) les parts →
  concat_axis1 les h
  = match parts with
    | [] => (Raise ValueError, h)
    | _ => (Ok (length h), h ++ [Dense (concat parts)])
    end.
Proof.
  intros Hles. unfold concat_axis1.
  rewrite (bind_run _ _ _ _ (read_dense_run _ _ _ [] Hles)). simpl.
  by destruct parts.
Qed.

Lemma concat_axis0_run h las aparts :
  Forall2 (λ la rows, attr_at h la = Some rows) las aparts →
  concat_axis0 las h
  = match concat_rows aparts with
    | Ok rows => (Ok (length h), h ++ [Attr rows])
    | Raise e => (Raise e, h)
    end.
Proof.
  intros Hlas. unfold concat_axis0.
  rewrite (bind_run _ _ _ _ (read_attr_run _ _ _ [] Hlas)). simpl.
  unfold mbind, M_bind, lift. by destruct (concat_rows aparts).
Qed.

(** Within the range of int64 the wrapped sum is the sum. *)
Lemma wrap64_in_range z : in_int64 z = true → wrap64 z = z.
Proof.
  unfold in_int64, wrap64.
  rewrite andb_true_iff, Z.leb_le, Z.ltb_lt. intros [Hlo Hhi].
  rewrite Z.mod_small; lia.
Qed.

Lemma spec_edge_index_in_range h edge_index_dict src_offset_dict
    dst_offset_dict :
  sums_in_range h edge_index_dict src_offset_dict dst_offset_dict = true →
  spec_edge_index add64 h edge_index_dict src_offset_dict dst_offset_dict
  = spec_edge_index Z.add h edge_index_dict src_offset_dict dst_offset_dict.
Proof.
  unfold sums_in_range, spec_edge_index. intros Hrange.
  assert (mapM (shifted add64 h edge_index_dict dst_offset_dict)
               src_offset_dict
          = mapM (shifted Z.add h edge_index_dict dst_offset_dict)
                 src_offset_dict) as ->; [|done].
  induction src_offset_dict as [|item items IH]; [done|].
  simpl in Hrange. apply andb_true_iff in Hrange as [Hitem Hitems].
  assert (shifted add64 h edge_index_dict dst_offset_dict item
          = shifted Z.add h edge_index_dict dst_offset_dict item) as Heq.
  2:{ change (mapM ?f (item :: items))
        with (y ← f item; k ← mapM f items; mret (y :: k)).
      by rewrite Heq, (IH Hitems). }
  clear IH Hitems. unfold shifted in *.
  destruct (edge_index_dict !! item.1) as [l|]; [|done]. simpl in *.
  destruct (dense_at h l) as [cols|]; [|done]. simpl in *.
  destruct (dst_offset_dict !! key_last item.1) as [d|]; [|done].
  simpl in *. f_equal. unfold offset_index in *.
  rewrite forallb_forall in Hitem.
  apply list_fmap_ext. intros i c Hc.
  assert (In (c.1 + item.2, c.2 + d)%Z
             ((λ c, (c.1 + item.2, c.2 + d)%Z) <$> cols)) as Hin.
  { apply list_elem_of_In, list_elem_of_fmap. exists c.
    split; [done | by eapply list_elem_of_lookup_2]. }
  apply Hitem, andb_true_iff in Hin as [H1 H2]. simpl in H1, H2.
  unfold add64. by rewrite !wrap64_in_range.
Qed.

(** C3.  On dense edge indices, [construct_bipartite_edge_index] returns
    exactly when the concatenations below are defined, and then returns
    them: the edge index is the column-wise concatenation, in the iteration
    order of [src_offset_dict], of every type's edge index with its first
    row increased by the type's source offset and its second row by the
    offset of its destination type; the attributes, when given, are the
    row-wise concatenation of the per-type attribute tensors, each expanded
    to its type's edge count when its first dimension differs.  The rows
    are increased as the int64 numbers they are; where no sum leaves the
    range of int64, the entries returned are the sums of the integers. *)
Theorem construct_bipartite_edge_index_spec h edge_index_dict
    src_offset_dict dst_offset_dict edge_attr_dict num_nodes :
  holds_dense h edge_index_dict = true →
  holds_attrs h edge_attr_dict = true →
  match construct_bipartite_edge_index edge_index_dict src_offset_dict
          dst_offset_dict edge_attr_dict num_nodes h with
  | (Ok (l, la), h') =>
    ∃ edge_index edge_attr,
      spec_edge_index add64 h edge_index_dict src_offset_dict
        dst_offset_dict = Some edge_index
      ∧ (sums_in_range h edge_index_dict src_offset_dict dst_offset_dict
         = true →
         spec_edge_index Z.add h edge_index_dict src_offset_dict
           dst_offset_dict = Some edge_index)
      ∧ spec_edge_attr h edge_index_dict src_offset_dict edge_attr_dict
        = Some edge_attr
      ∧ dense_at h' l = Some edge_index
      ∧ returned_attr h' la = Some edge_attr
  | (Raise _, _) =>
    spec_edge_index add64 h edge_index_dict src_offset_dict dst_offset_dict
    = None
    ∨ spec_edge_attr h edge_index_dict src_offset_dict edge_attr_dict = None
  end.
Proof.
  intros Hd Ha.
  assert (∀ ei,
            spec_edge_index add64 h edge_index_dict src_offset_dict
              dst_offset_dict = Some ei →
            sums_in_range h edge_index_dict src_offset_dict dst_offset_dict
            = true →
            spec_edge_index Z.add h edge_index_dict src_offset_dict
              dst_offset_dict = Some ei) as Hplain.
  { intros ei <- Hrange. symmetry. by apply spec_edge_index_in_range. }
  set (plain := spec_edge_index Z.add h edge_index_dict src_offset_dict
                  dst_offset_dict) in *.
  unfold construct_bipartite_edge_index.
  destruct (construct_loop_run h _ dst_offset_dict _ src_offset_dict Hd Ha
              (false, [], []) h ltac:(done) ltac:(done))
    as (r & h1 & Hrun & Hpre & Hpost).
  rewrite (bind_run _ _ _ _ Hrun). simpl.
  unfold spec_edge_index in Hplain |- *. unfold spec_edge_attr.
  destruct r as [[[b eis] eas]|e].
  2:{ destruct Hpost as [->|(d & -> & ->)]; [by left | by right]. }
  destruct Hpost as (les & parts & Hparts & Hb & Heis & Hles & Hattr).
  simpl in Hb, Heis. subst b eis. rewrite Hparts in Hplain |- *. simpl.
  rewrite (bind_run _ _ _ _ (concat_axis1_run _ _ _ Hles)).
  destruct parts as [|p parts]; simpl; [by left|].
  set (ei := concat (p :: parts)) in *.
  specialize (Hplain ei eq_refl).
  assert (h1 `prefix_of` h1 ++ [Dense ei]) as Hpre1
    by apply prefix_app_r, reflexivity.
  destruct edge_attr_dict as [d|]; simpl.
  - destruct Hattr as (las & aparts & Haparts & Heas & Hlas).
    simpl in Heas. subst eas. rewrite Haparts. simpl.
    assert (Forall2 (λ la rows, attr_at (h1 ++ [Dense ei]) la = Some rows)
              las aparts) as Hlas1.
    { eapply Forall2_impl; [done|]. simpl. intros la rows Hla.
      apply attr_at_Some. apply attr_at_Some in Hla.
      by apply (prefix_lookup_Some _ _ _ _ Hla). }
    rewrite (bind_run _ _ _ _ (bind_run _ _ _ _
               (concat_axis0_run _ _ _ Hlas1))).
    destruct (concat_rows aparts) as [rows|e]; simpl; [|by right].
    exists ei, (Some rows). split_and!; try done.
    + apply dense_at_Some, lookup_app_l_Some, lookup_fresh.
    + simpl. rewrite (proj2 (attr_at_Some _ _ _) (lookup_fresh _ _)). done.
  - exists ei, None. split_and!; try done.
    apply dense_at_Some, lookup_fresh.
Qed.

(** *** The store outside the fresh objects *)

Lemma preserves_ret n {X} (x : X) (Q : X → Prop) :
  Q x → preserves n (mret x : M A X) Q.
Proof. intros HQ h Hn. split_and!; [done..|]. by intros ? [= <-]. Qed.

Lemma preserves_raise n {X} e (Q : X → Prop) : preserves n (raise e : M A X) Q.
Proof. intros h Hn. by split_and!. Qed.

Lemma preserves_lift n {X} (r : result X) (Q : X → Prop) :
  (∀ x, r = Ok x → Q x) → preserves n (lift r : M A X) Q.
Proof. intros HQ h Hn. by split_and!. Qed.

Lemma preserves_bind n {X Y} (m : M A X) (f : X → M A Y) Q R :
  preserves n m Q → (∀ x, Q x → preserves n (f x) R) →
  preserves n (m ≫= f) R.
Proof.
  intros Hm Hf h Hn. destruct (Hm h Hn) as (Htake & Hlen & HQ).
  unfold mbind, M_bind. destruct (m h) as [[x|e] h1]; simpl in *.
  - destruct (Hf x (HQ x eq_refl) h1 Hlen) as (Htake' & Hlen' & HR).
    split_and!; [congruence | done..].
  - by split_and!.
Qed.

Lemma preserves_weaken n {X} (m : M A X) (Q R : X → Prop) :
  preserves n m Q → (∀ x, Q x → R x) → preserves n m R.
Proof.
  intros Hm HQR h Hn. destruct (Hm h Hn) as (? & ? & HQ).
  split_and!; [done..|]. intros x Hx. by apply HQR, HQ.
Qed.

Lemma preserves_read n l : preserves n (read l : M A _) (λ _, True).
Proof.
  intros h Hn. unfold read. destruct (h !! l); simpl; split_and!; done.
Qed.

Lemma preserves_alloc n o : preserves n (alloc o) (λ l, n ≤ l).
Proof.
  intros h Hn. unfold alloc. simpl. split_and!.
  - by rewrite take_app_le.
  - rewrite length_app. lia.
  - by intros ? [= <-].
Qed.

Lemma preserves_write n l o : n ≤ l → preserves n (write l o) (λ _, True).
Proof.
  intros Hl h Hn. unfold write. simpl. split_and!; [|by rewrite length_insert|done].
  by rewrite take_insert_ge.
Qed.

Lemma preserves_forM n {X S} (body : S → X → M A S) xs s :
  (∀ s x, preserves n (body s x) (λ _, True)) →
  preserves n (forM body xs s) (λ _, True).
Proof.
  intros Hbody. revert s. induction xs as [|x xs IH]; intros s; simpl.
  - by apply preserves_ret.
  - eapply preserves_bind; [apply Hbody|]. intros s' _. apply IH.
Qed.

Lemma preserves_clone n l : preserves n (clone l : M A _) (λ l', n ≤ l').
Proof.
  eapply preserves_bind; [apply preserves_read|]. intros o _.
  apply preserves_alloc.
Qed.

Lemma preserves_iadd_row n l i offset :
  n ≤ l → preserves n (iadd_row l i offset : M A _) (λ _, True).
Proof.
  intros Hl. eapply preserves_bind; [apply preserves_read|]. intros o _.
  destruct o as [cols|rows|s]; try apply preserves_raise.
  destruct i as [|[|i]]; [by apply preserves_write.. | apply preserves_raise].
Qed.

(** One step of a frame proof: the first computation of a bind, whose
    result carries no information. *)
Ltac frame_lift :=
  eapply (preserves_bind _ _ _ (λ _, True));
  [by apply preserves_lift | intros ? _].
Ltac frame_read :=
  eapply (preserves_bind _ _ _ (λ _, True));
  [apply preserves_read | intros ? _].
Ltac frame_alloc :=
  eapply preserves_weaken; [apply preserves_alloc | done].

Lemma preserves_read_all n (X : Type) (as_x : obj A → result X) ls acc :
  preserves n
    (forM (λ acc l, o ← read l; c ← lift (as_x o); mret (acc ++ [c])) ls acc)
    (λ _, True).
Proof.
  apply preserves_forM. intros s l. frame_read. frame_lift.
  by apply preserves_ret.
Qed.

Lemma preserves_construct_step n edge_index_dict dst_offset_dict
    edge_attr_dict st item :
  preserves n
    (construct_step (A:=A) edge_index_dict dst_offset_dict edge_attr_dict
       st item)
    (λ _, True).
Proof.
  destruct st as [[b eis] eas], item as [et off]. unfold construct_step.
  frame_lift. frame_lift. frame_read.
  eapply (preserves_bind _ _ _ (λ l', n ≤ l')).
  { match goal with o : obj A |- _ => destruct o end;
      [apply preserves_clone.. | apply preserves_alloc]. }
  intros le Hle.
  eapply preserves_bind; [by apply preserves_iadd_row|]. intros _ _.
  eapply preserves_bind; [by apply preserves_iadd_row|]. intros _ _.
  destruct edge_attr_dict as [ad|]; [|by apply preserves_ret].
  frame_lift. frame_read. frame_lift. frame_read. frame_lift.
  eapply (preserves_bind _ _ _ (λ _, True)); [|intros; by apply preserves_ret].
  destruct (negb _); [|by apply preserves_ret].
  frame_lift. frame_alloc.
Qed.

Lemma preserves_construct n edge_index_dict src_offset_dict dst_offset_dict
    edge_attr_dict num_nodes :
  preserves n
    (construct_bipartite_edge_index (A:=A) edge_index_dict src_offset_dict
       dst_offset_dict edge_attr_dict num_nodes)
    (λ _, True).
Proof.
  unfold construct_bipartite_edge_index.
  eapply preserves_bind.
  { apply preserves_forM. intros. apply preserves_construct_step. }
  intros [[b eis] eas] _.
  eapply (preserves_bind _ _ _ (λ _, True)).
  { unfold concat_axis1.
    eapply (preserves_bind _ _ _ (λ _, True)); [apply preserves_read_all|].
    intros [|p parts] _; [apply preserves_raise | frame_alloc]. }
  intros edge_index _.
  eapply (preserves_bind _ _ _ (λ _, True)).
  { destruct edge_attr_dict; [|by apply preserves_ret].
    eapply (preserves_bind _ _ _ (λ _, True)); [|intros; by apply preserves_ret].
    unfold concat_axis0.
    eapply (preserves_bind _ _ _ (λ _, True)); [apply preserves_read_all|].
    intros parts _. frame_lift. frame_alloc. }
  intros edge_attr _. destruct b; [|by apply preserves_ret].
  frame_read. frame_lift.
  eapply (preserves_bind _ _ _ (λ _, True)); [|intros; by apply preserves_ret].
  frame_alloc.
Qed.

(** C10.  A call on dense edge indices, whether it returns or raises,
    leaves every object of the store it was started in as it was: the
    tensors of [edge_index_dict] and [edge_attr_dict] hold the same values
    afterwards.  The offsets are added to the clone made in the loop. *)
Theorem construct_bipartite_edge_index_frame h edge_index_dict
    src_offset_dict dst_offset_dict edge_attr_dict num_nodes :
  holds_dense h edge_index_dict = true →
  ∀ l o, h !! l = Some o →
    (construct_bipartite_edge_index edge_index_dict src_offset_dict
       dst_offset_dict edge_attr_dict num_nodes h).2 !! l = Some o.
Proof.
  intros _ l o Hl.
  destruct (preserves_construct (length h) edge_index_dict src_offset_dict
              dst_offset_dict edge_attr_dict num_nodes h (le_n _))
    as (Htake & _ & _).
  rewrite firstn_all in Htake.
  rewrite <- (take_drop (length h) (_.2)), Htake.
  by apply lookup_app_l_Some.
Qed.

End construct.

(** ** Conversion to CSC *)

Section csc.
Import sampler_utils.
Implicit Types (edges : list (nat * nat)) (perm row col colptr : list nat).

(** *** Gathering *)

Lemma gather_Ok {A} (xs : list A) idx r :
  gather xs idx = Ok r ↔ Forall2 (λ i x, xs !! i = Some x) idx r.
Proof.
  unfold gather. rewrite traverse_Ok_Forall2.
  split; intros Hall; (eapply Forall2_impl; [exact Hall|]);
    intros i x; unfold list_getitem; destruct (xs !! i); congruence.
Qed.

Lemma gather_seq {A} (xs : list A) : gather xs (seq 0 (length xs)) = Ok xs.
Proof.
  apply gather_Ok. apply Forall2_lookup. intros i.
  destruct (decide (i < length xs)) as [Hi|Hi].
  - rewrite lookup_seq_lt by done. simpl.
    destruct (lookup_lt_is_Some_2 xs i Hi) as [x Hx]. rewrite Hx.
    by constructor.
  - rewrite lookup_seq_ge by lia. rewrite lookup_ge_None_2 by lia.
    constructor.
Qed.

Lemma gather_Permutation {A} (xs : list A) idx idx' r :
  idx ≡ₚ idx' → gather xs idx = Ok r →
  ∃ r', gather xs idx' = Ok r' ∧ r ≡ₚ r'.
Proof.
  intros Hp. revert r. setoid_rewrite gather_Ok.
  induction Hp as [|i idx idx' _ IH|i j idx|idx1 idx2 idx3 _ IH1 _ IH2];
    intros r Hr.
  - exists r. done.
  - inversion Hr as [|? x ? r' Hx Hrest]; subst.
    destruct (IH _ Hrest) as (r'' & Hr'' & Hp'). exists (x :: r'').
    split; [by constructor | by constructor].
  - inversion Hr as [|? x ? r' Hx Hrest]; subst.
    inversion Hrest as [|? y ? r'' Hy Hrest']; subst.
    exists (y :: x :: r''). split; [by repeat constructor | constructor].
  - destruct (IH1 _ Hr) as (r2 & Hr2 & Hp2).
    destruct (IH2 _ Hr2) as (r3 & Hr3 & Hp3).
    exists r3. split; [done | by etrans].
Qed.

Lemma gather_fmap {A B} (f : A → B) (xs : list A) idx r :
  gather xs idx = Ok r → gather (f <$> xs) idx = Ok (f <$> r).
Proof.
  rewrite !gather_Ok. intros Hr. apply Forall2_fmap_r.
  eapply Forall2_impl; [done|]. simpl. intros i x Hx.
  by rewrite list_lookup_fmap, Hx.
Qed.

(** *** The stable sort of keyed positions *)

Section sort_keys.
Context {K : Type} (leb : K → K → bool) (R : relation K).
Context (leb_R : ∀ a b, leb a b = true → R a b).
Context (leb_total : ∀ a b, leb a b = false → R b a).
Context `{!Transitive R}.

Lemma insert_key_Permutation (x : K * nat) l : insert_key leb x l ≡ₚ x :: l.
Proof.
  induction l as [|y l IH]; simpl; [done|].
  destruct (leb x.1 y.1); [done|]. rewrite IH. constructor.
Qed.

Lemma insert_key_sorted (x : K * nat) l :
  StronglySorted (λ a b, R a.1 b.1) l →
  StronglySorted (λ a b, R a.1 b.1) (insert_key leb x l).
Proof.
  induction 1 as [|y l Hl IH Hy]; simpl; [by repeat constructor|].
  destruct (leb x.1 y.1) eqn:Hxy.
  - apply leb_R in Hxy. constructor; [by constructor|].
    constructor; [done|].
    eapply Forall_impl; [done|]. simpl. intros z Hz. by etrans.
  - apply leb_total in Hxy. constructor; [done|].
    rewrite insert_key_Permutation. by constructor.
Qed.

Lemma sort_keys_Permutation keys :
  sort_keys leb keys ≡ₚ zip keys (seq 0 (length keys)).
Proof.
  unfold sort_keys. induction (zip keys _) as [|x l IH]; simpl; [done|].
  by rewrite insert_key_Permutation, IH.
Qed.

Lemma sort_keys_sorted keys :
  StronglySorted (λ a b, R a.1 b.1) (sort_keys leb keys).
Proof.
  unfold sort_keys. induction (zip keys _) as [|x l IH]; simpl.
  - constructor.
  - by apply insert_key_sorted.
Qed.

End sort_keys.

Lemma zip_seq_lookup {K} (keys : list K) (start : nat) kv :
  kv ∈ zip keys (seq start (length keys)) →
  start ≤ kv.2 ∧ keys !! (kv.2 - start) = Some kv.1.
Proof.
  revert start. induction keys as [|k keys IH]; intros start; simpl.
  - by intros ?%elem_of_nil.
  - intros [->|Hin]%elem_of_cons; simpl.
    + by rewrite Nat.sub_diag.
    + destruct (IH _ Hin) as [Hle Hk]. split; [lia|].
      by replace (kv.2 - start) with (S (kv.2 - S start)) by lia.
Qed.

(** [index_sort] returns the sorted keys and a permutation of the
    positions that sorts them. *)
Lemma index_sort_spec col :
  let '(sorted, perm) := index_sort col in
  perm ≡ₚ seq 0 (length col)
  ∧ gather col perm = Ok sorted
  ∧ StronglySorted le sorted.
Proof.
  unfold index_sort.
  pose proof (sort_keys_Permutation Nat.leb col) as Hp.
  pose proof (sort_keys_sorted Nat.leb le
                (λ a b, proj1 (Nat.leb_le a b))
                (λ a b H, Nat.lt_le_incl _ _ (proj1 (Nat.leb_gt a b) H)) col)
    as Hs.
  split_and!.
  - rewrite Hp. rewrite snd_zip; [done|]. by rewrite length_seq.
  - apply gather_Ok. apply Forall2_fmap, Forall_Forall2_diag.
    apply Forall_forall. intros kv Hin. rewrite Hp in Hin.
    apply zip_seq_lookup in Hin as [_ Hk]. by rewrite Nat.sub_0_r in Hk.
  - by apply (StronglySorted_fmap fst (λ a b : nat * nat, a.1 ≤ b.1) le).
Qed.

(** *** The pointer array of sorted indices *)

Lemma Sorted_lt_seq start len : Sorted lt (seq start len).
Proof.
  revert start. induction len as [|len IH]; intros start; simpl.
  - constructor.
  - constructor; [apply IH|]. destruct len; simpl; constructor. lia.
Qed.

Lemma index2ptr_length index n : length (index2ptr index (Some n)) = n + 1.
Proof. unfold index2ptr. simpl. rewrite length_fmap, length_seq. lia. Qed.

Lemma index2ptr_lookup index n j :
  j ≤ n →
  index2ptr index (Some n) !! j = Some (length (filter (λ c, c < j) index)).
Proof.
  intros Hj. unfold index2ptr. simpl default.
  rewrite list_lookup_fmap, lookup_seq_lt by lia. done.
Qed.

Lemma filter_length_mono {A} (P Q : A → Prop)
    `{∀ x, Decision (P x), ∀ x, Decision (Q x)} (l : list A) :
  (∀ x, P x → Q x) → length (filter P l) ≤ length (filter Q l).
Proof.
  intros HPQ. induction l as [|x l IH]; simpl; [done|].
  rewrite !filter_cons.
  destruct (decide (P x)) as [HP|HP].
  - rewrite decide_True by auto. simpl. lia.
  - destruct (decide (Q x)); simpl; lia.
Qed.

Lemma filter_all {A} (P : A → Prop) `{∀ x, Decision (P x)} (l : list A) :
  Forall P l → filter P l = l.
Proof.
  induction 1 as [|x l HP _ IH]; [done|].
  rewrite filter_cons, decide_True by done. by rewrite IH.
Qed.

Lemma filter_none {A} (P : A → Prop) `{∀ x, Decision (P x)} (l : list A) :
  Forall (λ x, ¬ P x) l → filter P l = [].
Proof.
  induction 1 as [|x l HP _ IH]; [done|].
  rewrite filter_cons, decide_False by done. done.
Qed.

Lemma filter_snd_length edges (P : nat → Prop) `{∀ c, Decision (P c)} :
  length (filter P edges.*2) = length (filter (λ e, P e.2) edges).
Proof.
  induction edges as [|e edges IH]; [done|]. csimpl.
  rewrite !filter_cons. destruct (decide (P e.2)); simpl; by rewrite IH.
Qed.

(** A list sorted by destination splits, at any bound, into the edges
    below the bound followed by the others. *)
Lemma sorted_split edges j :
  StronglySorted (λ a b : nat * nat, a.2 ≤ b.2) edges →
  edges = filter (λ e, e.2 < j) edges ++ filter (λ e, j ≤ e.2) edges.
Proof.
  induction 1 as [|e edges Hs IH He]; [done|].
  rewrite !filter_cons. destruct (decide (e.2 < j)) as [Hlt|Hge].
  - rewrite decide_False by lia. simpl. by rewrite <- IH.
  - rewrite decide_True by lia.
    rewrite (filter_none (λ e, e.2 < j)), (filter_all (λ e, j ≤ e.2)).
    + done.
    + eapply Forall_impl; [done|]. simpl. lia.
    + eapply Forall_impl; [done|]. simpl. lia.
Qed.

Lemma sorted_filter {A} (R : relation A) (P : A → Prop)
    `{∀ x, Decision (P x)} (l : list A) :
  StronglySorted R l → StronglySorted R (filter P l).
Proof.
  induction 1 as [|x l Hs IH Hx]; [constructor|].
  rewrite filter_cons. destruct (decide (P x)); [|done].
  constructor; [done|]. apply Forall_forall.
  intros y [_ Hy]%list_elem_of_filter.
  by apply (proj1 (Forall_forall _ _) Hx).
Qed.

(** Between two consecutive pointers lie the edges into one node. *)
Lemma sorted_slice edges j :
  StronglySorted (λ a b : nat * nat, a.2 ≤ b.2) edges →
  let a := length (filter (λ e, e.2 < j) edges) in
  let b := length (filter (λ e, e.2 < S j) edges) in
  take (b - a) (drop a edges) = filter (λ e, e.2 = j) edges.
Proof.
  intros Hs a b.
  pose proof (sorted_split edges j Hs) as Hsplit.
  set (lo := filter (λ e, e.2 < j) edges) in *.
  set (hi := filter (λ e, j ≤ e.2) edges) in *.
  assert (drop a edges = hi) as ->.
  { rewrite Hsplit. unfold a. by rewrite drop_app_length. }
  assert (StronglySorted (λ a b : nat * nat, a.2 ≤ b.2) hi) as Hhi
    by by apply sorted_filter.
  pose proof (sorted_split hi (S j) Hhi) as Hsplit'.
  assert (b - a = length (filter (λ e, e.2 < S j) hi)) as ->.
  { unfold b. rewrite Hsplit at 1. rewrite filter_app, length_app.
    rewrite (filter_all (λ e, e.2 < S j) lo).
    - unfold a. lia.
    - apply Forall_forall. intros e [He _]%list_elem_of_filter. lia. }
  assert (∀ x y : list (nat * nat), hi = x ++ y → take (length x) hi = x)
    as Htake by (by intros x y ->; rewrite take_app_length).
  rewrite (Htake _ _ Hsplit').
  unfold hi. rewrite list_filter_filter.
  apply list_filter_iff. intros e. lia.
Qed.

(** C2.  For a graph given by a [2, E] edge index over [n] nodes, [to_csc]
    without a given order or time stamps returns [(colptr, row, perm)]
    where [perm] is a permutation of the edge positions along which the
    destinations are non-decreasing, [row] holds the sources along [perm],
    and [colptr] is a non-decreasing array of [n + 1] pointers from [0] to
    [E] such that, for every node [j], the entries of [row] from
    [colptr[j]] up to [colptr[j + 1]] are the sources of the edges into
    [j]. *)
Theorem to_csc_spec (data : Data) edges n :
  adj data = None → adj_t data = None →
  edge_index data = Some edges → num_nodes data = Some n →
  forallb (λ e, e.2 <? n) edges = true →
  ∃ colptr row perm col,
    to_csc data false None None = Ok (colptr, row, Some perm)
    ∧ perm ≡ₚ seq 0 (length edges)
    ∧ gather edges.*2 perm = Ok col ∧ Sorted le col
    ∧ gather edges.*1 perm = Ok row
    ∧ length colptr = n + 1
    ∧ colptr !! 0 = Some 0
    ∧ last colptr = Some (length edges)
    ∧ Sorted le colptr
    ∧ ∀ j, j < n →
        ∃ a b, colptr !! j = Some a ∧ colptr !! S j = Some b ∧ a ≤ b
               ∧ take (b - a) (drop a row)
                 ≡ₚ (filter (λ e, e.2 = j) edges).*1.
Proof.
  intros Hadj Hadj_t Hei Hn Hrange.
  unfold to_csc. rewrite Hadj, Hadj_t, Hei, Hn. simpl.
  pose proof (index_sort_spec edges.*2) as Hsort.
  destruct (index_sort edges.*2) as [col perm] eqn:Hisort.
  destruct Hsort as (Hperm & Hcol & Hsorted).
  rewrite length_fmap in Hperm.
  destruct (gather_Permutation edges _ _ _ (symmetry Hperm) (gather_seq edges))
    as (S & HS & HpS).
  pose proof (gather_fmap fst _ _ _ HS) as Hrow.
  pose proof (gather_fmap snd _ _ _ HS) as Hcol'.
  assert (col = S.*2) as -> by congruence.
  unfold index_sort in Hisort. injection Hisort as Hkeys Hpos.
  rewrite Hpos, Hrow. simpl. rewrite ?Hkeys, ?Hpos.
  assert (StronglySorted (λ a b : nat * nat, a.2 ≤ b.2) S) as HsS.
  { clear -Hsorted. induction S as [|e S IH]; [constructor|].
    csimpl in Hsorted. apply StronglySorted_inv in Hsorted as [Hs He].
    constructor; [by apply IH|]. by rewrite Forall_fmap in He. }
  assert (Forall (λ e, e.2 < n) S) as HrangeS.
  { rewrite <- HpS. apply Forall_forall. intros e He.
    rewrite forallb_forall in Hrange.
    apply list_elem_of_In, Hrange in He. by apply Nat.ltb_lt. }
  exists (index2ptr S.*2 (Some n)), S.*1, perm, S.*2.
  split_and!; try done.
  - by apply StronglySorted_Sorted.
  - apply index2ptr_length.
  - rewrite index2ptr_lookup by lia.
    rewrite (filter_none (λ c, c < 0)); [done|].
    apply Forall_forall. intros; lia.
  - rewrite last_lookup, index2ptr_length.
    replace (Init.Nat.pred (n + 1)) with n by lia.
    rewrite index2ptr_lookup by lia. f_equal.
    rewrite (filter_all (λ c, c < n)).
    + by rewrite length_fmap, <- HpS.
    + by rewrite Forall_fmap.
  - unfold index2ptr. simpl default.
    apply (Sorted_fmap _ lt le); [|apply Sorted_lt_seq].
    intros i j Hij. apply filter_length_mono. intros; lia.
  - intros j Hj.
    exists (length (filter (λ e, e.2 < j) S)),
           (length (filter (λ e, e.2 < Datatypes.S j) S)).
    split_and!.
    + rewrite index2ptr_lookup by lia. by rewrite filter_snd_length.
    + rewrite index2ptr_lookup by lia. by rewrite filter_snd_length.
    + apply filter_length_mono. intros; lia.
    + rewrite <- fmap_drop, <- fmap_take.
      rewrite (sorted_slice S j HsS). by rewrite <- HpS.
Qed.

End csc.

(** ** Rooted subgraphs *)

Section rooted.
Import rooted_subgraph.
Implicit Types (edges : list (nat * nat)) (n_mask e_mask : list (list bool)).

(** *** Matrices as lists of rows *)

Lemma cell_Some {A} (m : list (list A)) i j x :
  cell m i j = Some x ↔ ∃ row, m !! i = Some row ∧ row !! j = Some x.
Proof.
  unfold cell. destruct (m !! i) as [row|]; simpl.
  - split; [eauto | by intros (? & [= <-] & ?)].
  - split; [done | by intros (? & [=] & _)].
Qed.

Lemma square_spec {A} n (m : list (list A)) :
  square n m = true ↔ length m = n ∧ Forall (λ row, length row = n) m.
Proof.
  unfold square. rewrite andb_true_iff, Nat.eqb_eq, forallb_forall, Forall_forall.
  split; intros [Hl Hr]; (split; [done|]); intros row Hrow.
  - by apply Nat.eqb_eq, Hr, list_elem_of_In.
  - by apply Nat.eqb_eq, Hr, list_elem_of_In.
Qed.

Lemma square_cell {A} n (m : list (list A)) i j :
  square n m = true → i < n → j < n → is_Some (cell m i j).
Proof.
  intros [Hlen Hrows]%square_spec Hi Hj.
  destruct (lookup_lt_is_Some_2 m i ltac:(lia)) as [row Hrow].
  assert (length row = n) as Hr.
  { by apply (proj1 (Forall_forall _ _) Hrows), list_elem_of_lookup_2 with i. }
  destruct (lookup_lt_is_Some_2 row j ltac:(lia)) as [x Hx].
  exists x. apply cell_Some. eauto.
Qed.

Lemma square_cell_lt {A} n (m : list (list A)) i j x :
  square n m = true → cell m i j = Some x → i < n ∧ j < n.
Proof.
  intros [Hlen Hrows]%square_spec (row & Hrow & Hx)%cell_Some.
  assert (length row = n) as Hr.
  { by apply (proj1 (Forall_forall _ _) Hrows), list_elem_of_lookup_2 with i. }
  apply lookup_lt_Some in Hrow, Hx. lia.
Qed.

(** *** The true entries of a mask *)

Lemma true_columns_elem (row : list bool) v :
  v ∈ true_columns row ↔ row !! v = Some true.
Proof.
  unfold true_columns. rewrite list_elem_of_filter, elem_of_seq.
  split; [tauto|]. intros Hv. split; [done|].
  apply lookup_lt_Some in Hv. lia.
Qed.

Lemma marked_elem m b v : (b, v) ∈ marked m ↔ cell m b v = Some true.
Proof.
  unfold marked. rewrite list_elem_of_join, cell_Some. split.
  - intros (l & Hin & Hl). apply elem_of_lookup_imap in Hl as (i & row & -> & Hrow).
    apply list_elem_of_fmap in Hin as (v' & [= -> ->] & Hv).
    exists row. split; [done|]. by apply true_columns_elem.
  - intros (row & Hrow & Hv).
    exists ((λ v, (b, v)) <$> true_columns row). split.
    + apply list_elem_of_fmap. exists v. split; [done|].
      by apply true_columns_elem.
    + by apply (elem_of_lookup_imap_2
                  (λ b row, (λ v, (b, v)) <$> true_columns row)).
Qed.

Lemma nonzero_lookup m t b v :
  (nonzero m).1 !! t = Some b ∧ (nonzero m).2 !! t = Some v
  ↔ marked m !! t = Some (b, v).
Proof.
  unfold nonzero. simpl. rewrite !list_lookup_fmap.
  destruct (marked m !! t) as [[b' v']|]; simpl; split.
  - by intros [[= ->] [= ->]].
  - by intros [= -> ->].
  - by intros [[=] _].
  - done.
Qed.

Lemma marked_length_ge m :
  forallb (λ row, bool_decide (true ∈ row)) m = true →
  length m ≤ length (marked m).
Proof.
  unfold marked. intros Hrows.
  assert (∀ (f : nat → nat) (m : list (list bool)),
            forallb (λ row, bool_decide (true ∈ row)) m = true →
            length m
            ≤ length (mjoin (imap (λ b row, (λ v, (f b, v)) <$> true_columns row)
                                  m))) as Hgen.
  { clear. intros f m. revert f.
    induction m as [|row m IH]; intros f; simpl; [done|].
    intros [Hrow Hrest]%andb_true_iff.
    apply bool_decide_eq_true in Hrow.
    apply list_elem_of_lookup in Hrow as [v Hv].
    apply true_columns_elem in Hv.
    rewrite length_app, length_fmap.
    specialize (IH (f ∘ S) Hrest). simpl in IH.
    destruct (true_columns row); [by apply elem_of_nil in Hv|].
    simpl length. unfold compose in IH |- *. lia. }
  apply (Hgen id m Hrows).
Qed.

(** *** Gathering columns *)

Lemma gather_in_range {A} (xs : list A) idx :
  Forall (λ i, i < length xs) idx → ∃ r, gather xs idx = Ok r.
Proof.
  induction 1 as [|i idx Hi _ [r Hr]].
  - by exists [].
  - destruct (lookup_lt_is_Some_2 xs i Hi) as [x Hx]. exists (x :: r).
    apply gather_Ok. constructor; [done | by apply gather_Ok].
Qed.

Lemma gather_lookup {A} (xs : list A) idx r t :
  gather xs idx = Ok r → r !! t = idx !! t ≫= (xs !!.).
Proof.
  rewrite gather_Ok. intros Hall. revert t.
  induction Hall as [|i x idx r Hx _ IH]; intros [|t]; simpl; try done.
Qed.

Lemma gather_length {A} (xs : list A) idx r :
  gather xs idx = Ok r → length r = length idx.
Proof. rewrite gather_Ok. intros Hall. symmetry. by eapply Forall2_length. Qed.

Lemma columns_Ok {A} (m : list (list A)) idx n :
  Forall (λ row, length row = n) m → Forall (λ i, i < n) idx →
  ∃ r, columns m idx = Ok r
       ∧ ∀ b e, cell r b e = idx !! e ≫= cell m b.
Proof.
  intros Hrows Hidx. induction Hrows as [|row m Hrow _ (r & Hr & Hcell)].
  - exists []. split; [done|]. intros b e. unfold cell. simpl.
    by destruct (idx !! e).
  - destruct (gather_in_range row idx) as [g Hg].
    { eapply Forall_impl; [done|]. simpl. lia. }
    exists (g :: r). split; [simpl; by rewrite Hg, Hr|].
    intros [|b] e.
    + unfold cell. simpl. rewrite (gather_lookup _ _ _ _ Hg).
      by destruct (idx !! e).
    + change (cell (g :: r) (S b) e) with (cell r b e). rewrite Hcell.
      by destruct (idx !! e).
Qed.

Lemma mask_and_cell (a b : list (list bool)) i j :
  cell (mask_and a b) i j = Some true
  ↔ cell a i j = Some true ∧ cell b i j = Some true.
Proof.
  unfold mask_and. rewrite !cell_Some. split.
  - intros (row & (ra & rb & -> & Ha & Hb)%lookup_zip_with_Some
                & (x & y & Hxy & Hx & Hy)%lookup_zip_with_Some).
    symmetry in Hxy. apply andb_true_iff in Hxy as [-> ->].
    split; eauto.
  - intros [(ra & Ha & Hx) (rb & Hb & Hy)].
    exists (zip_with andb ra rb). split.
    + apply lookup_zip_with_Some. eauto.
    + apply lookup_zip_with_Some. exists true, true. eauto.
Qed.

(** *** Writing entries at index pairs *)

Lemma cell_insert {A} (m : list (list A)) b v a row i j :
  m !! b = Some row → v < length row →
  cell (<[b := <[v := a]> row]> m) i j
  = if decide (i = b ∧ j = v) then Some a else cell m i j.
Proof.
  intros Hrow Hv. unfold cell.
  destruct (decide (i = b)) as [->|Hib].
  - rewrite list_lookup_insert_eq by (by eapply lookup_lt_Some). simpl.
    destruct (decide (j = v)) as [->|Hjv].
    + rewrite list_lookup_insert_eq by done. by rewrite decide_True.
    + rewrite list_lookup_insert_ne by done. rewrite decide_False by tauto.
      by rewrite Hrow.
  - rewrite list_lookup_insert_ne by done. by rewrite decide_False by tauto.
Qed.

Lemma index_put_cell {A} (m m' : list (list A)) rows cols values :
  index_put m rows cols values = Ok m' →
  ∀ b v,
    (∃ t a, rows !! t = Some b ∧ cols !! t = Some v ∧ values !! t = Some a
            ∧ cell m' b v = Some a)
    ∨ ((∀ t, rows !! t = Some b → cols !! t ≠ Some v)
       ∧ cell m' b v = cell m b v).
Proof.
  revert m cols values.
  induction rows as [|b0 rows IH]; intros m [|v0 cols] [|a0 values];
    simpl; try done.
  - intros [= <-] b v. right. done.
  - intros Hput b v. unfold list_getitem in Hput.
    destruct (m !! b0) as [row|] eqn:Hrow; simpl in Hput; [|done].
    case_bool_decide as Hv0; [|done].
    destruct (IH _ _ _ Hput b v) as [(t & a & Hb & Hv & Ha & Hcell)|[Hno Hcell]].
    + left. exists (S t), a. done.
    + rewrite (cell_insert _ _ _ _ _ _ _ Hrow Hv0) in Hcell.
      destruct (decide (b = b0 ∧ v = v0)) as [[-> ->]|Hne].
      * left. exists 0, a0. done.
      * right. split; [|done]. intros [|t]; simpl; [|by apply Hno].
        intros [= ->] [= ->]. tauto.
Qed.

Lemma index_put_Ok {A} n (m : list (list A)) rows cols values :
  square n m = true →
  length rows = length cols → length cols = length values →
  Forall (λ b, b < n) rows → Forall (λ v, v < n) cols →
  ∃ m', index_put m rows cols values = Ok m' ∧ square n m' = true.
Proof.
  revert m cols values.
  induction rows as [|b0 rows IH]; intros m [|v0 cols] [|a0 values];
    simpl; try done.
  - intros Hsq _ _ _ _. by exists m.
  - intros Hsq [= Hl1] [= Hl2] [Hb0 Hrows]%Forall_cons [Hv0 Hcols]%Forall_cons.
    pose proof Hsq as [Hlen Hall]%square_spec.
    destruct (lookup_lt_is_Some_2 m b0 ltac:(lia)) as [row Hrow].
    assert (length row = n) as Hr.
    { by apply (proj1 (Forall_forall _ _) Hall), list_elem_of_lookup_2 with b0. }
    unfold list_getitem. rewrite Hrow. simpl.
    rewrite bool_decide_eq_true_2 by lia.
    apply IH; try done.
    apply square_spec. rewrite length_insert. split; [done|].
    apply Forall_insert; [done|]. by rewrite length_insert.
Qed.

(** *** [RootedSubgraph.map] *)

Lemma length_join_uniform {A} (m : list (list A)) k :
  Forall (λ row, length row = k) m → length (mjoin m) = length m * k.
Proof.
  induction 1 as [|row m Hrow _ IH]; simpl; [done|].
  rewrite length_app, Hrow, IH. lia.
Qed.

Lemma valid_edges_spec n edges :
  valid_edges n edges = true ↔ Forall (λ e, e.1 < n ∧ e.2 < n) edges.
Proof.
  unfold valid_edges. rewrite forallb_forall, Forall_forall. split.
  - intros Hall e He%list_elem_of_In. apply Hall in He.
    apply andb_true_iff in He as [?%Nat.ltb_lt ?%Nat.ltb_lt]. done.
  - intros Hall e He%list_elem_of_In. apply Hall in He as [? ?].
    apply andb_true_iff. by split; apply Nat.ltb_lt.
Qed.

Lemma square_replicate {A} n (x : A) :
  square n (replicate n (replicate n x)) = true.
Proof.
  apply square_spec. rewrite length_replicate. split; [done|].
  apply Forall_replicate. by rewrite length_replicate.
Qed.

Lemma marked_in_range n n_mask :
  square n n_mask = true →
  Forall (λ bv, bv.1 < n ∧ bv.2 < n) (marked n_mask).
Proof.
  intros Hsq. apply Forall_forall. intros [b v] Hin%marked_elem.
  by apply (square_cell_lt n n_mask b v true).
Qed.

Lemma map_run data edges n n_mask :
  edge_index data = Some edges → num_nodes data = Some n →
  square n n_mask = true → valid_edges n edges = true →
  forallb (λ row, bool_decide (true ∈ row)) n_mask = true →
  ∃ e_mask sub0 sub1,
    map data n_mask
    = Ok ((sub0, sub1), (marked n_mask).*2, (marked e_mask).*2,
          (marked n_mask).*1, (marked e_mask).*1)
    ∧ (∀ b e, cell e_mask b e = Some true ↔
         ∃ u w, edges !! e = Some (u, w)
                ∧ cell n_mask b u = Some true ∧ cell n_mask b w = Some true)
    ∧ (∀ t b e, marked e_mask !! t = Some (b, e) →
         ∃ u w s0 s1,
           edges !! e = Some (u, w)
           ∧ sub0 !! t = Some s0 ∧ sub1 !! t = Some s1
           ∧ marked n_mask !! s0 = Some (b, u)
           ∧ marked n_mask !! s1 = Some (b, w)).
Proof.
  intros Hei Hn Hsq Hvalid Hrows.
  pose proof Hsq as [Hlen Hall]%square_spec.
  pose proof (proj1 (valid_edges_spec _ _) Hvalid) as Hv.
  unfold map. rewrite Hei, Hn. simpl. unfold nonzero.
  (* the edge mask *)
  destruct (columns_Ok n_mask edges.*1 n Hall) as (m0 & Hm0 & Hcell0).
  { apply Forall_fmap. eapply Forall_impl; [done|]. simpl. tauto. }
  destruct (columns_Ok n_mask edges.*2 n Hall) as (m1 & Hm1 & Hcell1).
  { apply Forall_fmap. eapply Forall_impl; [done|]. simpl. tauto. }
  rewrite Hm0, Hm1. simpl.
  set (e_mask := mask_and m0 m1).
  assert (∀ b e, cell e_mask b e = Some true ↔
            ∃ u w, edges !! e = Some (u, w)
                   ∧ cell n_mask b u = Some true ∧ cell n_mask b w = Some true)
    as He_mask.
  { intros b e. unfold e_mask. rewrite mask_and_cell, Hcell0, Hcell1.
    rewrite !list_lookup_fmap. destruct (edges !! e) as [[u w]|]; simpl.
    - split; [intros [? ?]; eauto | by intros (? & ? & [= <- <-] & ? & ?)].
    - split; [by intros [[=] _] | by intros (? & ? & [=] & _)]. }
  assert (Forall (λ be, be.2 < length edges) (marked e_mask)) as He_range.
  { apply Forall_forall. intros [b e] Hin%marked_elem.
    apply He_mask in Hin as (u & w & He & _). by eapply lookup_lt_Some. }
  (* the selected edges *)
  destruct (gather_in_range edges.*1 (marked e_mask).*2) as [g0 Hg0].
  { apply Forall_fmap. eapply Forall_impl; [done|]. simpl. intros.
    by rewrite length_fmap. }
  destruct (gather_in_range edges.*2 (marked e_mask).*2) as [g1 Hg1].
  { apply Forall_fmap. eapply Forall_impl; [done|]. simpl. intros.
    by rewrite length_fmap. }
  rewrite Hg0, Hg1. simpl.
  (* the node map *)
  pose proof (marked_in_range n n_mask Hsq) as Hn_range.
  set (K := length (marked n_mask)).
  destruct (index_put_Ok n (replicate n (replicate n 1))
              (marked n_mask).*1 (marked n_mask).*2 (seq 0 (length (marked n_mask).*2)))
    as (nm & Hnm & Hnm_sq).
  { apply square_replicate. }
  { by rewrite !length_fmap. }
  { by rewrite length_seq. }
  { apply Forall_fmap. eapply Forall_impl; [done|]. simpl. tauto. }
  { apply Forall_fmap. eapply Forall_impl; [done|]. simpl. tauto. }
  rewrite Hnm. simpl.
  pose proof Hnm_sq as [Hnm_len Hnm_all]%square_spec.
  (* the offsets *)
  assert (n ≤ K) as HnK.
  { unfold K. rewrite <- Hlen. by apply marked_length_ge. }
  assert (Forall (λ be, be.1 < n) (marked e_mask)) as Hb_range.
  { apply Forall_forall. intros [b e] Hin%marked_elem.
    apply He_mask in Hin as (u & w & _ & Hu & _).
    by apply (square_cell_lt n n_mask b u true). }
  destruct (gather_in_range ((λ a, a * n) <$> seq 0 (length (marked n_mask).*2))
                            (marked e_mask).*1) as [off Hoff].
  { apply Forall_fmap. eapply Forall_impl; [done|]. simpl. intros.
    rewrite !length_fmap, length_seq. fold K. lia. }
  rewrite Hoff. simpl.
  (* the relabelled endpoints *)
  assert (∀ t b e, marked e_mask !! t = Some (b, e) →
            ∃ u w, edges !! e = Some (u, w)
                   ∧ cell n_mask b u = Some true ∧ cell n_mask b w = Some true
                   ∧ zip_with Nat.add g0 off !! t = Some (b * n + u)
                   ∧ zip_with Nat.add g1 off !! t = Some (b * n + w))
    as Hshift.
  { intros t b e Ht.
    assert ((b, e) ∈ marked e_mask) as Hin by by eapply list_elem_of_lookup_2.
    apply marked_elem, He_mask in Hin as (u & w & He & Hu & Hw).
    exists u, w. split_and!; try done.
    - rewrite lookup_zip_with, (gather_lookup _ _ _ _ Hg0),
        (gather_lookup _ _ _ _ Hoff), !list_lookup_fmap, Ht. simpl.
      rewrite !list_lookup_fmap, He. simpl.
      rewrite lookup_seq_lt; [simpl; f_equal; lia|].
      rewrite length_fmap. fold K.
      pose proof (square_cell_lt n n_mask b u true Hsq Hu). lia.
    - rewrite lookup_zip_with, (gather_lookup _ _ _ _ Hg1),
        (gather_lookup _ _ _ _ Hoff), !list_lookup_fmap, Ht. simpl.
      rewrite !list_lookup_fmap, He. simpl.
      rewrite lookup_seq_lt; [simpl; f_equal; lia|].
      rewrite length_fmap. fold K.
      pose proof (square_cell_lt n n_mask b u true Hsq Hu). lia. }
  assert (length (mjoin nm) = n * n) as Hflat.
  { by rewrite (length_join_uniform nm n Hnm_all), Hnm_len. }
  assert (∀ (g : list nat),
            (∀ t x, zip_with Nat.add g off !! t = Some x →
                    ∃ b e u, marked e_mask !! t = Some (b, e)
                             ∧ x = b * n + u ∧ b < n ∧ u < n) →
            Forall (λ i, i < length (mjoin nm)) (zip_with Nat.add g off))
    as Hflat_range.
  { intros g Hg. apply Forall_forall. intros x [t Hx]%list_elem_of_lookup.
    destruct (Hg _ _ Hx) as (b & e & u & _ & -> & Hb & Hu).
    rewrite Hflat. nia. }
  assert (∀ t x, zip_with Nat.add g0 off !! t = Some x ∨
                 zip_with Nat.add g1 off !! t = Some x →
            ∃ b e u, marked e_mask !! t = Some (b, e)
                     ∧ x = b * n + u ∧ b < n ∧ u < n) as Hidx.
  { intros t x Hx.
    assert (is_Some (marked e_mask !! t)) as [[b e] Ht].
    { apply lookup_lt_is_Some.
      destruct Hx as [Hx|Hx]; apply lookup_lt_Some in Hx;
        rewrite length_zip_with in Hx;
        rewrite (gather_length _ _ _ Hoff), length_fmap in Hx; lia. }
    destruct (Hshift _ _ _ Ht) as (u & w & He & Hu & Hw & H0 & H1).
    pose proof (square_cell_lt n n_mask b u true Hsq Hu).
    pose proof (square_cell_lt n n_mask b w true Hsq Hw).
    destruct Hx as [Hx|Hx].
    - rewrite H0 in Hx. injection Hx as <-.
      exists b, e, u. split_and!; [done | lia..].
    - rewrite H1 in Hx. injection Hx as <-.
      exists b, e, w. split_and!; [done | lia..]. }
  destruct (gather_in_range (mjoin nm) (zip_with Nat.add g0 off))
    as [sub0 Hsub0]; [apply Hflat_range; by eauto|].
  destruct (gather_in_range (mjoin nm) (zip_with Nat.add g1 off))
    as [sub1 Hsub1]; [apply Hflat_range; by eauto|].
  rewrite Hsub0, Hsub1. simpl.
  exists e_mask, sub0, sub1. split_and!; [done..|].
  intros t b e Ht.
  destruct (Hshift _ _ _ Ht) as (u & w & He & Hu & Hw & H0 & H1).
  pose proof (square_cell_lt n n_mask b u true Hsq Hu) as [Hb Hun].
  pose proof (square_cell_lt n n_mask b w true Hsq Hw) as [_ Hwn].
  assert (∀ v, cell n_mask b v = Some true → v < n →
            ∃ s, mjoin nm !! (b * n + v) = Some s
                 ∧ marked n_mask !! s = Some (b, v)) as Hrelabel.
  { intros v Hcell Hvn.
    destruct (index_put_cell _ _ _ _ _ Hnm b v)
      as [(s & a & Hsb & Hsv & Ha & Hcell')|[Hno _]].
    - apply lookup_seq in Ha as [-> _]. exists s. split.
      + apply (join_lookup_Some_same_length' n); [done..|].
        by apply cell_Some.
      + by apply nonzero_lookup.
    - exfalso. apply marked_elem, list_elem_of_lookup in Hcell as [s Hs].
      apply nonzero_lookup in Hs as [Hs1 Hs2]. by apply (Hno s). }
  destruct (Hrelabel u Hu Hun) as (s0 & Hs0 & Hm0').
  destruct (Hrelabel w Hw Hwn) as (s1 & Hs1 & Hm1').
  exists u, w, s0, s1. split_and!; try done.
  - rewrite (gather_lookup _ _ _ _ Hsub0), H0. done.
  - rewrite (gather_lookup _ _ _ _ Hsub1), H1. done.
Qed.

(** C5.  On a graph over [n] nodes and an [n] by [n] membership matrix in
    which every row marks a node, [map] returns
    [(sub_edge_index, n_id, e_id, n_sub_batch, e_sub_batch)] such that at
    every selected edge position [t], with [b = e_sub_batch[t]], both
    endpoints of the edge [e_id[t]] are marked in row [b], and the
    relabelled endpoints lead back, through [n_id], to the endpoints of that
    edge and, through [n_sub_batch], to [b]. *)
Theorem map_spec data edges n n_mask :
  edge_index data = Some edges → num_nodes data = Some n →
  square n n_mask = true → valid_edges n edges = true →
  forallb (λ row, bool_decide (true ∈ row)) n_mask = true →
  ∃ sub0 sub1 n_id e_id n_sub_batch e_sub_batch,
    map data n_mask = Ok ((sub0, sub1), n_id, e_id, n_sub_batch, e_sub_batch)
    ∧ length e_sub_batch = length e_id
    ∧ ∀ t b e, e_sub_batch !! t = Some b → e_id !! t = Some e →
        ∃ u w s0 s1,
          edges !! e = Some (u, w)
          ∧ cell n_mask b u = Some true ∧ cell n_mask b w = Some true
          ∧ sub0 !! t = Some s0 ∧ sub1 !! t = Some s1
          ∧ n_id !! s0 = Some u ∧ n_id !! s1 = Some w
          ∧ n_sub_batch !! s0 = Some b ∧ n_sub_batch !! s1 = Some b.
Proof.
  intros Hei Hn Hsq Hvalid Hrows.
  destruct (map_run data edges n n_mask Hei Hn Hsq Hvalid Hrows)
    as (e_mask & sub0 & sub1 & Hmap & He_mask & Hsub).
  exists sub0, sub1, (marked n_mask).*2, (marked e_mask).*2,
         (marked n_mask).*1, (marked e_mask).*1.
  split_and!; [done | by rewrite !length_fmap |].
  intros t b e Hb He.
  assert (marked e_mask !! t = Some (b, e)) as Ht
    by by apply nonzero_lookup.
  destruct (Hsub _ _ _ Ht) as (u & w & s0 & s1 & Hedge & Hs0 & Hs1 & Hm0 & Hm1).
  assert ((b, e) ∈ marked e_mask) as Hin by by eapply list_elem_of_lookup_2.
  apply marked_elem, He_mask in Hin as (u' & w' & Hedge' & Hu & Hw).
  assert (u' = u ∧ w' = w) as [-> ->] by (split; congruence).
  apply nonzero_lookup in Hm0 as [Hb0 Hu0], Hm1 as [Hb1 Hw1].
  exists u, w, s0, s1. done.
Qed.

End rooted.

Section ego.
Import rooted_subgraph.
Implicit Types (edges : list (nat * nat)) (a m : list (list nat)).

(** *** Walks *)

Lemma walk_mono edges k u v : walk edges k u v → walk edges (S k) u v.
Proof.
  induction 1 as [k v|k u w v Hedge _ IH]; [constructor|].
  by apply walk_step with w.
Qed.

Lemma walk_snoc edges k u w v :
  walk edges k u w → (w, v) ∈ edges → walk edges (S k) u v.
Proof.
  induction 1 as [k w|k u x w Hedge _ IH]; intros Hwv.
  - apply walk_step with v; [done | constructor].
  - apply walk_step with x; [done | by apply IH].
Qed.

Lemma walk_last edges k u v :
  walk edges (S k) u v →
  walk edges k u v ∨ ∃ w, walk edges k u w ∧ (w, v) ∈ edges.
Proof.
  revert u. induction k as [|k IH]; intros u Hwalk.
  - inversion Hwalk as [|? ? w ? Hedge Hrest]; subst; [left; constructor|].
    inversion Hrest; subst. right. exists u. split; [constructor | done].
  - inversion Hwalk as [|? ? w ? Hedge Hrest]; subst; [left; constructor|].
    destruct (IH _ Hrest) as [Hshort|(x & Hx & Hxv)].
    + left. by apply walk_step with w.
    + right. exists x. split; [by apply walk_step with w | done].
Qed.

Lemma walk_in_range n edges k u v :
  valid_edges n edges = true → u < n → walk edges k u v → v < n.
Proof.
  intros Hvalid%valid_edges_spec Hu.
  induction 1 as [|k u w v Hedge _ IH]; [done|]. apply IH.
  by apply (proj1 (Forall_forall _ _) Hvalid (u, w)).
Qed.

Lemma walk_reverse edges k u v :
  symmetric edges = true → walk edges k u v → walk edges k v u.
Proof.
  unfold symmetric. rewrite forallb_forall. intros Hsym.
  induction 1 as [|k u w v Hedge _ IH]; [constructor|].
  apply walk_snoc with w; [done|].
  apply list_elem_of_In, Hsym in Hedge. by apply bool_decide_eq_true in Hedge.
Qed.

(** *** Matrices of counts *)

Lemma matrix_entry n k f i j :
  i < n → j < k → entry (matrix n k f) i j = f i j.
Proof.
  intros Hi Hj. unfold entry, matrix.
  rewrite list_lookup_fmap, lookup_seq_lt by done. simpl.
  rewrite list_lookup_fmap, lookup_seq_lt by done. done.
Qed.

Lemma matrix_cell {A} n k (f : nat → nat → nat) (g : nat → A) i j :
  cell (fmap (M := list) g <$> matrix n k f) i j
  = if decide (i < n ∧ j < k) then Some (g (f i j)) else None.
Proof.
  unfold cell, matrix. rewrite !list_lookup_fmap.
  destruct (decide (i < n)) as [Hi|Hi].
  - rewrite lookup_seq_lt by done. simpl. rewrite !list_lookup_fmap.
    destruct (decide (j < k)) as [Hj|Hj].
    + rewrite lookup_seq_lt by done. by rewrite decide_True.
    + rewrite lookup_seq_ge by lia. by rewrite decide_False by tauto.
  - rewrite lookup_seq_ge by lia. by rewrite decide_False by tauto.
Qed.

Lemma sum_positive (f : nat → nat) start n :
  0 < foldr Nat.add 0 (f <$> seq start n)
  ↔ ∃ x, start ≤ x < start + n ∧ 0 < f x.
Proof.
  revert start. induction n as [|n IH]; intros start; csimpl.
  - split; [lia | intros (? & ? & _); lia].
  - split.
    + intros Hpos. destruct (decide (0 < f start)) as [Hf|Hf].
      * exists start. split; [lia | done].
      * destruct (proj1 (IH (S start))) as (x & Hx & Hfx); [lia|].
        exists x. split; [lia | done].
    + intros (x & Hx & Hfx). destruct (decide (x = start)) as [->|Hne].
      * lia.
      * assert (0 < foldr Nat.add 0 (f <$> seq (S start) n)); [|lia].
        apply IH. exists x. split; [lia | done].
Qed.

Lemma adjacency_entry n edges adj r c :
  to_paddle_csc_tensor edges n = Ok adj → r < n → c < n →
  0 < entry adj r c ↔ (r, c) ∈ edges.
Proof.
  unfold to_paddle_csc_tensor. destruct (forallb _ edges); [|done].
  intros [= <-] Hr Hc. rewrite matrix_entry by done. split.
  - intros Hpos. destruct (filter _ edges) as [|e l] eqn:Hf; [simpl in *; lia|].
    assert (e ∈ filter (λ e, e = (r, c)) edges) as Hin.
    { rewrite Hf. apply list_elem_of_here. }
    by apply list_elem_of_filter in Hin as [-> Hin].
  - intros Hin.
    assert ((r, c) ∈ filter (λ e, e = (r, c)) edges) as Hin'
      by by apply list_elem_of_filter.
    destruct (filter _ edges); [by apply elem_of_nil in Hin' | simpl; lia].
Qed.

(** *** The hops *)

Lemma hops_positive n edges adj k m i j :
  to_paddle_csc_tensor edges n = Ok adj → i < n → j < n →
  0 < entry (hops n (transpose n adj) m k) i j
  ↔ ∃ x, x < n ∧ walk edges k x i ∧ 0 < entry m x j.
Proof.
  intros Hadj. revert m i.
  induction k as [|k IH]; intros m i Hi Hj; simpl.
  - split.
    + intros Hpos. exists i. split_and!; [done | constructor | done].
    + intros (x & Hx & Hwalk & Hpos). by inversion Hwalk; subst.
  - rewrite IH by done. split.
    + intros (x & Hx & Hwalk & Hpos).
      unfold matadd in Hpos. rewrite matrix_entry in Hpos by done.
      destruct (decide (0 < entry m x j)) as [Hm|Hm].
      * exists x. split_and!; [done | by apply walk_mono | done].
      * assert (0 < entry (matmul n (transpose n adj) m) x j) as Hmm by lia.
        unfold matmul in Hmm. rewrite matrix_entry in Hmm by done.
        apply sum_positive in Hmm as (y & Hy & Hprod).
        unfold transpose in Hprod. rewrite matrix_entry in Hprod by lia.
        assert (0 < entry adj y x ∧ 0 < entry m y j) as [Hedge Hmy] by nia.
        apply (adjacency_entry n edges adj y x Hadj) in Hedge; [|lia..].
        exists y. split_and!; [lia | by apply walk_step with x | done].
    + intros (x & Hx & Hwalk & Hpos).
      inversion Hwalk as [|? ? y ? Hedge Hrest]; subst.
      * exists i. split_and!; [done | constructor |].
        unfold matadd. rewrite matrix_entry by done. lia.
      * assert (y < n) as Hy.
        { unfold to_paddle_csc_tensor in Hadj.
          destruct (forallb _ edges) eqn:Hvalid; [|done].
          apply valid_edges_spec in Hvalid.
          by apply (proj1 (Forall_forall _ _) Hvalid (x, y)). }
        exists y. split_and!; [done..|].
        unfold matadd. rewrite matrix_entry by done.
        assert (0 < entry (matmul n (transpose n adj) m) y j); [|lia].
        unfold matmul. rewrite matrix_entry by done.
        apply sum_positive. exists x. split; [lia|].
        unfold transpose. rewrite matrix_entry by done.
        apply (adjacency_entry n edges adj x y Hadj) in Hedge; [|done..].
        nia.
Qed.

Lemma hops_matrix n adj_t g k :
  ∃ f, hops n adj_t (matrix n n g) k = matrix n n f.
Proof.
  revert g. induction k as [|k IH]; intros g; simpl; [by exists g|].
  apply IH.
Qed.

Lemma eye_entry n i j :
  i < n → j < n → 0 < entry (eye n) i j ↔ i = j.
Proof.
  intros Hi Hj. unfold eye. rewrite matrix_entry by done.
  destruct (Nat.eqb_spec i j); split; (done || lia).
Qed.

(** The loop over the hops, started from the identity matrix: in exact
    arithmetic, entry [(b, v)] of the mask is set exactly when a walk of at
    most [num_hops] edges leads from [v] to [b]. *)
Lemma hops_eye_walks edges n adj num_hops :
  to_paddle_csc_tensor edges n = Ok adj →
  let n_mask := positive (hops n (transpose n adj) (eye n) num_hops) in
  square n n_mask = true
  ∧ ∀ b v, cell n_mask b v = Some true
           ↔ b < n ∧ v < n ∧ walk edges num_hops v b.
Proof.
  intros Hadj n_mask. unfold n_mask, positive.
  destruct (hops_matrix n (transpose n adj)
              (λ i j, if (i =? j)%nat then 1 else 0) num_hops) as [f Hf].
  pose proof (hops_positive n edges adj num_hops (eye n)) as Hpos.
  unfold eye in Hpos |- *. rewrite Hf in Hpos |- *. split.
  - apply square_spec. unfold matrix.
    rewrite !length_fmap, length_seq. split; [done|].
    rewrite <- list_fmap_compose. apply Forall_fmap, Forall_forall.
    intros i _. simpl. by rewrite !length_fmap, length_seq.
  - intros b v. rewrite matrix_cell.
    destruct (decide (b < n ∧ v < n)) as [[Hb Hv]|Hne].
    + specialize (Hpos b v Hadj Hb Hv).
      rewrite matrix_entry in Hpos by done.
      split.
      * intros [= Hlt%Nat.ltb_lt]. split_and!; [done..|].
        apply Hpos in Hlt as (x & Hx & Hwalk & Heye).
        rewrite matrix_entry in Heye by done.
        destruct (Nat.eqb_spec x v) as [->|]; [done | lia].
      * intros (_ & _ & Hwalk). f_equal. apply Nat.ltb_lt, Hpos.
        exists v. split_and!; [done..|].
        rewrite matrix_entry by done. rewrite Nat.eqb_refl. lia.
    + split; [done | tauto].
Qed.

(** *** The call of [paddle.eye] *)

(** C4.  [extract] of [RootedEgoNets] returns on no graph and for no
    number of hops.  Once the edge index and the number of nodes are
    there and the adjacency matrix is built, it asks [paddle.eye] for the
    identity matrix with the keyword [place], which [paddle.eye] does not
    take: the call raises [TypeError], and neither the loop over the hops
    nor [map] is reached.  On a graph whose edges join nodes below
    [num_nodes] the outcome is this [TypeError]. *)
Theorem RootedEgoNets_extract_raises num_hops data :
  RootedEgoNets_extract num_hops data
  = match edge_index data, num_nodes data with
    | Some edges, Some n => _ ← to_paddle_csc_tensor edges n; Raise TypeError
    | _, _ => Raise AssertionError
    end
  ∧ (∀ out, RootedEgoNets_extract num_hops data ≠ Ok out)
  ∧ (∀ edges n,
       edge_index data = Some edges → num_nodes data = Some n →
       valid_edges n edges = true →
       RootedEgoNets_extract num_hops data = Raise TypeError).
Proof.
  assert (RootedEgoNets_extract num_hops data
          = match edge_index data, num_nodes data with
            | Some edges, Some n =>
              _ ← to_paddle_csc_tensor edges n; Raise TypeError
            | _, _ => Raise AssertionError
            end) as Hrun.
  { unfold RootedEgoNets_extract, ego_mask, paddle_eye, creation.
    destruct (edge_index data) as [edges|]; [|done].
    destruct (num_nodes data) as [n|]; [|done]. simpl.
    by destruct (to_paddle_csc_tensor edges n) as [adj|e]. }
  split_and!; [done|..].
  - intros out. rewrite Hrun.
    destruct (edge_index data) as [edges|]; [|done].
    destruct (num_nodes data) as [n|]; [|done].
    by destruct (to_paddle_csc_tensor edges n).
  - intros edges n Hei Hn Hvalid. rewrite Hrun, Hei, Hn.
    unfold to_paddle_csc_tensor. unfold valid_edges in Hvalid.
    by rewrite Hvalid.
Qed.

End ego.

Section random_walks.
Import rooted_subgraph.
Implicit Types (edges : list (nat * nat)) (start : list nat).
Implicit Types walks : list (list nat).

(** *** Tiled start nodes against flattened walks *)

Lemma tile_each_lookup {A} c (x : list A) t b :
  tile_each c x !! t = Some b
  ↔ ∃ w p, x !! w = Some b ∧ p < c ∧ t = w * c + p.
Proof.
  unfold tile_each.
  rewrite (join_lookup_Some_same_length c).
  2:{ apply Forall_fmap, Forall_forall. intros; simpl. apply length_replicate. }
  split.
  - intros (w & l & p & Hl & Hp & ->).
    rewrite list_lookup_fmap in Hl.
    destruct (x !! w) as [s|] eqn:Hs; [|done]. injection Hl as <-.
    apply lookup_replicate in Hp as [-> Hp]. eauto.
  - intros (w & p & Hw & Hp & ->).
    exists w, (replicate c b), p. split_and!; [|by apply lookup_replicate|done].
    by rewrite list_lookup_fmap, Hw.
Qed.

Lemma tile_each_length {A} c (x : list A) :
  length (tile_each c x) = length x * c.
Proof.
  unfold tile_each. rewrite (length_join_uniform _ c), length_fmap; [done|].
  apply Forall_fmap, Forall_forall. intros; simpl. apply length_replicate.
Qed.

Lemma tile_join_aligned c start walks b v :
  Forall (λ r, length r = c) walks →
  (∃ t, tile_each c start !! t = Some b ∧ mjoin walks !! t = Some v)
  ↔ ∃ w r, start !! w = Some b ∧ walks !! w = Some r ∧ v ∈ r.
Proof.
  intros Hrows. split.
  - intros (t & (w & p & Hw & Hp & ->)%tile_each_lookup & Hv).
    apply (join_lookup_Some_same_length c) in Hv
      as (w' & r & p' & Hr & Hv & Heq); [|done].
    assert (length r = c) as Hlen.
    { by apply (proj1 (Forall_forall _ _) Hrows), list_elem_of_lookup_2 with w'. }
    assert (p' < c) as Hp' by (apply lookup_lt_Some in Hv; lia).
    assert (w' = w) as -> by nia.
    exists w, r. split_and!; [done..|]. by eapply list_elem_of_lookup_2.
  - intros (w & r & Hw & Hr & [p Hp]%list_elem_of_lookup).
    assert (length r = c) as Hlen.
    { by apply (proj1 (Forall_forall _ _) Hrows), list_elem_of_lookup_2 with w. }
    assert (p < c) as Hpc by (apply lookup_lt_Some in Hp; lia).
    exists (w * c + p). split.
    + apply tile_each_lookup. eauto.
    + apply (join_lookup_Some_same_length' c); eauto.
Qed.

Lemma walks_shaped_spec n walk_length start walks :
  walks_shaped n walk_length start walks = true ↔
  length walks = length start
  ∧ Forall (λ r, length r = walk_length + 1) walks
  ∧ Forall (λ v, v < n) (mjoin walks).
Proof.
  unfold walks_shaped.
  rewrite andb_true_iff, Nat.eqb_eq, forallb_forall, !Forall_forall.
  split.
  - intros [Hlen Hall]. split_and!; [done|..].
    + intros r Hr%list_elem_of_In%Hall.
      by apply andb_true_iff in Hr as [?%Nat.eqb_eq _].
    + intros v (r & Hv & Hr%list_elem_of_In%Hall)%list_elem_of_join.
      apply andb_true_iff in Hr as [_ Hr]. rewrite forallb_forall in Hr.
      by apply Nat.ltb_lt, Hr, list_elem_of_In.
  - intros (Hlen & Hrows & Hrange). split; [done|].
    intros r Hr%list_elem_of_In. apply andb_true_iff. split.
    + by apply Nat.eqb_eq, Hrows.
    + apply forallb_forall. intros v Hv%list_elem_of_In.
      apply Nat.ltb_lt, Hrange, list_elem_of_join. eauto.
Qed.

(** *** Marking the walks *)

(** The marking of the walks on the matrix of zeros: for start nodes below
    [n] and one walk of [walk_length + 1] nodes per start node, entry
    [(b, v)] is set exactly when one of the walks started at [b] visits
    [v]; when every walk begins at its start node, every start node is
    marked in its own row. *)
Lemma mark_walks_visited n walk_length start walks :
  Forall (λ b, b < n) start →
  walks_shaped n walk_length start walks = true →
  ∃ n_mask,
    mark_walks (replicate n (replicate n false)) walk_length start walks
    = Ok n_mask
    ∧ square n n_mask = true
    ∧ (∀ b v, cell n_mask b v = Some true
              ↔ ∃ w r, start !! w = Some b ∧ walks !! w = Some r ∧ v ∈ r)
    ∧ (walks_rooted start walks = true →
       ∀ b, b ∈ start → cell n_mask b b = Some true).
Proof.
  intros Hstart (Hlen & Hrows & Hrange)%walks_shaped_spec.
  unfold mark_walks.
  set (c := walk_length + 1) in *.
  destruct (index_put_Ok n (replicate n (replicate n false))
              (tile_each c start) (mjoin walks)
              (replicate (length (mjoin walks)) true))
    as (n_mask & Hput & Hsq).
  { apply square_replicate. }
  { by rewrite tile_each_length, (length_join_uniform _ c), Hlen. }
  { by rewrite length_replicate. }
  { apply Forall_forall. intros b [t Ht]%list_elem_of_lookup.
    apply tile_each_lookup in Ht as (w & p & Hw & _ & _).
    by apply (proj1 (Forall_forall _ _) Hstart), list_elem_of_lookup_2 with w. }
  { done. }
  exists n_mask. split_and!; [done..| |].
  - intros b v. rewrite <- (tile_join_aligned c) by done.
    destruct (index_put_cell _ _ _ _ _ Hput b v)
      as [(t & a & Hb & Hv & Ha & Hcell)|[Hno Hcell]].
    + apply lookup_replicate in Ha as [-> _]. split; [eauto | done].
    + rewrite Hcell. split.
      * intros (row & Hrow & Hv)%cell_Some.
        apply lookup_replicate in Hrow as [-> _].
        by apply lookup_replicate in Hv as [[=] _].
      * intros (t & Hb & Hv). by destruct (Hno t Hb).
  - intros Hrooted b [w Hw]%list_elem_of_lookup.
    assert (∃ w r, start !! w = Some b ∧ walks !! w = Some r ∧ b ∈ r)
      as Hvisit.
    { destruct (lookup_lt_is_Some_2 walks w) as [r Hr].
      { rewrite Hlen. by eapply lookup_lt_Some. }
      exists w, r. split_and!; [done..|].
      unfold walks_rooted in Hrooted. rewrite forallb_forall in Hrooted.
      assert ((b, r) ∈ zip start walks) as Hin.
      { apply list_elem_of_lookup. exists w. by apply lookup_zip_Some. }
      apply list_elem_of_In, Hrooted, bool_decide_eq_true in Hin. simpl in Hin.
      destruct r as [|x r]; [done|]. injection Hin as ->.
      apply list_elem_of_here. }
    rewrite <- (tile_join_aligned c) in Hvisit by done.
    destruct Hvisit as (t & Hb' & Hv).
    destruct (index_put_cell _ _ _ _ _ Hput b b)
      as [(t' & a & _ & _ & Ha & Hcell)|[Hno _]].
    + by apply lookup_replicate in Ha as [-> _].
    + by destruct (Hno t Hb').
Qed.

(** *** The call of [paddle.arange] *)

(** C6.  [extract] of [RootedRWSubgraph] returns on no graph, whatever
    [random_walk] computes.  Once the edge index and the number of nodes
    are there, it asks [paddle.arange] for the start nodes with the keyword
    [place], which [paddle.arange] does not take: the call raises
    [TypeError] before [random_walk] is called, and no mask reaches
    [map]. *)
Theorem RootedRWSubgraph_extract_raises random_walk walk_length repeat data :
  RootedRWSubgraph_extract random_walk walk_length repeat data
  = match edge_index data, num_nodes data with
    | Some _, Some _ => Raise TypeError
    | _, _ => Raise AssertionError
    end
  ∧ ∀ out,
      RootedRWSubgraph_extract random_walk walk_length repeat data ≠ Ok out.
Proof.
  assert (RootedRWSubgraph_extract random_walk walk_length repeat data
          = match edge_index data, num_nodes data with
            | Some _, Some _ => Raise TypeError
            | _, _ => Raise AssertionError
            end) as Hrun.
  { unfold RootedRWSubgraph_extract, rw_mask, paddle_arange, creation.
    destruct (edge_index data) as [edges|]; [|done].
    by destruct (num_nodes data) as [n|]. }
  split; [done|]. intros out. rewrite Hrun.
  destruct (edge_index data) as [edges|]; [|done].
  by destruct (num_nodes data) as [n|].
Qed.

End random_walks.

(** ** [ParameterDict] keys *)

Section keys.
Import parameter_dict.
Implicit Types (s key cur rest : string) (t : list string) (c : ascii).

Local Open Scope string_scope.
Local Arguments append !s1 s2 : simpl nomatch.
Local Arguments Ascii.eqb : simpl never.

(** *** Strings *)

Lemma append_nil_r s : s +:+ "" = s.
Proof. induction s as [|c s IH]; simpl; [done | by rewrite IH]. Qed.

Lemma append_assoc s1 s2 s3 : (s1 +:+ s2) +:+ s3 = s1 +:+ (s2 +:+ s3).
Proof. induction s1 as [|c s1 IH]; simpl; [done | by rewrite IH]. Qed.

Lemma length_append s1 s2 :
  String.length (s1 +:+ s2) = String.length s1 + String.length s2.
Proof. induction s1 as [|c s1 IH]; simpl; [done | by rewrite IH]. Qed.

Lemma substring_prefix s1 s2 :
  String.substring 0 (String.length s1) (s1 +:+ s2) = s1.
Proof.
  induction s1 as [|c s1 IH]; simpl; [by destruct s2 | by rewrite IH].
Qed.

Lemma get_append_last s c :
  String.get (String.length s) (s +:+ String c "") = Some c.
Proof. induction s as [|c' s IH]; simpl; done. Qed.

(** Wrapping in angle brackets, and what [to_external_key] reads of it. *)
Lemma inner_bracket s : inner (bracket s) = s.
Proof.
  unfold inner, bracket. simpl. rewrite length_append. simpl.
  replace (String.length s + 1 - 1) with (String.length s) by lia.
  apply substring_prefix.
Qed.

Lemma wrapped_bracket s : wrapped (bracket s) = Ok true.
Proof.
  unfold wrapped, bracket. simpl. rewrite length_append. simpl.
  replace (String.length s + 1 - 0) with (S (String.length s)) by lia.
  simpl. rewrite get_append_last. by rewrite bool_decide_eq_true_2.
Qed.

Lemma wrapped_nonempty s :
  s ≠ "" → wrapped s = Ok (first_is "<" s && last_is ">" s).
Proof. by destruct s. Qed.

(** *** Replacing dots *)

Lemma contains_cons sep c s :
  contains sep (String c s) = false → contains sep s = false.
Proof. simpl. by intros [_ ?]%orb_false_iff. Qed.

Lemma contains_char a c s :
  contains (String a "") (String c s)
  = Ascii.eqb a c || contains (String a "") s.
Proof. simpl. by rewrite andb_true_r. Qed.

Lemma replace_round_trip s :
  contains "#" s = false → replace "#" "." (replace "." "#" s) = s.
Proof.
  induction s as [|c s IH]; [done|]. rewrite contains_char.
  intros [Hc Hs]%orb_false_iff. simpl. rewrite (IH Hs). f_equal.
  apply Ascii.eqb_neq in Hc.
  destruct (Ascii.eqb_spec c ".") as [->|Hdot]; [done|].
  by rewrite (proj2 (Ascii.eqb_neq c "#")) by done.
Qed.

Lemma contains_char_append a s1 s2 :
  contains (String a "") (s1 +:+ s2)
  = contains (String a "") s1 || contains (String a "") s2.
Proof.
  induction s1 as [|c s1 IH].
  - simpl. by destruct s2.
  - change (String c s1 +:+ s2) with (String c (s1 +:+ s2)).
    rewrite !contains_char, IH. by rewrite orb_assoc.
Qed.

Lemma contains_hash_bracket s :
  contains "#" (bracket s) = contains "#" s.
Proof.
  unfold bracket. change ("<" +:+ s +:+ ">") with (String "<" (s +:+ ">")).
  rewrite contains_char, contains_char_append. simpl.
  by rewrite orb_false_r.
Qed.

(** *** Joining and splitting on three underscores *)

Lemma last_is_cons a c s : s ≠ "" → last_is a (String c s) = last_is a s.
Proof.
  intros Hs. unfold last_is. destruct s as [|c' s]; [done|]. simpl.
  by rewrite Nat.sub_0_r.
Qed.

Lemma startswith_sep_piece c s rest :
  contains "___" (String c s) = false → last_is "_" (String c s) = false →
  startswith "___" (String c (s +:+ "___" +:+ rest)) = false.
Proof.
  intros Hc Hl. simpl in Hc. apply orb_false_iff in Hc as [Hc _].
  simpl in Hc |- *.
  destruct (Ascii.eqb_spec "_" c) as [<-|]; [|done]. simpl in *.
  destruct s as [|c2 s]; [done|]. simpl in *.
  destruct (Ascii.eqb_spec "_" c2) as [<-|]; [|done]. simpl in *.
  destruct s as [|c3 s]; [done|]. simpl in *.
  destruct (Ascii.eqb_spec "_" c3) as [<-|]; [|done]. done.
Qed.

Lemma split_go_piece a rest cur :
  contains "___" a = false → last_is "_" a = false →
  split_go "___" 0 cur (a +:+ "___" +:+ rest)
  = (cur +:+ a) :: split_go "___" 0 "" rest.
Proof.
  revert cur. induction a as [|c a IH]; intros cur Hc Hl.
  - rewrite append_nil_r.
    change ("" +:+ "___" +:+ rest)
      with (String "_" (String "_" (String "_" rest))).
    cbn [split_go startswith String.length Nat.sub].
    rewrite !Ascii.eqb_refl. done.
  - change (String c a +:+ "___" +:+ rest)
      with (String c (a +:+ "___" +:+ rest)).
    cbn [split_go]. rewrite (startswith_sep_piece c a rest Hc Hl).
    rewrite IH.
    + by rewrite append_assoc.
    + by apply contains_cons in Hc.
    + destruct a as [|c' a]; [done|]. by rewrite last_is_cons in Hl.
Qed.

Lemma split_go_last s cur :
  contains "___" s = false → split_go "___" 0 cur s = [cur +:+ s].
Proof.
  revert cur. induction s as [|c s IH]; intros cur Hc.
  - simpl. by rewrite append_nil_r.
  - pose proof (contains_cons _ _ _ Hc) as Hs.
    cbn [contains] in Hc. apply orb_false_iff in Hc as [Hc _].
    cbn [split_go]. rewrite Hc, (IH _ Hs). by rewrite append_assoc.
Qed.

Lemma split_join t :
  t ≠ [] →
  forallb (λ x, negb (contains "___" x)) t = true →
  forallb (λ x, negb (last_is "_" x)) (removelast t) = true →
  split "___" (join "___" t) = t.
Proof.
  unfold split. induction t as [|a t IH]; [done|]. intros _ Hc Hl.
  cbn [forallb] in Hc. apply andb_true_iff in Hc as [Ha Hc].
  apply negb_true_iff in Ha.
  destruct t as [|b t].
  - simpl. by rewrite split_go_last.
  - change (removelast (a :: b :: t)) with (a :: removelast (b :: t)) in Hl.
    cbn [forallb] in Hl. apply andb_true_iff in Hl as [Hla Hl].
    apply negb_true_iff in Hla.
    change (join "___" (a :: b :: t))
      with (a +:+ "___" +:+ join "___" (b :: t)).
    rewrite split_go_piece by done. simpl append. f_equal. by apply IH.
Qed.

Lemma contains_append_r sep s1 s2 :
  contains sep s2 = true → contains sep (s1 +:+ s2) = true.
Proof.
  intros Hs2. induction s1 as [|c s1 IH]; [done|].
  change (String c s1 +:+ s2) with (String c (s1 +:+ s2)).
  cbn [contains]. rewrite IH. apply orb_true_r.
Qed.

Lemma contains_join t :
  (2 ≤ length t)%nat → contains "___" (join "___" t) = true.
Proof.
  destruct t as [|a [|b t]]; simpl length; [lia..|]. intros _.
  change (join "___" (a :: b :: t))
    with (a +:+ "___" +:+ join "___" (b :: t)).
  apply contains_append_r.
  change ("___" +:+ join "___" (b :: t))
    with (String "_" (String "_" (String "_" (join "___" (b :: t))))).
  cbn [contains startswith]. by rewrite !Ascii.eqb_refl.
Qed.

Lemma contains_hash_join t :
  forallb (λ x, negb (contains "#" x)) t = true →
  contains "#" (join "___" t) = false.
Proof.
  induction t as [|a t IH]; [done|]. cbn [forallb].
  intros [Ha Ht]%andb_true_iff. apply negb_true_iff in Ha.
  destruct t as [|b t]; [done|].
  change (join "___" (a :: b :: t))
    with (a +:+ "___" +:+ join "___" (b :: t)).
  rewrite !contains_char_append, Ha, (IH Ht). done.
Qed.

(** *** The round trip *)

Section round_trip.
Variable CLASS_ATTRS : string → bool.
Local Arguments bracket : simpl never.

Lemma contains_sep_bracket s :
  contains "___" s = true → contains "___" (bracket s) = true.
Proof.
  intros Hsep. unfold bracket.
  change ("<" +:+ s +:+ ">") with ("<" +:+ (s +:+ ">")).
  apply contains_append_r.
  induction s as [|c s IH]; [done|].
  change (String c s +:+ ">") with (String c (s +:+ ">")).
  cbn [contains] in Hsep |- *.
  apply orb_true_iff in Hsep as [Hs|Hs]; [|rewrite IH by done; apply orb_true_r].
  apply orb_true_iff. left. clear -Hs. cbn [startswith] in *.
  destruct (Ascii.eqb "_" c); [|done]. simpl in *.
  destruct s as [|c2 s]; [done|]. simpl in *.
  destruct (Ascii.eqb "_" c2); [|done]. simpl in *.
  destruct s as [|c3 s]; [done|]. simpl in *.
  by destruct (Ascii.eqb "_" c3).
Qed.

Ltac run_bind := unfold mbind, result_mbind, result_bind; cbn [andb].

Lemma external_of_joined s :
  contains "#" s = false → contains "___" s = true →
  CLASS_ATTRS s = false →
  to_external_key CLASS_ATTRS
    (replace "." "#"
       (if CLASS_ATTRS (bracket s) then bracket (bracket s) else bracket s))
  = Ok (KTuple (split "___" s)).
Proof.
  intros Hhash Hsep Hclass. unfold to_external_key.
  pose proof (contains_sep_bracket s Hsep) as Hsep'.
  destruct (CLASS_ATTRS (bracket s)) eqn:Hb.
  - rewrite replace_round_trip
      by by rewrite !contains_hash_bracket.
    rewrite wrapped_bracket. run_bind. rewrite inner_bracket, Hb.
    rewrite wrapped_bracket. run_bind. by rewrite Hsep', inner_bracket.
  - rewrite replace_round_trip by by rewrite contains_hash_bracket.
    rewrite wrapped_bracket. run_bind. rewrite inner_bracket, Hclass.
    rewrite wrapped_bracket. run_bind. by rewrite Hsep', inner_bracket.
Qed.

Lemma external_of_string s :
  s ≠ "" → contains "#" s = false →
  first_is "<" s && last_is ">" s = false →
  to_external_key CLASS_ATTRS
    (replace "." "#" (if CLASS_ATTRS s then bracket s else s))
  = Ok (KStr s).
Proof.
  intros Hne Hhash Hw. unfold to_external_key.
  destruct (CLASS_ATTRS s) eqn:Hclass.
  - rewrite replace_round_trip by by rewrite contains_hash_bracket.
    rewrite wrapped_bracket. run_bind. rewrite inner_bracket, Hclass.
    rewrite (wrapped_nonempty s Hne), Hw. done.
  - rewrite replace_round_trip by done.
    rewrite (wrapped_nonempty s Hne), Hw. run_bind.
    rewrite (wrapped_nonempty s Hne), Hw. done.
Qed.

Lemma key_ok_round_trip (key : Key) :
  key_ok CLASS_ATTRS key = true →
  ∃ k, to_internal_key CLASS_ATTRS key = Ok k
       ∧ to_external_key CLASS_ATTRS k = Ok key.
Proof.
  unfold key_ok, key_claimed, to_internal_key. destruct key as [s|t].
  - intros [[Hhash Hw]%andb_true_iff Hne]%andb_true_iff.
    apply negb_true_iff in Hhash, Hw, Hne. apply String.eqb_neq in Hne.
    eexists. split; [done|]. by apply external_of_string.
  - intros [[Hlen Hcomp]%andb_true_iff [Hlast Hclass]%andb_true_iff]%andb_true_iff.
    apply Nat.leb_le in Hlen. apply negb_true_iff in Hclass.
    rewrite bool_decide_eq_true_2 by lia.
    eexists. split; [done|]. run_bind.
    assert (forallb (λ x, negb (contains "#" x)) t = true
            ∧ forallb (λ x, negb (contains "___" x)) t = true) as [Hh Hs].
    { clear -Hcomp. induction t as [|a t IH]; [done|].
      cbn [forallb] in *. apply andb_true_iff in Hcomp as [Ha Ht].
      unfold component_claimed in Ha.
      apply andb_true_iff in Ha as [[_ Ha1]%andb_true_iff Ha2].
      destruct (IH Ht) as [-> ->]. by rewrite Ha1, Ha2. }
    rewrite external_of_joined; [|by apply contains_hash_join
                                 |by apply contains_join|done].
    rewrite split_join; [done| |done..].
    intros ->. simpl in Hlen. lia.
Qed.

(** *** Storing under a key *)

Context {P : Type}.
Implicit Types (self : list (string * P)) (parameter : P).

Lemma keys_dict_set self k parameter ks (key' : Key) :
  keys CLASS_ATTRS self = Ok ks →
  to_external_key CLASS_ATTRS k = Ok key' →
  ∃ ks', keys CLASS_ATTRS (dict_set k parameter self) = Ok ks' ∧ key' ∈ ks'.
Proof.
  unfold keys. intros Hks Hk. revert ks Hks.
  induction self as [|[k0 p0] self IH]; intros ks Hks.
  - exists [key']. simpl. rewrite Hk. split; [done | apply list_elem_of_here].
  - cbn [dict_set]. csimpl in Hks. bind_inv Hks. bind_inv Hks.
    destruct (String.eqb_spec k0 k) as [->|Hne].
    + exists ks. split.
      * csimpl. rewrite Hstep. simpl. rewrite Hstep0. done.
      * injection Hks as <-. assert (a = key') as -> by congruence.
        apply list_elem_of_here.
    + destruct (IH _ Hstep0) as (ks' & Hks' & Hin).
      exists (a :: ks'). split.
      * csimpl. rewrite Hstep. simpl. rewrite Hks'. done.
      * by apply elem_of_cons; right.
Qed.

Lemma items_dict_set self k parameter ks (key' : Key) :
  keys CLASS_ATTRS self = Ok ks →
  to_external_key CLASS_ATTRS k = Ok key' →
  ∃ its, items CLASS_ATTRS (dict_set k parameter self) = Ok its
         ∧ (key', parameter) ∈ its.
Proof.
  unfold keys, items. intros Hks Hk. revert ks Hks.
  induction self as [|[k0 p0] self IH]; intros ks Hks.
  - exists [(key', parameter)]. simpl. rewrite Hk.
    split; [done | apply list_elem_of_here].
  - cbn [dict_set]. csimpl in Hks. bind_inv Hks. bind_inv Hks.
    destruct (String.eqb_spec k0 k) as [->|Hne].
    + assert (∃ its, traverse (λ kv, k ← to_external_key CLASS_ATTRS kv.1;
                                     Ok (k, kv.2)) self = Ok its)
        as [its Hits].
      { clear -Hstep0. revert a0 Hstep0.
        induction self as [|[k1 p1] self IH]; intros ks Hks; [by exists []|].
        csimpl in Hks. bind_inv Hks. bind_inv Hks.
        destruct (IH _ Hstep0) as [its Hits]. exists ((a, p1) :: its).
        simpl. rewrite Hstep. simpl. by rewrite Hits. }
      exists ((key', parameter) :: its). split; [|apply list_elem_of_here].
      simpl. rewrite Hk. simpl. by rewrite Hits.
    + destruct (IH _ Hstep0) as (its & Hits & Hin).
      exists ((a, p0) :: its). split.
      * simpl. rewrite Hstep. simpl. rewrite Hits. done.
      * by apply elem_of_cons; right.
Qed.

(** C9, as amended.  A non-empty string key without ['#'] that is not both
    opened by ['<'] and closed by ['>'], and a tuple key of at least two
    components without ['.'], ['#'] and ['___'], none of which except the
    last ends in an underscore and whose joined form is not an attribute
    name of the class, is returned by [to_external_key] from its internal
    form; a parameter stored under it in a dictionary whose keys can be
    listed is reported under that very key by [keys] and [items]. *)
Theorem key_round_trip (key : Key) self parameter ks :
  key_ok CLASS_ATTRS key = true →
  (∃ k, to_internal_key CLASS_ATTRS key = Ok k
        ∧ to_external_key CLASS_ATTRS k = Ok key)
  ∧ (keys CLASS_ATTRS self = Ok ks →
     ∃ self' ks' its',
       setitem CLASS_ATTRS self key parameter = Ok self'
       ∧ keys CLASS_ATTRS self' = Ok ks' ∧ key ∈ ks'
       ∧ items CLASS_ATTRS self' = Ok its' ∧ (key, parameter) ∈ its').
Proof.
  intros Hok. destruct (key_ok_round_trip key Hok) as (k & Hint & Hext).
  split; [eauto|]. intros Hks.
  destruct (keys_dict_set self k parameter ks key Hks Hext) as (ks' & Hks' & Hin).
  destruct (items_dict_set self k parameter ks key Hks Hext)
    as (its' & Hits' & Hin').
  exists (dict_set k parameter self), ks', its'.
  unfold setitem. rewrite Hint. done.
Qed.

End round_trip.

(** The claim as first stated fails on a tuple with a component that ends
    in an underscore, which comes back split elsewhere, and on the empty
    string, whose internal form cannot be read back. *)
Lemma key_round_trip_fails :
  key_claimed (KTuple ["a_"; "b"]) = true
  ∧ to_internal_key sample_attrs (KTuple ["a_"; "b"])
      ≫= to_external_key sample_attrs
    = Ok (KTuple ["a"; "_b"])
  ∧ key_claimed (KStr "") = true
  ∧ to_internal_key sample_attrs (KStr "") ≫= to_external_key sample_attrs
    = Raise IndexError.
Proof. by vm_compute. Qed.

(** Whatever the attribute names of the class are, the tuple above does
    not come back. *)
Lemma underscore_tuple_never_round_trips (CLASS_ATTRS : string → bool) :
  to_internal_key CLASS_ATTRS (KTuple ["a_"; "b"])
    ≫= to_external_key CLASS_ATTRS
  ≠ Ok (KTuple ["a_"; "b"]).
Proof.
  destruct (CLASS_ATTRS "<a____b>") eqn:H1;
    destruct (CLASS_ATTRS "a____b") eqn:H2;
    do 3 (vm_compute; rewrite ?H1, ?H2); intros Heq; inversion Heq.
Qed.

End keys.

(** ** Dictionaries in insertion order and [remap_keys] *)

Section dicts.
Context {X V : Type} `{EqDecision X}.
Implicit Types (d : list (X * V)) (k : X) (v : V).

Lemma dict_get_store k v d k' :
  dict_get k' (dict_store k v d)
  = if decide (k = k') then Some v else dict_get k' d.
Proof.
  induction d as [|[k0 v0] d IH]; simpl.
  - destruct (decide (k = k')); done.
  - destruct (decide (k0 = k)) as [->|Hne]; simpl.
    + destruct (decide (k = k')); done.
    + rewrite IH. destruct (decide (k0 = k')) as [->|]; [|done].
      by destruct (decide (k = k')).
Qed.

Lemma dict_store_fresh k v d : k ∉ d.*1 → dict_store k v d = d ++ [(k, v)].
Proof.
  induction d as [|[k0 v0] d IH]; csimpl; [done|].
  intros [Hne Hnotin]%not_elem_of_cons.
  destruct (decide (k0 = k)); [done|]. by rewrite IH.
Qed.

Lemma dict_store_keys k v d :
  (dict_store k v d).*1 = if decide (k ∈ d.*1) then d.*1 else d.*1 ++ [k].
Proof.
  induction d as [|[k0 v0] d IH]; csimpl.
  - destruct (decide (k ∈ [])) as [Hin|]; [by apply elem_of_nil in Hin | done].
  - destruct (decide (k0 = k)) as [->|Hne]; csimpl.
    + rewrite decide_True; [done | apply list_elem_of_here].
    + rewrite IH. destruct (decide (k ∈ d.*1)) as [Hin|Hnotin].
      * rewrite decide_True; [done | by apply list_elem_of_further].
      * rewrite decide_False; [done|].
        intros [?|?]%elem_of_cons; congruence.
Qed.

Lemma dict_store_NoDup k v d : NoDup d.*1 → NoDup (dict_store k v d).*1.
Proof.
  intros Hnd. rewrite dict_store_keys. destruct (decide (k ∈ d.*1)); [done|].
  apply NoDup_app. split_and!; [done | | apply NoDup_singleton].
  intros x Hx ->%list_elem_of_singleton. done.
Qed.

Lemma dict_get_None k d : dict_get k d = None ↔ k ∉ d.*1.
Proof.
  induction d as [|[k0 v0] d IH]; csimpl.
  - split; [intros _; apply not_elem_of_nil | done].
  - destruct (decide (k0 = k)) as [->|Hne].
    + split; [done|]. intros []. apply list_elem_of_here.
    + rewrite IH, not_elem_of_cons. intuition congruence.
Qed.

Lemma dict_get_elem k v d : NoDup d.*1 → dict_get k d = Some v ↔ (k, v) ∈ d.
Proof.
  induction d as [|[k0 v0] d IH]; csimpl; intros Hnd.
  - split; [done | by intros ?%elem_of_nil].
  - apply NoDup_cons in Hnd as [Hnotin Hnd].
    destruct (decide (k0 = k)) as [->|Hne].
    + split.
      * intros [= ->]. apply list_elem_of_here.
      * intros [[= ->]|Hin]%elem_of_cons; [done|].
        destruct Hnotin. by apply (list_elem_of_fmap_2 fst) in Hin.
    + rewrite IH by done. rewrite elem_of_cons. intuition congruence.
Qed.

End dicts.

(** ** [remap_keys] *)

Section remap.
Import sampler_utils.
Context {X V : Type} `{Countable X}.
Implicit Types (inputs d : list (X * V)) (mapping : gmap X X).
Implicit Types (exclude : list X) (k : X).

(** The comprehension, started from a dictionary that holds entries
    already. *)
Lemma remap_loop_get mapping exclude inputs d k' :
  dict_get k'
    (foldl (λ d kv, dict_store (remap_key mapping exclude kv.1) kv.2 d)
           d inputs)
  = match last (filter (λ kv, remap_key mapping exclude kv.1 = k') inputs) with
    | Some kv => Some kv.2
    | None => dict_get k' d
    end.
Proof.
  revert d. induction inputs as [|[k v] inputs IH]; intros d; simpl; [done|].
  rewrite IH, dict_get_store. rewrite filter_cons. simpl.
  destruct (decide (remap_key mapping exclude k = k')) as [Heq|Hne].
  - rewrite last_cons.
    by destruct (last (filter _ inputs)).
  - done.
Qed.

Lemma remap_loop_NoDup mapping exclude inputs d :
  NoDup d.*1 →
  NoDup (foldl (λ d kv, dict_store (remap_key mapping exclude kv.1) kv.2 d)
               d inputs).*1.
Proof.
  revert d. induction inputs as [|[k v] inputs IH]; intros d Hnd; simpl;
    [done|].
  by apply IH, dict_store_NoDup.
Qed.

Lemma remap_loop_distinct mapping exclude inputs d :
  NoDup (d.*1 ++ (remap_key mapping exclude <$> inputs.*1)) →
  foldl (λ d kv, dict_store (remap_key mapping exclude kv.1) kv.2 d) d inputs
  = d ++ ((λ kv, (remap_key mapping exclude kv.1, kv.2)) <$> inputs).
Proof.
  revert d. induction inputs as [|[k v] inputs IH]; intros d Hnd; simpl.
  - by rewrite app_nil_r.
  - simpl in Hnd. rewrite dict_store_fresh.
    + rewrite IH; [by rewrite <- app_assoc|].
      rewrite fmap_app. simpl. by rewrite <- app_assoc.
    + apply NoDup_app in Hnd as (_ & Hdisj & _). intros Hin.
      apply (Hdisj _ Hin), list_elem_of_here.
Qed.

(** X1.  Every key of the result is there once, and holds the value of the
    last entry of [inputs] that is renamed to it: where two keys are renamed
    to one, the earlier value is lost. *)
Theorem remap_keys_last_wins inputs mapping (exclude : option (list X)) k' :
  NoDup (remap_keys inputs mapping exclude).*1
  ∧ dict_get k' (remap_keys inputs mapping exclude)
    = snd <$> last (filter (λ kv, remap_key mapping (default [] exclude) kv.1
                                  = k') inputs).
Proof.
  unfold remap_keys. split.
  - apply remap_loop_NoDup. constructor.
  - rewrite remap_loop_get. by destruct (last _).
Qed.

(** X2.  When the new keys are distinct, nothing is lost: the result holds the
    entries of [inputs] in their order, each under its new key. *)
Theorem remap_keys_distinct inputs mapping (exclude : option (list X)) :
  NoDup (remap_key mapping (default [] exclude) <$> inputs.*1) →
  remap_keys inputs mapping exclude
  = (λ kv, (remap_key mapping (default [] exclude) kv.1, kv.2)) <$> inputs.
Proof.
  intros Hnd. unfold remap_keys. by rewrite remap_loop_distinct.
Qed.

(** X3.  Renaming back: a second mapping that undoes the first on every key of
    a dictionary restores the dictionary. *)
Theorem remap_keys_round_trip inputs mapping (inverse : gmap X X) :
  NoDup inputs.*1 →
  (∀ k, k ∈ inputs.*1 →
        remap_key inverse [] (remap_key mapping [] k) = k) →
  remap_keys (remap_keys inputs mapping None) inverse None = inputs.
Proof.
  intros Hnd Hinv. unfold remap_keys at 2. simpl.
  rewrite remap_loop_distinct; simpl.
  2:{ apply NoDup_fmap_2_strong; [|done].
      intros k1 k2 H1 H2 Heq.
      rewrite <- (Hinv k1 H1), <- (Hinv k2 H2). by rewrite Heq. }
  unfold remap_keys. simpl.
  assert (((λ kv : X * V, (remap_key mapping [] kv.1, kv.2)) <$> inputs).*1
          = remap_key mapping [] <$> inputs.*1) as Hkeys.
  { rewrite <- !list_fmap_compose. by apply list_fmap_ext. }
  assert (∀ kv, kv ∈ inputs → kv.1 ∈ inputs.*1) as Hfst
    by (intros kv ?; by apply list_elem_of_fmap_2).
  rewrite remap_loop_distinct; simpl.
  - rewrite <- list_fmap_compose. rewrite <- (list_fmap_id inputs) at 2.
    apply Forall_fmap_ext_1, Forall_forall. intros [k v] Hin. simpl.
    f_equal. by apply Hinv, (Hfst (k, v)).
  - rewrite Hkeys, <- list_fmap_compose.
    rewrite (Forall_fmap_ext_1 _ id); [by rewrite list_fmap_id|].
    apply Forall_forall. intros k Hk. simpl. by apply Hinv.
Qed.

End remap.

(** ** [ParameterDict] as a dictionary *)

Section parameter_dict_more.
Import parameter_dict.
Implicit Types (s key cur rest : string) (t : list string) (c : ascii).

Local Open Scope string_scope.
Local Arguments append !s1 s2 : simpl nomatch.
Local Arguments Ascii.eqb : simpl never.
Local Arguments bracket : simpl never.

(** *** Replacing one character by another *)

Lemma replace_absent a b s :
  a ≠ b → contains (String a "") (replace a b s) = false.
Proof.
  intros Hab. induction s as [|c s IH]; [done|].
  cbn [replace]. rewrite contains_char, IH, orb_false_r.
  destruct (Ascii.eqb_spec c a) as [->|Hca].
  - by apply Ascii.eqb_neq.
  - apply Ascii.eqb_neq. congruence.
Qed.

Lemma replace_id a b s :
  contains (String a "") s = false → replace a b s = s.
Proof.
  induction s as [|c s IH]; [done|]. rewrite contains_char.
  intros [Hc Hs]%orb_false_iff. cbn [replace]. rewrite (IH Hs).
  rewrite Ascii.eqb_sym in Hc. by rewrite Hc.
Qed.

(** Replacing [a] by [b] after replacing [b] by [a] is replacing [a] by
    [b]. *)
Lemma replace_replace a b s : replace a b (replace b a s) = replace a b s.
Proof.
  induction s as [|c s IH]; [done|]. cbn [replace]. rewrite IH. f_equal.
  destruct (Ascii.eqb_spec c b) as [->|Hcb].
  - rewrite Ascii.eqb_refl. by destruct (Ascii.eqb_spec b a) as [->|].
  - done.
Qed.

Lemma replace_append a b s1 s2 :
  replace a b (s1 +:+ s2) = replace a b s1 +:+ replace a b s2.
Proof.
  induction s1 as [|c s1 IH]; [done|].
  change (String c s1 +:+ s2) with (String c (s1 +:+ s2)).
  cbn [replace]. by rewrite IH.
Qed.

Lemma replace_bracket a b s :
  a ≠ "<"%char → a ≠ ">"%char →
  replace a b (bracket s) = bracket (replace a b s).
Proof.
  intros H1 H2. unfold bracket. rewrite !replace_append. cbn [replace].
  by rewrite !(proj2 (Ascii.eqb_neq _ _)) by done.
Qed.

Lemma replace_nonempty a b s : s ≠ "" → replace a b s ≠ "".
Proof. by destruct s. Qed.

(** A string free of [b] after [a] is replaced by [b] held neither. *)
Lemma replace_free a b s :
  contains (String b "") (replace a b s) = false →
  contains (String a "") s = false ∧ contains (String b "") s = false.
Proof.
  induction s as [|c s IH]; [done|]. cbn [replace].
  rewrite !contains_char. intros [Hc Hs]%orb_false_iff.
  destruct (IH Hs) as [-> ->]. rewrite !orb_false_r.
  destruct (Ascii.eqb_spec c a) as [->|Hca].
  - by rewrite Ascii.eqb_refl in Hc.
  - split; [|done]. apply Ascii.eqb_neq. congruence.
Qed.

(** *** Angle brackets *)

Lemma string_last s c0 c :
  String.get (String.length s) (String c0 s) = Some c →
  String.substring 0 (String.length s) (String c0 s) +:+ String c "" = String c0 s.
Proof.
  revert c0. induction s as [|c1 s IH]; intros c0.
  - simpl. by intros [= ->].
  - cbn [String.length String.get String.substring]. intros Hget.
    change (String c0 ?a +:+ ?b) with (String c0 (a +:+ b)).
    f_equal. by apply IH.
Qed.

Lemma wrapped_bracket_inner key :
  wrapped key = Ok true → bracket (inner key) = key.
Proof.
  destruct key as [|c rest]; [done|]. unfold wrapped.
  intros [= [Hc Hlast]%andb_true_iff].
  apply Ascii.eqb_eq in Hc as ->. apply bool_decide_eq_true in Hlast.
  destruct rest as [|c1 rest]; [done|].
  unfold inner, bracket.
  cbn [String.length Nat.sub] in *. rewrite Nat.sub_0_r in *.
  cbn [String.get String.substring] in *.
  change ("<" +:+ ?a +:+ ">") with (String "<" (a +:+ ">")).
  f_equal. by apply string_last.
Qed.

Lemma contains_sep_inner s :
  contains "___" (bracket s) = true → contains "___" s = true.
Proof.
  unfold bracket. change ("<" +:+ s +:+ ">") with (String "<" (s +:+ ">")).
  cbn [contains startswith].
  rewrite (proj2 (Ascii.eqb_neq "_" "<")) by done. cbn [andb orb].
  induction s as [|c s IH]; [done|].
  change (String c s +:+ ">") with (String c (s +:+ ">")).
  cbn [contains]. intros [Hs|Hs]%orb_true_iff;
    [|rewrite IH by done; apply orb_true_r].
  apply orb_true_iff. left. clear -Hs. cbn [startswith] in *.
  destruct (Ascii.eqb "_" c); [|done]. simpl in *.
  destruct s as [|c2 s]; [done|]. simpl in *.
  destruct (Ascii.eqb "_" c2); [|done]. simpl in *.
  destruct s as [|c3 s]; [done|]. simpl in *.
  by destruct (Ascii.eqb "_" c3).
Qed.

(** *** Splitting and joining again *)

Lemma split_go_cons sep skip cur s :
  ∃ piece pieces, split_go sep skip cur s = piece :: pieces.
Proof.
  revert skip cur. induction s as [|c s IH]; intros skip cur; [by eexists _, _|].
  cbn [split_go]. destruct skip as [|skip]; [|apply IH].
  destruct (startswith sep (String c s)); [by eexists _, _ | apply IH].
Qed.

Lemma startswith_sep s :
  startswith "___" s = true → ∃ rest, s = "___" +:+ rest.
Proof.
  cbn [startswith].
  destruct s as [|c1 s]; [done|].
  destruct (Ascii.eqb_spec "_" c1) as [<-|]; [|done]. simpl.
  destruct s as [|c2 s]; [done|].
  destruct (Ascii.eqb_spec "_" c2) as [<-|]; [|done]. simpl.
  destruct s as [|c3 s]; [done|].
  destruct (Ascii.eqb_spec "_" c3) as [<-|]; [|done]. by exists s.
Qed.

Lemma join_split_go n s cur :
  (String.length s ≤ n)%nat →
  join "___" (split_go "___" 0 cur s) = cur +:+ s.
Proof.
  revert s cur. induction n as [|n IH]; intros s cur Hlen.
  - destruct s; [|simpl in Hlen; lia]. simpl. by rewrite append_nil_r.
  - destruct s as [|c s]; [simpl; by rewrite append_nil_r|].
    cbn [split_go].
    destruct (startswith "___" (String c s)) eqn:Hsw.
    + apply startswith_sep in Hsw as [rest Hrest].
      injection Hrest as -> ->.
      cbn [String.length Nat.sub split_go].
      destruct (split_go_cons "___" 0 "" rest) as (piece & pieces & Hsplit).
      pose proof (IH rest "") as Hjoin. rewrite Hsplit in Hjoin |- *.
      change (join "___" (cur :: piece :: pieces))
        with (cur +:+ "___" +:+ join "___" (piece :: pieces)).
      rewrite Hjoin; [done|]. simpl in Hlen. lia.
    + rewrite IH by (simpl in Hlen; lia). by rewrite append_assoc.
Qed.

Lemma join_split s : join "___" (split "___" s) = s.
Proof. unfold split. by rewrite (join_split_go (String.length s)). Qed.

Lemma split_go_several s cur :
  contains "___" s = true → (1 < length (split_go "___" 0 cur s))%nat.
Proof.
  revert cur. induction s as [|c s IH]; intros cur; [done|].
  cbn [contains split_go].
  destruct (startswith "___" (String c s)) eqn:Hsw.
  - intros _.
    destruct (split_go_cons "___" (String.length "___" - 1) "" s)
      as (piece & pieces & ->).
    simpl. lia.
  - rewrite orb_false_l. apply IH.
Qed.

(** *** Keys in and out *)

Section dictionary.
Variable CLASS_ATTRS : string → bool.
Context {P : Type}.
Implicit Types (self : list (string * P)) (parameter : P).

Ltac step_bind := unfold mbind, result_mbind, result_bind; cbn [andb].

Lemma plain_name_spec s :
  plain_name s = true →
  s ≠ "" ∧ first_is "<" s = false
  ∧ contains "." s = false ∧ contains "#" s = false.
Proof.
  unfold plain_name.
  intros [[[Hne Hf]%andb_true_iff Hd]%andb_true_iff Hh]%andb_true_iff.
  apply negb_true_iff in Hne, Hf, Hd, Hh. by apply String.eqb_neq in Hne.
Qed.

Lemma to_internal_key_form (key : Key) k :
  to_internal_key CLASS_ATTRS key = Ok k →
  ∃ s, k = replace "." "#" (if CLASS_ATTRS s then bracket s else s).
Proof.
  unfold to_internal_key. destruct key as [s|t]; step_bind.
  - intros [= <-]. by exists s.
  - destruct (bool_decide (1 < length t)%nat); [|done]. step_bind.
    intros [= <-]. by eexists.
Qed.

Lemma to_external_key_empty : to_external_key CLASS_ATTRS "" = Raise IndexError.
Proof. done. Qed.


(** A stored key, listed and converted again, is the stored key. *)
Lemma listed_key_maps_back (key0 : Key) k :
  attrs_plain CLASS_ATTRS →
  to_internal_key CLASS_ATTRS key0 = Ok k → k ≠ "" →
  ∃ e, to_external_key CLASS_ATTRS k = Ok e
       ∧ to_internal_key CLASS_ATTRS e = Ok k.
Proof.
  intros Hplain [s ->]%to_internal_key_form Hk.
  assert (∀ x, first_is "<" x = true → CLASS_ATTRS x = false) as Hopen.
  { intros x Hx. destruct (CLASS_ATTRS x) eqn:Ha; [|done].
    apply Hplain, plain_name_spec in Ha as (_ & Hf & _). congruence. }
  unfold to_external_key. rewrite replace_replace.
  destruct (CLASS_ATTRS s) eqn:Hs.
  - (* an attribute name, stored in brackets *)
    pose proof (Hplain s Hs) as (Hne & Hf & Hd & Hh)%plain_name_spec.
    rewrite replace_bracket, (replace_id "#" "." s Hh) by done.
    rewrite wrapped_bracket. step_bind. rewrite inner_bracket, Hs.
    rewrite (wrapped_nonempty s Hne), Hf. step_bind. simpl.
    eexists. split; [done|]. unfold to_internal_key. step_bind.
    by rewrite Hs.
  - assert (s ≠ "") as Hne by (by intros ->).
    set (ds := replace "#" "." s).
    assert (ds ≠ "") as Hds by by apply replace_nonempty.
    assert (replace "." "#" ds = replace "." "#" s) as Hback
      by apply replace_replace.
    assert (CLASS_ATTRS ds = false) as Hds_attr.
    { destruct (CLASS_ATTRS ds) eqn:Ha; [|done].
      pose proof (Hplain _ Ha) as (_ & _ & Hd & _)%plain_name_spec.
      apply replace_free in Hd as [Hh Hd].
      unfold ds in Ha. rewrite (replace_id _ _ _ Hh) in Ha. congruence. }
    rewrite (wrapped_nonempty ds Hds). step_bind.
    destruct (first_is "<" ds && last_is ">" ds) eqn:Hw.
    + assert (bracket (inner ds) = ds) as Hbr.
      { apply wrapped_bracket_inner. by rewrite wrapped_nonempty, Hw. }
      cbn [andb]. destruct (CLASS_ATTRS (inner ds)) eqn:Ha.
      * pose proof (Hplain _ Ha) as (Hane & Haf & _)%plain_name_spec.
        rewrite (wrapped_nonempty _ Hane), Haf. step_bind. simpl.
        eexists. split; [done|]. unfold to_internal_key. step_bind.
        by rewrite Ha, Hbr, Hback.
      * rewrite (wrapped_nonempty ds Hds), Hw. step_bind.
        destruct (contains "___" ds) eqn:Hsep.
        -- eexists. split; [done|]. unfold to_internal_key.
           rewrite bool_decide_eq_true_2.
           2:{ apply split_go_several, contains_sep_inner. by rewrite Hbr. }
           step_bind. rewrite join_split, Hbr, Hds_attr. by rewrite Hback.
        -- eexists. split; [done|]. unfold to_internal_key. step_bind.
           by rewrite Hds_attr, Hback.
    + cbn [andb]. rewrite (wrapped_nonempty ds Hds), Hw. step_bind.
      eexists. split; [done|]. unfold to_internal_key. step_bind.
      by rewrite Hds_attr, Hback.
Qed.

(** *** The dictionary underneath *)

Lemma dict_set_store k parameter self :
  dict_set k parameter self = dict_store k parameter self.
Proof.
  induction self as [|[k0 p0] self IH]; simpl; [done|].
  destruct (String.eqb_spec k0 k) as [->|Hne].
  - by rewrite decide_True.
  - by rewrite decide_False, IH.
Qed.

Lemma dict_get_filter k k' self :
  dict_get k' (filter (λ kv, kv.1 ≠ k) self)
  = if decide (k' = k) then None else dict_get k' self.
Proof.
  induction self as [|[k0 p0] self IH]; simpl.
  - by destruct (decide (k' = k)).
  - rewrite filter_cons. simpl. destruct (decide (k0 ≠ k)) as [Hne|Heq].
    + simpl. rewrite IH. destruct (decide (k0 = k')) as [->|]; [|done].
      by rewrite decide_False.
    + apply dec_stable in Heq as ->. rewrite IH.
      destruct (decide (k' = k)) as [->|Hne]; [done|].
      by rewrite decide_False.
Qed.

Lemma init_as_loop (parameters : option (list (Key * P))) :
  __init__ CLASS_ATTRS parameters
  = for_each (λ d kv, setitem CLASS_ATTRS d kv.1 kv.2)
             (default [] parameters) [].
Proof. by destruct parameters as [[|kv parameters]|]. Qed.

Lemma setitem_well_keyed self (key : Key) parameter self' :
  well_keyed CLASS_ATTRS self →
  setitem CLASS_ATTRS self key parameter = Ok self' →
  well_keyed CLASS_ATTRS self'.
Proof.
  intros [Hnd Hall] Hset. unfold setitem in Hset. bind_inv Hset.
  injection Hset as <-. rewrite dict_set_store. split.
  - by apply dict_store_NoDup.
  - rewrite dict_store_keys. destruct (decide (a ∈ self.*1)); [done|].
    apply Forall_app. split; [done|]. apply Forall_singleton. eauto.
Qed.

Lemma setitem_loop_well_keyed (ops : list (Key * P)) self self' :
  well_keyed CLASS_ATTRS self →
  for_each (λ d kv, setitem CLASS_ATTRS d kv.1 kv.2) ops self = Ok self' →
  well_keyed CLASS_ATTRS self'.
Proof.
  revert self. induction ops as [|[key parameter] ops IH]; intros self Hwk.
  - by intros [= <-].
  - simpl. intros Hloop. bind_inv Hloop.
    eapply IH; [|done]. by eapply setitem_well_keyed.
Qed.

Lemma items_elem self its (e : Key) v :
  items CLASS_ATTRS self = Ok its → (e, v) ∈ its →
  ∃ k, (k, v) ∈ self ∧ to_external_key CLASS_ATTRS k = Ok e.
Proof.
  unfold items. intros Hits%traverse_Ok_Forall2 Hin.
  induction Hits as [|[k p] kv self its Hk _ IH]; [by apply elem_of_nil in Hin|].
  simpl in Hk. bind_inv Hk. injection Hk as <-.
  apply elem_of_cons in Hin as [[= -> ->]|Hin].
  - exists k. split; [apply list_elem_of_here | done].
  - destruct (IH Hin) as (k' & Hin' & Hk'). exists k'.
    split; [by apply list_elem_of_further | done].
Qed.

(** *** Assignment, lookup and deletion *)

(** X4.  A parameter assigned under a key is what a lookup under that key
    returns, and the key is contained; lookups under keys with another
    internal form are as before the assignment. *)
Theorem setitem_getitem self (key : Key) parameter self' :
  setitem CLASS_ATTRS self key parameter = Ok self' →
  __getitem__ CLASS_ATTRS self' key = Ok parameter
  ∧ __contains__ CLASS_ATTRS self' key = Ok true
  ∧ ∀ key' : Key,
      to_internal_key CLASS_ATTRS key' ≠ to_internal_key CLASS_ATTRS key →
      __getitem__ CLASS_ATTRS self' key' = __getitem__ CLASS_ATTRS self key'
      ∧ __contains__ CLASS_ATTRS self' key'
        = __contains__ CLASS_ATTRS self key'.
Proof.
  unfold setitem, __getitem__, __contains__. intros Hset. bind_inv Hset.
  injection Hset as <-. rewrite Hstep. step_bind.
  rewrite dict_set_store, dict_get_store, decide_True by done.
  split_and!; [done | by rewrite bool_decide_eq_true_2 |].
  intros key' Hne.
  destruct (to_internal_key CLASS_ATTRS key') as [k'|e]; [|done].
  rewrite dict_get_store, decide_False; [done|]. congruence.
Qed.

(** X5.  Deleting a key succeeds exactly when looking it up does, and fails
    with the error of the lookup; afterwards the key is not contained, a
    lookup under it is a [KeyError], and lookups under keys with another
    internal form are as before. *)
Theorem delitem_getitem self (key : Key) :
  match __delitem__ CLASS_ATTRS self key with
  | Ok self' =>
    (∃ parameter, __getitem__ CLASS_ATTRS self key = Ok parameter)
    ∧ __contains__ CLASS_ATTRS self' key = Ok false
    ∧ __getitem__ CLASS_ATTRS self' key = Raise KeyError
    ∧ ∀ key' : Key,
        to_internal_key CLASS_ATTRS key' ≠ to_internal_key CLASS_ATTRS key →
        __getitem__ CLASS_ATTRS self' key' = __getitem__ CLASS_ATTRS self key'
  | Raise e => __getitem__ CLASS_ATTRS self key = Raise e
  end.
Proof.
  unfold __delitem__, __getitem__, __contains__.
  destruct (to_internal_key CLASS_ATTRS key) as [k|e]; [|done]. step_bind.
  destruct (dict_get k self) as [parameter|] eqn:Hget; [|done].
  rewrite dict_get_filter, decide_True by done.
  split_and!; [by eexists | | done |].
  - rewrite bool_decide_eq_false_2; [done|]. by intros [? ?].
  - intros key' Hne.
    destruct (to_internal_key CLASS_ATTRS key') as [k'|e]; [|done].
    step_bind. rewrite dict_get_filter, decide_False; [done|]. congruence.
Qed.

(** X6.  A key with dots and the same key with ['#'] for every dot name one
    entry: what is assigned under the first is found under the second. *)
Theorem dotted_key_alias self s parameter self' :
  attrs_plain CLASS_ATTRS →
  setitem CLASS_ATTRS self (KStr s) parameter = Ok self' →
  __getitem__ CLASS_ATTRS self' (KStr (replace "." "#" s)) = Ok parameter.
Proof.
  intros Hplain Hset.
  assert (to_internal_key CLASS_ATTRS (KStr (replace "." "#" s))
          = to_internal_key CLASS_ATTRS (KStr s)) as Heq.
  { unfold to_internal_key. step_bind.
    assert (replace "." "#" (replace "." "#" s) = replace "." "#" s) as Hidem.
    { apply replace_id, replace_absent. done. }
    destruct (CLASS_ATTRS s) eqn:Hs.
    - pose proof (Hplain _ Hs) as (_ & _ & Hd & _)%plain_name_spec.
      by rewrite (replace_id "." "#" s Hd), Hs.
    - destruct (CLASS_ATTRS (replace "." "#" s)) eqn:Hr.
      + pose proof (Hplain _ Hr) as (_ & _ & _ & Hh)%plain_name_spec.
        apply replace_free in Hh as [Hd _].
        rewrite (replace_id "." "#" s Hd) in Hr. congruence.
      + by rewrite Hidem. }
  unfold setitem in Hset. bind_inv Hset. injection Hset as <-.
  unfold __getitem__. rewrite Heq, Hstep. step_bind.
  by rewrite dict_set_store, dict_get_store, decide_True.
Qed.

(** *** Listing *)


(** X8.  In a dictionary built by the constructor and assignments, every key
    that [items] lists fetches the value listed with it. *)
Theorem items_fetch (parameters : option (list (Key * P)))
    (ops : list (Key * P)) self0 self its (e : Key) v :
  attrs_plain CLASS_ATTRS →
  __init__ CLASS_ATTRS parameters = Ok self0 →
  for_each (λ d kv, setitem CLASS_ATTRS d kv.1 kv.2) ops self0 = Ok self →
  items CLASS_ATTRS self = Ok its → (e, v) ∈ its →
  __getitem__ CLASS_ATTRS self e = Ok v.
Proof.
  intros Hplain Hinit Hops Hits Hin.
  rewrite init_as_loop in Hinit.
  assert (well_keyed CLASS_ATTRS self) as [Hnd Hall].
  { eapply setitem_loop_well_keyed; [|exact Hops].
    eapply setitem_loop_well_keyed; [|exact Hinit].
    split; [constructor | constructor]. }
  destruct (items_elem self its e v Hits Hin) as (k & Hkv & Hext).
  assert (k ≠ "") as Hk.
  { intros ->. by rewrite to_external_key_empty in Hext. }
  assert (k ∈ self.*1) as Hkin by by apply (list_elem_of_fmap_2 fst) in Hkv.
  destruct (proj1 (Forall_forall _ _) Hall k Hkin) as [key0 Hkey0].
  destruct (listed_key_maps_back key0 k Hplain Hkey0 Hk) as (e' & He' & Hint).
  assert (e' = e) as -> by congruence.
  unfold __getitem__. rewrite Hint. step_bind.
  by rewrite (proj2 (dict_get_elem k v self Hnd) Hkv).
Qed.

Lemma to_internal_key_outcome (key : Key) :
  match to_internal_key CLASS_ATTRS key with
  | Ok k => key_accepted key = true ∧ contains "." k = false
  | Raise e => e = AssertionError ∧ key_accepted key = false
  end.
Proof.
  unfold to_internal_key, key_accepted. destruct key as [s|t]; step_bind.
  - split; [done | by apply replace_absent].
  - destruct (bool_decide (1 < length t)%nat); [|done]. step_bind.
    split; [done | by apply replace_absent].
Qed.

Lemma dict_store_length {V} (k : string) (v : V) (d : list (string * V)) :
  (length (dict_store k v d) ≤ S (length d))%nat.
Proof.
  rewrite <- (length_fmap fst), dict_store_keys.
  destruct (decide (k ∈ d.*1)).
  - rewrite length_fmap. lia.
  - rewrite length_app, length_fmap. simpl. lia.
Qed.

(** X9.  A tuple key of fewer than two components makes the constructor
    raise [AssertionError]; and a dictionary that the constructor builds
    was given no such key, has distinct keys, none with a dot, and no more
    entries than were given. *)
Theorem init_outcome (parameters : option (list (Key * P))) :
  (forallb key_accepted (default [] parameters).*1 = false →
   __init__ CLASS_ATTRS parameters = Raise AssertionError)
  ∧ ∀ self,
      __init__ CLASS_ATTRS parameters = Ok self →
      forallb key_accepted (default [] parameters).*1 = true
      ∧ NoDup self.*1
      ∧ Forall (λ k, contains "." k = false) self.*1
      ∧ (length self ≤ length (default [] parameters))%nat.
Proof.
  rewrite init_as_loop.
  assert (∀ (ops : list (Key * P)) d,
    NoDup d.*1 → Forall (λ k, contains "." k = false) d.*1 →
    match for_each (λ d kv, setitem CLASS_ATTRS d kv.1 kv.2) ops d with
    | Ok self =>
      forallb key_accepted ops.*1 = true
      ∧ NoDup self.*1
      ∧ Forall (λ k, contains "." k = false) self.*1
      ∧ (length self ≤ length d + length ops)%nat
    | Raise e => e = AssertionError ∧ forallb key_accepted ops.*1 = false
    end) as Hloop.
  { induction ops as [|[key p] ops IH]; intros d Hnd Hdots; csimpl.
    - split_and!; [done..|lia].
    - unfold setitem at 2.
      pose proof (to_internal_key_outcome key) as Hkey.
      destruct (to_internal_key CLASS_ATTRS key) as [k|e]; step_bind.
      2:{ destruct Hkey as [-> ->]. done. }
      destruct Hkey as [-> Hk]. rewrite dict_set_store. cbn [andb].
      pose proof (dict_store_length k p d) as Hlen.
      specialize (IH (dict_store k p d) (dict_store_NoDup k p d Hnd)).
      destruct (for_each _ ops _) as [self|e].
      + destruct IH as (Hacc & Hnd' & Hdots' & Hlen'); [|split_and!; [done..|lia]].
        rewrite dict_store_keys. destruct (decide (k ∈ d.*1)); [done|].
        apply Forall_app. split; [done|]. by apply Forall_singleton.
      + apply IH.
        rewrite dict_store_keys. destruct (decide (k ∈ d.*1)); [done|].
        apply Forall_app. split; [done|]. by apply Forall_singleton. }
  specialize (Hloop (default [] parameters) []
                     ltac:(constructor) ltac:(constructor)).
  destruct (for_each _ _ _) as [built|e].
  - destruct Hloop as (Hacc & Hnd & Hdots & Hlen). split.
    + intros Hbad. congruence.
    + intros self [= <-]. split_and!; [done..|]. simpl in Hlen. lia.
  - destruct Hloop as [-> Hbad]. split; [done|]. by intros self.
Qed.

End dictionary.

End parameter_dict_more.

(** ** [HeteroConv]: keywords, skipped convolutions and unused node types *)

Section hetero_conv_more.
Import hetero_conv hetero.
Context {T V : Type} `{Paddle T}.
Implicit Types (edge_type : EdgeType) (dst : NodeType).
Implicit Types convs : list (EdgeType * MessagePassing T V).
Implicit Types args_dict : list (gmap (NodeType + EdgeType) V).
Implicit Types kwargs_dict : list (string * gmap (NodeType + EdgeType) V).
Implicit Types out_dict : list (NodeType * list T).
Implicit Types item : EdgeType * MessagePassing T V.

(** *** The keyword loop *)

Lemma kwargs_step_outcome edge_type (st : bool * gmap string (Arg V))
    (kv : string * gmap (NodeType + EdgeType) V) :
  if endswith kv.1 "_dict"
  then ∃ st', kwargs_step edge_type st kv = Ok st'
  else kwargs_step edge_type st kv = Raise ValueError.
Proof.
  destruct edge_type as [[src rel] dst], st as [has kw], kv as [arg d].
  simpl. destruct (endswith arg "_dict"); simpl; [|done].
  destruct (d !! inr (src, rel, dst)); [by eexists|].
  destruct (String.eqb src dst), (d !! inl src); try by eexists.
  all: destruct (_ || _); by eexists.
Qed.

Lemma kwargs_loop_bad edge_type (st : bool * gmap string (Arg V)) kwargs_dict :
  existsb (λ kv, negb (endswith kv.1 "_dict")) kwargs_dict = true →
  for_each (kwargs_step edge_type) kwargs_dict st = Raise ValueError.
Proof.
  revert st. induction kwargs_dict as [|kv kwargs_dict IH]; intros st; [done|].
  simpl. pose proof (kwargs_step_outcome edge_type st kv) as Hstep.
  destruct (endswith kv.1 "_dict"); simpl.
  - destruct Hstep as [st' ->]. apply IH.
  - intros _. by rewrite Hstep.
Qed.

Lemma kwargs_loop_good edge_type (st : bool * gmap string (Arg V)) kwargs_dict :
  forallb (λ kv, endswith kv.1 "_dict") kwargs_dict = true →
  ∃ st', for_each (kwargs_step edge_type) kwargs_dict st = Ok st'.
Proof.
  revert st. induction kwargs_dict as [|kv kwargs_dict IH]; intros st;
    [by eexists|].
  simpl. pose proof (kwargs_step_outcome edge_type st kv) as Hstep.
  destruct (endswith kv.1 "_dict"); simpl; [|done].
  destruct Hstep as [st' ->]. apply IH.
Qed.

(** X10.  A keyword that does not end in ["_dict"] makes [forward] raise
    [ValueError] as soon as one edge type is registered, whatever else is
    passed; a layer without edge types returns the empty dictionary and never
    looks at the keywords. *)
Theorem forward_keyword_check (self : HeteroConv T V) args_dict kwargs_dict :
  existsb (λ kv, negb (endswith kv.1 "_dict")) kwargs_dict = true →
  forward self args_dict kwargs_dict
  = match convs self with
    | [] => Ok []
    | _ :: _ => Raise ValueError
    end.
Proof.
  intros Hbad. unfold forward. destruct (convs self) as [|[edge_type conv] cs];
    [done|].
  simpl. unfold forward_step at 1.
  destruct (foldl (args_step edge_type) (false, []) args_dict) as [has args].
  by rewrite kwargs_loop_bad.
Qed.

(** *** Skipped convolutions *)

Lemma forward_step_skip args_dict kwargs_dict out_dict item :
  forallb (λ kv, endswith kv.1 "_dict") kwargs_dict = true →
  edge_level item.1 args_dict kwargs_dict = false →
  forward_step args_dict kwargs_dict out_dict item = Ok out_dict.
Proof.
  intros Hgood Hlevel. destruct item as [edge_type conv].
  unfold forward_step, edge_level in *. simpl in *.
  pose proof (args_loop_flag edge_type (false, []) args_dict) as Hargs.
  destruct (foldl (args_step edge_type) (false, []) args_dict)
    as [has args] eqn:Hfold. simpl in *.
  destruct (kwargs_loop_good edge_type (has, ∅) kwargs_dict Hgood)
    as [[has' kwargs] Hloop].
  rewrite Hloop. simpl.
  apply kwargs_loop_flag in Hloop. simpl in Hloop.
  rewrite Hargs, Hlevel in Hloop. by subst has'.
Qed.

(** X11.  When no registered edge type is a key of any dictionary passed, no
    convolution runs: [forward] returns the empty dictionary, node-level
    inputs notwithstanding. *)
Theorem forward_without_edge_level (self : HeteroConv T V)
    args_dict kwargs_dict :
  forallb (λ kv, endswith kv.1 "_dict") kwargs_dict = true →
  forallb (λ item, negb (edge_level item.1 args_dict kwargs_dict))
          (convs self) = true →
  forward self args_dict kwargs_dict = Ok [].
Proof.
  intros Hgood Hnone. unfold forward.
  assert (for_each (forward_step args_dict kwargs_dict) (convs self) []
          = Ok []) as ->; [|done].
  induction (convs self) as [|item cs IH]; [done|].
  simpl in Hnone. apply andb_true_iff in Hnone as [Hitem Hcs].
  apply negb_true_iff in Hitem. simpl.
  rewrite forward_step_skip by done. simpl. by apply IH.
Qed.

(** *** The keys of the output *)

Lemma forward_loop_keys args_dict kwargs_dict (self : HeteroConv T V) out :
  forward self args_dict kwargs_dict = Ok out →
  ∃ out_dict,
    for_each (forward_step args_dict kwargs_dict) (convs self) [] = Ok out_dict
    ∧ out_dict_wf out_dict
    ∧ out.*1 = out_dict.*1
    ∧ ∀ dst, ∃ outs,
        Forall2 (λ item o, conv_output args_dict kwargs_dict item = Ok o)
                (targeting dst args_dict kwargs_dict (convs self)) outs
        ∧ collected dst out_dict = outs.
Proof.
  unfold forward. intros Hfwd. bind_inv Hfwd. rename a into od.
  assert (out_dict_wf ([] : list (NodeType * list T))) as Hwf0.
  { split; [apply NoDup_nil_2 | constructor]. }
  destruct (forward_loop_Ok _ _ _ _ _ Hstep Hwf0) as [Hwf Hcol].
  destruct (group_loop_Ok _ _ _ _ Hfwd) as (grouped & -> & Hall).
  exists od. split_and!; [done..| |done].
  rewrite app_nil_l. clear -Hall.
  induction Hall as [|kv kg ?? [Hk _] _ IH]; simpl; by f_equal.
Qed.

Lemma forward_keys args_dict kwargs_dict (self : HeteroConv T V) out dst :
  forward self args_dict kwargs_dict = Ok out →
  dst ∈ out.*1 ↔
    ∃ item, item ∈ convs self ∧ key_last item.1 = dst
            ∧ edge_level item.1 args_dict kwargs_dict = true.
Proof.
  intros (od & _ & Hwf & -> & Hcol)%forward_loop_keys.
  destruct (Hcol dst) as (outs & Houts & Hc).
  rewrite (collected_nonempty _ _ Hwf), Hc. split.
  - intros Hne. destruct outs as [|o outs]; [done|].
    inversion Houts as [|item ? rest ? _ _ Heq]; subst.
    assert (item ∈ targeting dst args_dict kwargs_dict (convs self)) as Hin.
    { rewrite <- Heq. apply list_elem_of_here. }
    apply list_elem_of_filter in Hin as [[Hd Hl] Hin]. eauto.
  - intros (item & Hin & Hd & Hl) ->.
    apply Forall2_nil_inv_r in Houts.
    assert (item ∈ targeting dst args_dict kwargs_dict (convs self)) as Hin'.
    { apply list_elem_of_filter. eauto. }
    rewrite Houts in Hin'. by apply elem_of_nil in Hin'.
Qed.

(** X12.  When every registered edge type receives an edge-level argument, the
    node types that [get_unused_node_types] reports for the registered edge
    types are exactly the given node types that have no entry in the
    dictionary [forward] returns. *)
Theorem unused_node_types_missing (self : HeteroConv T V)
    args_dict kwargs_dict out (node_types : list NodeType) s :
  forward self args_dict kwargs_dict = Ok out →
  forallb (λ item, edge_level item.1 args_dict kwargs_dict) (convs self)
  = true →
  s ∈ get_unused_node_types node_types (convs self).*1
  ↔ s ∈ node_types ∧ s ∉ out.*1.
Proof.
  intros Hfwd Hall. unfold get_unused_node_types.
  rewrite elem_of_difference, !elem_of_list_to_set.
  rewrite (forward_keys _ _ _ _ s Hfwd).
  apply and_iff_compat_l, not_iff_compat. split.
  - intros (edge_type & -> & (item & -> & Hin)%list_elem_of_fmap)%list_elem_of_fmap.
    exists item. split_and!; [done..|].
    rewrite forallb_forall in Hall. by apply Hall, list_elem_of_In.
  - intros (item & Hin & <- & _).
    apply list_elem_of_fmap. exists item.1. split; [done|].
    by apply list_elem_of_fmap_2.
Qed.

(** X13.  The warning of the constructor is accurate. It is issued exactly
    when [get_unused_node_types] finds a source type that is no destination
    type; when it is issued, some source type has no entry in whatever
    [forward] returns; when it is not, and every registered edge type receives
    an edge-level argument, every node type of every registered edge type has
    an entry. *)
Theorem init_warning_accurate convs aggr (self : HeteroConv T V)
    (warned : bool) args_dict kwargs_dict out :
  init convs aggr = Ok (self, warned) →
  forward self args_dict kwargs_dict = Ok out →
  (warned = true
   ↔ get_unused_node_types ((λ kv, key_first kv.1) <$> convs) convs.*1 ≠ ∅)
  ∧ (warned = true → ∃ item, item ∈ convs ∧ key_first item.1 ∉ out.*1)
  ∧ (warned = false →
     forallb (λ item, edge_level item.1 args_dict kwargs_dict) convs = true →
     ∀ item, item ∈ convs →
             key_first item.1 ∈ out.*1 ∧ key_last item.1 ∈ out.*1).
Proof.
  unfold init. intros Hinit Hfwd. bind_inv Hinit. injection Hinit as <- <-.
  simpl in *.
  set (src := (λ kv : EdgeType * MessagePassing T V, key_first kv.1) <$> convs).
  set (dsts := (λ kv : EdgeType * MessagePassing T V, key_last kv.1) <$> convs).
  set (unused := filter (λ s, s ∉ dsts) src).
  assert (∀ s, s ∈ unused ↔ s ∈ get_unused_node_types src convs.*1) as Hun.
  { intros s. unfold unused, get_unused_node_types.
    rewrite list_elem_of_filter, elem_of_difference, !elem_of_list_to_set.
    unfold dsts. rewrite <- list_fmap_compose. tauto. }
  assert ((0 <? length unused) = true ↔ ∃ s, s ∈ unused) as Hpos.
  { rewrite Nat.ltb_lt. destruct unused as [|s l]; simpl.
    - split; [lia | by intros [? ?%elem_of_nil]].
    - split; [|lia]. intros _. exists s. apply list_elem_of_here. }
  assert (∀ item, item ∈ convs → key_last item.1 ∈ dsts) as Hdst.
  { intros item Hin. unfold dsts. apply list_elem_of_fmap. eauto. }
  split_and!.
  - rewrite Hpos. split.
    + intros [s Hs%Hun] Hempty. rewrite Hempty in Hs. set_solver.
    + intros [s Hs%Hun]%set_choose_L. eauto.
  - intros [s [Hnot Hs]%list_elem_of_filter]%Hpos.
    apply list_elem_of_fmap in Hs as (item & -> & Hin).
    exists item. split; [done|].
    rewrite (forward_keys _ _ _ _ _ Hfwd). simpl.
    intros (item' & Hin' & Heq & _). apply Hnot. rewrite <- Heq.
    by apply Hdst.
  - intros Hwarn Hall item Hin.
    rewrite forallb_forall in Hall.
    assert (∀ it, it ∈ convs → key_last it.1 ∈ out.*1) as Hlast.
    { intros it Hit. rewrite (forward_keys _ _ _ _ _ Hfwd). simpl.
      exists it. split_and!; [done..|]. by apply Hall, list_elem_of_In. }
    split; [|by apply Hlast].
    destruct (decide (key_first item.1 ∈ dsts)) as [Hd|Hd].
    + apply list_elem_of_fmap in Hd as (it & -> & Hit). by apply Hlast.
    + assert (key_first item.1 ∈ unused) as Hu.
      { apply list_elem_of_filter. split; [done|].
        unfold src. apply list_elem_of_fmap. eauto. }
      assert ((0 <? length unused) = true) as Hp by (apply Hpos; eauto).
      congruence.
Qed.

(** *** One output per destination *)

Lemma filter_fmap_NoDup_length {A B} `{EqDecision B} (f : A → B) (l : list A) b :
  NoDup (f <$> l) → length (filter (λ x, f x = b) l) ≤ 1.
Proof.
  induction l as [|x l IH]; csimpl; [lia|].
  intros [Hx Hnd]%NoDup_cons. rewrite filter_cons.
  destruct (decide (f x = b)) as [<-|]; [|by apply IH].
  rewrite filter_none; [simpl; lia|].
  apply Forall_forall. intros y Hy Heq. apply Hx. rewrite <- Heq.
  by apply list_elem_of_fmap_2.
Qed.

Lemma group_one_output (xs : list T) a b :
  length xs = 1 → group xs (Some a) = group xs (Some b).
Proof. by destruct xs as [|x [|y xs]]. Qed.

(** X14.  When no two of the convolutions that run share a destination, the
    name of the aggregation is never consulted: [forward] gives the same
    result under any two names, known to the framework or not. *)
Theorem aggr_unused_for_single_outputs convs (a b : string)
    args_dict kwargs_dict :
  NoDup ((λ item, key_last item.1)
           <$> filter (λ item, edge_level item.1 args_dict kwargs_dict = true)
                      convs) →
  forward ({| convs := convs; aggr := Some a |} : HeteroConv T V)
          args_dict kwargs_dict
  = forward {| convs := convs; aggr := Some b |} args_dict kwargs_dict.
Proof.
  intros Hnd. unfold forward. simpl.
  destruct (for_each (forward_step args_dict kwargs_dict) convs [])
    as [od|e] eqn:Hloop; [|done]. simpl.
  assert (out_dict_wf ([] : list (NodeType * list T))) as Hwf0.
  { split; [apply NoDup_nil_2 | constructor]. }
  destruct (forward_loop_Ok _ _ _ _ _ Hloop Hwf0) as [[Hnd' Hne] Hcol].
  assert (Forall (λ kv, length kv.2 = 1) od) as Hone.
  { apply Forall_forall. intros [k xs] Hin. simpl.
    destruct (Hcol k) as (outs & Houts & Hc). simpl in Hc.
    rewrite (collected_lookup _ _ _ Hnd' Hin) in Hc. subst xs.
    pose proof (proj1 (Forall_forall _ _) Hne _ Hin) as Hnonempty.
    simpl in Hnonempty.
    apply Forall2_length in Houts.
    assert (length (targeting k args_dict kwargs_dict convs) ≤ 1) as Hle.
    { unfold targeting.
      rewrite <- (list_filter_filter
                    (λ item : EdgeType * MessagePassing T V, key_last item.1 = k)
                    (λ item, edge_level item.1 args_dict kwargs_dict = true)).
      by apply filter_fmap_NoDup_length. }
    destruct outs; [done | simpl in *; lia]. }
  clear -Hone. generalize ([] : list (NodeType * option T)).
  induction Hone as [|kv od Hkv _ IH]; intros acc; [done|].
  simpl. unfold group_step at 2 4.
  rewrite (group_one_output kv.2 a b Hkv).
  destruct (group kv.2 (Some b)); simpl; [apply IH | done].
Qed.

End hetero_conv_more.

(** ** [group_hetero_graph] *)

Section group_hetero.
Import hetero.
Implicit Types nodes : list (NodeType * nat).
Implicit Types eid : list (EdgeType * list (nat * nat)).

(** *** Positions in a concatenation *)

Lemma concat_lookup_at {A} (xs : list (list A)) i x p :
  xs !! i = Some x → p < length x →
  concat xs !! (length (concat (take i xs)) + p) = x !! p.
Proof.
  revert i. induction xs as [|y xs IH]; intros [|i]; simpl; try done.
  - intros [= ->] Hp. by rewrite lookup_app_l.
  - intros Hx Hp. rewrite length_app, <- Nat.add_assoc.
    rewrite lookup_app_r by lia.
    replace (length y + _ - length y) with (length (concat (take i xs)) + p)
      by lia.
    by apply IH.
Qed.

Lemma concat_lookup_inv {A} (xs : list (list A)) q a :
  concat xs !! q = Some a →
  ∃ i x p, xs !! i = Some x ∧ x !! p = Some a
           ∧ q = length (concat (take i xs)) + p.
Proof.
  revert q. induction xs as [|y xs IH]; intros q; simpl; [done|].
  intros Hq. destruct (decide (q < length y)) as [Hlt|Hge].
  - rewrite lookup_app_l in Hq by done. exists 0, y, q. done.
  - rewrite lookup_app_r in Hq by lia.
    destruct (IH _ Hq) as (i & x & p & Hx & Hp & Heq).
    exists (S i), x, p. split_and!; [done..|].
    simpl. rewrite length_app. lia.
Qed.

Lemma concat_length_sum {A} (xs : list (list A)) :
  length (concat xs) = sum_list (length <$> xs).
Proof.
  induction xs as [|x xs IH]; simpl; [done|]. by rewrite length_app, IH.
Qed.

(** *** Enumerating *)

Lemma enumerate_snoc {A} (xs : list A) x :
  enumerate (xs ++ [x]) = enumerate xs ++ [(length xs, x)].
Proof.
  unfold enumerate. rewrite length_app. simpl.
  rewrite Nat.add_1_r, seq_S. simpl.
  rewrite zip_with_app by by rewrite length_seq. done.
Qed.

(** *** The loop over the node types *)

Lemma node_loop_offset_dom (items : list (nat * (NodeType * nat))) st key :
  is_Some (offset (foldl node_step st items) !! key)
  ↔ is_Some (offset st !! key) ∨ key ∈ (items.*2).*1.
Proof.
  revert st. induction items as [|[i [k N]] items IH]; intros st; csimpl.
  - rewrite elem_of_nil. tauto.
  - rewrite IH. simpl. rewrite elem_of_cons.
    destruct (decide (k = key)) as [->|Hne].
    + rewrite lookup_insert_eq. split; [eauto | intros _; left; eauto].
    + rewrite lookup_insert_ne by done. intuition congruence.
Qed.

Lemma enumerate_keys {K A} (xs : list (K * A)) :
  ((enumerate xs).*2).*1 = xs.*1.
Proof. unfold enumerate. rewrite snd_zip; [done|]. by rewrite length_seq. Qed.

Lemma node_loop_closed nodes :
  NoDup nodes.*1 →
  let st := foldl node_step node_state_init (enumerate nodes) in
  node_types st = imap (λ i kN, replicate kN.2 i) nodes
  ∧ local_node_indices st = (λ kN, seq 0 kN.2) <$> nodes
  ∧ cumsum st = sum_list nodes.*2
  ∧ (∀ i, length nodes ≤ i → local2global st !! inr i = None)
  ∧ (∀ key, key ∉ nodes.*1 → local2global st !! inl key = None
                              ∧ offset st !! key = None
                              ∧ key2int st !! inl key = None)
  ∧ ∀ i key N, nodes !! i = Some (key, N) →
      offset st !! key = Some (sum_list (take i nodes).*2)
      ∧ key2int st !! inl key = Some i
      ∧ local2global st !! inl key
        = Some ((λ x, x + sum_list (take i nodes).*2) <$> seq 0 N)
      ∧ local2global st !! inr i = local2global st !! inl key.
Proof.
  induction nodes as [|[key N] nodes IH] using rev_ind; intros Hnd st.
  - subst st. simpl. split_and!; try done.
  - subst st. rewrite enumerate_snoc, foldl_app. simpl.
    rewrite fmap_app in Hnd. apply NoDup_app in Hnd as (Hnd & Hdisj & _).
    assert (key ∉ nodes.*1) as Hfresh.
    { intros Hin. apply (Hdisj _ Hin). simpl. apply list_elem_of_here. }
    destruct (IH Hnd) as (Hnt & Hlni & Hcum & Hinr & Hout & Hin).
    set (st := foldl node_step node_state_init (enumerate nodes)) in *.
    simpl. split_and!.
    + rewrite Hnt, imap_app. simpl. by rewrite Nat.add_0_r.
    + by rewrite Hlni, fmap_app.
    + rewrite Hcum, !fmap_app, sum_list_with_app. simpl. lia.
    + intros i Hi. rewrite length_app in Hi. simpl in Hi.
      rewrite lookup_insert_ne by (intros [= Heq]; lia).
      rewrite lookup_insert_ne by done. apply Hinr. lia.
    + intros k Hk. rewrite fmap_app in Hk. simpl in Hk.
      apply not_elem_of_app in Hk as [Hk Hne].
      apply not_elem_of_cons in Hne as [Hne _].
      destruct (Hout k Hk) as (H1 & H2 & H3).
      rewrite lookup_insert_ne by done.
      rewrite !lookup_insert_ne by congruence. done.
    + intros i k M Hlook.
      destruct (decide (i < length nodes)) as [Hlt|Hge].
      * rewrite lookup_app_l in Hlook by done.
        destruct (Hin _ _ _ Hlook) as (Hoff & Hk2i & Hl2g & Halias).
        assert (k ≠ key) as Hne.
        { intros ->. apply Hfresh. apply list_elem_of_fmap.
          exists (key, M). split; [done|]. by eapply list_elem_of_lookup_2. }
        rewrite take_app_le by lia.
        rewrite !lookup_insert_ne by congruence.
        rewrite (lookup_insert_ne _ (inr (length nodes)) (inr i))
          by (intros [= Heq]; lia).
        rewrite !lookup_insert_ne by congruence. done.
      * rewrite lookup_app_r in Hlook by lia.
        destruct (i - length nodes) as [|n] eqn:Hi; [|done].
        injection Hlook as <- <-.
        assert (i = length nodes) as -> by lia.
        rewrite take_app_length.
        rewrite !lookup_insert_eq.
        rewrite lookup_insert_ne by done. rewrite lookup_insert_eq.
        by rewrite Hcum.
Qed.

Lemma node_loop_lengths (items : list (nat * (NodeType * nat))) st :
  length (node_types (foldl node_step st items))
  = length (node_types st) + length items
  ∧ length (local_node_indices (foldl node_step st items))
    = length (local_node_indices st) + length items.
Proof.
  revert st. induction items as [|[i [k N]] items IH]; intros st;
    [simpl; lia|].
  cbn [foldl]. destruct (IH (node_step st (i, (k, N)))) as [-> ->].
  simpl. rewrite !length_app. simpl. lia.
Qed.

Lemma length_enumerate {A} (xs : list A) : length (enumerate xs) = length xs.
Proof.
  unfold enumerate. rewrite length_zip_with, length_seq. lia.
Qed.

Lemma imap_replicate_length nodes (f : nat → nat) :
  length (concat (imap (λ i kN, replicate kN.2 (f i)) nodes))
  = sum_list nodes.*2.
Proof.
  revert f. induction nodes as [|[k N] nodes IH]; intros f; [done|].
  rewrite imap_cons. simpl. rewrite length_app, length_replicate.
  f_equal. apply (IH (f ∘ S)).
Qed.

Lemma fmap_seq_length nodes :
  length (concat ((λ kN : NodeType * nat, seq 0 kN.2) <$> nodes))
  = sum_list nodes.*2.
Proof.
  induction nodes as [|[k N] nodes IH]; [done|].
  csimpl. by rewrite length_app, length_seq, IH.
Qed.

Lemma take_imap {A B} (f : nat → A → B) (l : list A) n :
  take n (imap f l) = imap f (take n l).
Proof.
  revert f n. induction l as [|x l IH]; intros f [|n]; simpl; [done..|].
  by rewrite IH.
Qed.

(** *** The loop over the edge types *)

Lemma edge_loop_closed (off : gmap NodeType nat) a eid k0 eis0 ets0 k eis ets :
  for_each (edge_step off) (zip (seq a (length eid)) eid) (k0, eis0, ets0)
  = Ok (k, eis, ets) →
  ∃ shifted,
    eis = eis0 ++ shifted
    ∧ ets = ets0 ++ imap (λ t item, replicate (length item.2) (a + t)) eid
    ∧ Forall2 (λ item ei',
                 ∃ o0 o1, off !! key_first item.1 = Some o0
                          ∧ off !! key_last item.1 = Some o1
                          ∧ ei' = (λ c, (c.1 + o0, c.2 + o1)) <$> item.2)
              eid shifted
    ∧ (∀ key, k !! inl key = k0 !! inl key)
    ∧ (∀ keys, keys ∉ eid.*1 → k !! inr keys = k0 !! inr keys)
    ∧ (NoDup eid.*1 →
       ∀ t keys ei, eid !! t = Some (keys, ei) → k !! inr keys = Some (a + t)).
Proof.
  revert a k0 eis0 ets0.
  induction eid as [|[keys0 ei0] eid IH]; intros a k0 eis0 ets0; simpl.
  - intros [= <- <- <-]. exists []. rewrite !app_nil_r.
    split_and!; [done | done | constructor | done | done | done].
  - intros Hloop. bind_inv Hloop. unfold edge_step in Hstep.
    bind_inv Hstep. rename a1 into o0. bind_inv Hstep. rename a1 into o1.
    injection Hstep as <-.
    apply IH in Hloop as (shifted & -> & -> & Hall & Hinl & Hout & Hin).
    unfold getitem in Hstep0, Hstep1.
    destruct (off !! key_first keys0) as [o0'|] eqn:Ho0; [|done].
    destruct (off !! key_last keys0) as [o1'|] eqn:Ho1; [|done].
    injection Hstep0 as ->. injection Hstep1 as ->.
    eexists (_ :: shifted). split_and!.
    + by rewrite <- app_assoc.
    + rewrite <- app_assoc. simpl. rewrite Nat.add_0_r. do 2 f_equal.
      apply imap_ext. intros t item _. simpl. f_equal. lia.
    + constructor; [|done]. exists o0, o1. done.
    + intros key. by rewrite Hinl, lookup_insert_ne.
    + intros keys [Hne Hnotin]%not_elem_of_cons.
      rewrite Hout by done. by rewrite lookup_insert_ne by congruence.
    + intros [Hfresh Hnd]%NoDup_cons [|t] keys ei; simpl.
      * intros [= <- <-]. rewrite Hout by done.
        by rewrite lookup_insert_eq, Nat.add_0_r.
      * intros Ht. rewrite (Hin Hnd _ _ _ Ht). f_equal. lia.
Qed.

Lemma edge_loop_outcome (off : gmap NodeType nat)
    (items : list (nat * (EdgeType * list (nat * nat)))) st :
  match for_each (edge_step off) items st with
  | Ok _ =>
    Forall (λ keys, is_Some (off !! key_first keys)
                    ∧ is_Some (off !! key_last keys)) (items.*2).*1
  | Raise e =>
    e = KeyError
    ∧ ¬ Forall (λ keys, is_Some (off !! key_first keys)
                        ∧ is_Some (off !! key_last keys)) (items.*2).*1
  end.
Proof.
  revert st. induction items as [|[i [keys ei]] items IH]; intros st; csimpl.
  - constructor.
  - destruct st as [[k eis] ets]. unfold edge_step at 2. unfold getitem.
    destruct (off !! key_first keys) as [o0|] eqn:Ho0; simpl.
    2:{ split; [done|]. intros [[[? ?] _] _]%Forall_cons. congruence. }
    destruct (off !! key_last keys) as [o1|] eqn:Ho1; simpl.
    2:{ split; [done|]. intros [[_ [? ?]] _]%Forall_cons. congruence. }
    specialize (IH (<[inr keys := i]> k,
                    eis ++ [(λ c, (c.1 + o0, c.2 + o1)) <$> ei],
                    ets ++ [replicate (length ei) i])).
    destruct (for_each _ items _) as [st'|e].
    + constructor; [|done]. rewrite Ho0, Ho1. eauto.
    + destruct IH as [-> Hnot]. split; [done|].
      by intros [_ ?]%Forall_cons.
Qed.

(** *** The function *)

Section run.
Variable maybe_num_nodes_dict :
  list (EdgeType * list (nat * nat)) → option (list (NodeType * nat))
  → result (list (NodeType * nat)).

Lemma concat_vectors_Ok {A} (xs : list (list A)) r :
  concat_vectors xs = Ok r ↔ xs ≠ [] ∧ r = concat xs.
Proof.
  destruct xs as [|x xs]; simpl.
  - split; [done | by intros [? _]].
  - split; [by intros [= <-] | by intros [_ ->]].
Qed.

Lemma group_hetero_graph_run eid num_nodes_dict nodes
    edge_index edge_type node_type local_node_idx l2g k2i :
  maybe_num_nodes_dict eid num_nodes_dict = Ok nodes →
  group_hetero_graph maybe_num_nodes_dict eid num_nodes_dict
  = Ok (edge_index, edge_type, node_type, local_node_idx, l2g, k2i) →
  let st := foldl node_step node_state_init (enumerate nodes) in
  node_type = concat (node_types st)
  ∧ local_node_idx = concat (local_node_indices st)
  ∧ l2g = local2global st
  ∧ ∃ eis ets,
      for_each (edge_step (offset st)) (enumerate eid) (key2int st, [], [])
      = Ok (k2i, eis, ets)
      ∧ edge_index = concat eis ∧ edge_type = concat ets.
Proof.
  intros Hmaybe. unfold group_hetero_graph. rewrite Hmaybe. simpl.
  intros Hrun. bind_inv Hrun. bind_inv Hrun. bind_inv Hrun. bind_inv Hrun.
  destruct a2 as [[k eis] ets]. bind_inv Hrun. bind_inv Hrun.
  injection Hrun as <- <- <- <- <- <-.
  apply concat_vectors_Ok in Hstep0 as [_ ->], Hstep1 as [_ ->].
  apply concat_vectors_Ok in Hstep3 as [_ ->], Hstep4 as [_ ->].
  split_and!; [done..|]. by exists eis, ets.
Qed.

(** X15.  The global indices are a numbering of the nodes: [node_type] and
    [local_node_idx] have one entry for every node of every type, and the
    global index [g] carries type number [i] and local index [j] exactly when
    [local2global] of the [i]-th node type sends [j] to [g]; the type number
    is what [key2int] gives the type, and [local2global] holds the same tensor
    under the type and under its number. *)
Theorem global_node_index eid num_nodes_dict nodes
    edge_index edge_type node_type local_node_idx l2g k2i :
  maybe_num_nodes_dict eid num_nodes_dict = Ok nodes →
  NoDup nodes.*1 →
  group_hetero_graph maybe_num_nodes_dict eid num_nodes_dict
  = Ok (edge_index, edge_type, node_type, local_node_idx, l2g, k2i) →
  length node_type = sum_list nodes.*2
  ∧ length local_node_idx = sum_list nodes.*2
  ∧ (∀ i key N, nodes !! i = Some (key, N) →
       k2i !! inl key = Some i ∧ l2g !! inr i = l2g !! inl key)
  ∧ ∀ g i j,
      node_type !! g = Some i ∧ local_node_idx !! g = Some j
      ↔ ∃ key N, nodes !! i = Some (key, N) ∧ j < N
                 ∧ global_index l2g (inl key) j = Some g.
Proof.
  intros Hmaybe Hnd Hrun.
  destruct (group_hetero_graph_run _ _ _ _ _ _ _ _ _ Hmaybe Hrun)
    as (-> & -> & -> & eis & ets & Hloop & _ & _).
  destruct (node_loop_closed nodes Hnd) as (Hnt & Hlni & _ & _ & _ & Hin).
  set (st := foldl node_step node_state_init (enumerate nodes)) in *.
  unfold enumerate in Hloop.
  apply edge_loop_closed in Hloop as (_ & _ & _ & _ & Hinl & _ & _).
  rewrite Hnt, Hlni.
  assert (∀ i, length (concat (take i (imap (λ i kN, replicate kN.2 i) nodes)))
               = sum_list (take i nodes).*2) as Hpre1.
  { intros i. rewrite take_imap. apply (imap_replicate_length _ id). }
  assert (∀ i, length (concat (take i ((λ kN : NodeType * nat, seq 0 kN.2)
                                         <$> nodes)))
               = sum_list (take i nodes).*2) as Hpre2.
  { intros i. rewrite <- fmap_take. apply fmap_seq_length. }
  split_and!.
  - apply (imap_replicate_length _ id).
  - apply fmap_seq_length.
  - intros i key N Hi. destruct (Hin _ _ _ Hi) as (_ & Hk & _ & Halias).
    by rewrite Hinl.
  - intros g i j. split.
    + intros [Hg1 Hg2].
      apply concat_lookup_inv in Hg1 as (i' & x & p & Hx & Hp & ->).
      apply list_lookup_imap_Some in Hx as ([key N] & Hnode & ->).
      simpl in Hp. apply lookup_replicate in Hp as [<- Hp].
      rewrite Hpre1, <- Hpre2 in Hg2.
      rewrite (concat_lookup_at _ i (seq 0 N)) in Hg2.
      2:{ by rewrite list_lookup_fmap, Hnode. }
      2:{ by rewrite length_seq. }
      apply lookup_seq in Hg2 as [-> _]. simpl.
      exists key, N. split_and!; [done..|].
      destruct (Hin _ _ _ Hnode) as (_ & _ & Hl2g & _).
      unfold global_index. rewrite Hl2g. simpl.
      rewrite list_lookup_fmap, lookup_seq_lt by done. simpl.
      f_equal. rewrite Hpre1. lia.
    + intros (key & N & Hnode & Hj & Hglobal).
      destruct (Hin _ _ _ Hnode) as (_ & _ & Hl2g & _).
      unfold global_index in Hglobal. rewrite Hl2g in Hglobal.
      simpl in Hglobal.
      rewrite list_lookup_fmap, lookup_seq_lt in Hglobal by done.
      injection Hglobal as <-. rewrite Nat.add_comm. simpl. split.
      * rewrite <- Hpre1.
        rewrite (concat_lookup_at _ i (replicate N i)).
        -- by apply lookup_replicate.
        -- by rewrite list_lookup_imap, Hnode.
        -- by rewrite length_replicate.
      * rewrite <- Hpre2.
        rewrite (concat_lookup_at _ i (seq 0 N)).
        -- by apply lookup_seq_lt.
        -- by rewrite list_lookup_fmap, Hnode.
        -- by rewrite length_seq.
Qed.

Lemma concat_aligned {A B} (xs : list (list A)) (ys : list (list B)) :
  Forall2 (λ x y, length x = length y) xs ys →
  ∀ i, length (concat (take i xs)) = length (concat (take i ys)).
Proof.
  induction 1 as [|x y xs ys Hxy _ IH]; intros [|i]; simpl; [done..|].
  by rewrite !length_app, Hxy, IH.
Qed.

Lemma in_range_global nodes eid keys edges u v o0 o1 :
  NoDup nodes.*1 → edges_in_range nodes eid = true →
  (keys, edges) ∈ eid → (u, v) ∈ edges →
  let st := foldl node_step node_state_init (enumerate nodes) in
  offset st !! key_first keys = Some o0 →
  offset st !! key_last keys = Some o1 →
  global_index (local2global st) (inl (key_first keys)) u = Some (u + o0)
  ∧ global_index (local2global st) (inl (key_last keys)) v = Some (v + o1).
Proof.
  intros Hnd Hrange Hitem Huv st Ho0 Ho1.
  destruct (node_loop_closed nodes Hnd) as (_ & _ & _ & _ & _ & Hin).
  fold st in Hin.
  unfold edges_in_range in Hrange. rewrite forallb_forall in Hrange.
  specialize (Hrange _ (proj1 (list_elem_of_In _ _) Hitem)). simpl in Hrange.
  destruct (dict_get (key_first keys) nodes) as [Ns|] eqn:Hs; [|done].
  destruct (dict_get (key_last keys) nodes) as [Nd|] eqn:Hd; [|done].
  rewrite forallb_forall in Hrange.
  specialize (Hrange _ (proj1 (list_elem_of_In _ _) Huv)). simpl in Hrange.
  apply andb_true_iff in Hrange as [Hu%Nat.ltb_lt Hv%Nat.ltb_lt].
  apply dict_get_elem in Hs as [i Hi]%list_elem_of_lookup; [|done].
  apply dict_get_elem in Hd as [i' Hi']%list_elem_of_lookup; [|done].
  destruct (Hin _ _ _ Hi) as (Hoff & _ & Hl2g & _).
  destruct (Hin _ _ _ Hi') as (Hoff' & _ & Hl2g' & _).
  unfold global_index. rewrite Hl2g, Hl2g'. simpl.
  rewrite !list_lookup_fmap, !lookup_seq_lt by done. simpl.
  split; f_equal; congruence.
Qed.

(** X16.  The global edges decode to the local ones, and every local edge is
    encoded: when the node counts cover the endpoints, a column of the
    returned edge index with edge type number [t] is an edge of the [t]-th
    edge type, with both endpoints sent through [local2global] of its source
    and destination types, [t] being what [key2int] gives that edge type; and
    every edge of every edge type occurs so. *)
Theorem global_edge_index eid num_nodes_dict nodes
    edge_index edge_type node_type local_node_idx l2g k2i :
  maybe_num_nodes_dict eid num_nodes_dict = Ok nodes →
  NoDup nodes.*1 → NoDup eid.*1 → edges_in_range nodes eid = true →
  group_hetero_graph maybe_num_nodes_dict eid num_nodes_dict
  = Ok (edge_index, edge_type, node_type, local_node_idx, l2g, k2i) →
  length edge_type = length edge_index
  ∧ (∀ q a b t,
       edge_index !! q = Some (a, b) → edge_type !! q = Some t →
       ∃ keys edges u v,
         eid !! t = Some (keys, edges) ∧ (u, v) ∈ edges
         ∧ k2i !! inr keys = Some t
         ∧ global_index l2g (inl (key_first keys)) u = Some a
         ∧ global_index l2g (inl (key_last keys)) v = Some b)
  ∧ (∀ t keys edges u v,
       eid !! t = Some (keys, edges) → (u, v) ∈ edges →
       ∃ q a b,
         edge_index !! q = Some (a, b) ∧ edge_type !! q = Some t
         ∧ global_index l2g (inl (key_first keys)) u = Some a
         ∧ global_index l2g (inl (key_last keys)) v = Some b).
Proof.
  intros Hmaybe Hnd Hnd' Hrange Hrun.
  destruct (group_hetero_graph_run _ _ _ _ _ _ _ _ _ Hmaybe Hrun)
    as (_ & _ & -> & eis & ets & Hloop & -> & ->).
  set (st := foldl node_step node_state_init (enumerate nodes)) in *.
  unfold enumerate in Hloop.
  apply edge_loop_closed in Hloop
    as (shifted & -> & -> & Hall & _ & _ & Hk2i).
  specialize (Hk2i Hnd'). simpl.
  set (ets := imap (λ t (item : EdgeType * list (nat * nat)),
                      replicate (length item.2) t) eid).
  assert (Forall2 (λ x y, length x = length y) shifted ets) as Hlen.
  { apply Forall2_same_length_lookup. split.
    - unfold ets. rewrite length_imap. symmetry. by eapply Forall2_length.
    - intros t x y Hx Hy.
      destruct (Forall2_lookup_r _ _ _ _ _ Hall Hx)
        as (item & Hitem & o0 & o1 & _ & _ & ->).
      unfold ets in Hy. rewrite list_lookup_imap, Hitem in Hy.
      injection Hy as <-. by rewrite length_fmap, length_replicate. }
  pose proof (concat_aligned _ _ Hlen) as Hpre.
  split_and!.
  - specialize (Hpre (length shifted)).
    rewrite firstn_all in Hpre.
    rewrite (Forall2_length _ _ _ Hlen), firstn_all in Hpre. done.
  - intros q a b t Hq Ht.
    apply concat_lookup_inv in Hq as (t' & x & p & Hx & Hp & ->).
    destruct (Forall2_lookup_r _ _ _ _ _ Hall Hx)
      as ([keys edges] & Hitem & o0 & o1 & Ho0 & Ho1 & ->).
    simpl in *.
    apply list_lookup_fmap_Some in Hp as ([u v] & [= -> ->] & Hp).
    simpl.
    rewrite Hpre in Ht.
    rewrite (concat_lookup_at _ t' (replicate (length edges) t')) in Ht.
    2:{ unfold ets. by rewrite list_lookup_imap, Hitem. }
    2:{ rewrite length_replicate. by eapply lookup_lt_Some. }
    apply lookup_replicate in Ht as [-> _].
    assert ((u, v) ∈ edges) as Huv by by eapply list_elem_of_lookup_2.
    assert ((keys, edges) ∈ eid) as Hin by by eapply list_elem_of_lookup_2.
    destruct (in_range_global nodes eid keys edges u v o0 o1 Hnd Hrange
                Hin Huv Ho0 Ho1) as [Hg0 Hg1].
    exists keys, edges, u, v. split_and!; [done..| |done|done].
    by rewrite (Hk2i _ _ _ Hitem).
  - intros t keys edges u v Hitem [p Hp]%list_elem_of_lookup.
    destruct (Forall2_lookup_l _ _ _ _ _ Hall Hitem)
      as (x & Hx & o0 & o1 & Ho0 & Ho1 & ->).
    simpl in *.
    assert ((u, v) ∈ edges) as Huv by by eapply list_elem_of_lookup_2.
    assert ((keys, edges) ∈ eid) as Hin by by eapply list_elem_of_lookup_2.
    destruct (in_range_global nodes eid keys edges u v o0 o1 Hnd Hrange
                Hin Huv Ho0 Ho1) as [Hg0 Hg1].
    pose proof (lookup_lt_Some _ _ _ Hp) as Hlt.
    exists (length (concat (take t shifted)) + p), (u + o0), (v + o1).
    split_and!; [| |done..].
    + rewrite (concat_lookup_at _ t _ p Hx) by by rewrite length_fmap.
      by rewrite list_lookup_fmap, Hp.
    + rewrite Hpre.
      rewrite (concat_lookup_at _ t (replicate (length edges) t)).
      * by apply lookup_replicate.
      * unfold ets. by rewrite list_lookup_imap, Hitem.
      * by rewrite length_replicate.
Qed.

(** X17.  The function returns exactly when there is an edge type and the node
    counts name the source and destination type of every edge type; with no
    edge type it fails with [IndexError], and a node type without a count is a
    [KeyError]. *)
Theorem group_hetero_graph_outcome eid num_nodes_dict nodes :
  maybe_num_nodes_dict eid num_nodes_dict = Ok nodes →
  (eid = [] →
   group_hetero_graph maybe_num_nodes_dict eid num_nodes_dict
   = Raise IndexError)
  ∧ ((∃ r, group_hetero_graph maybe_num_nodes_dict eid num_nodes_dict = Ok r)
     ↔ eid ≠ []
       ∧ Forall (λ keys, key_first keys ∈ nodes.*1 ∧ key_last keys ∈ nodes.*1)
                eid.*1)
  ∧ (eid ≠ [] → nodes ≠ [] →
     ¬ Forall (λ keys, key_first keys ∈ nodes.*1 ∧ key_last keys ∈ nodes.*1)
              eid.*1 →
     group_hetero_graph maybe_num_nodes_dict eid num_nodes_dict
     = Raise KeyError).
Proof.
  intros Hmaybe. unfold group_hetero_graph. rewrite Hmaybe.
  change (Ok nodes ≫= ?f) with (f nodes). cbv beta.
  destruct eid as [|item0 eid0] eqn:Heid.
  { split_and!; [done | | done]. split; [by intros [? ?] | by intros [? _]]. }
  rewrite <- Heid. assert (eid ≠ []) as Hne by by rewrite Heid.
  replace (list_getitem eid.*2 0) with (Ok item0.2) by by rewrite Heid.
  change (Ok item0.2 ≫= ?f) with (f item0.2). cbv beta.
  set (st := foldl node_step node_state_init (enumerate nodes)).
  set (covered := Forall (λ keys, key_first keys ∈ nodes.*1
                                  ∧ key_last keys ∈ nodes.*1) eid.*1).
  assert (∀ key, is_Some (offset st !! key) ↔ key ∈ nodes.*1) as Hdom.
  { intros key. unfold st. rewrite node_loop_offset_dom, enumerate_keys.
    simpl. rewrite lookup_empty. split; [intros [[? [=]]|?]; done | eauto]. }
  destruct (node_loop_lengths (enumerate nodes) node_state_init)
    as [Hl1 Hl2]. fold st in Hl1, Hl2.
  rewrite length_enumerate in Hl1, Hl2. simpl in Hl1, Hl2.
  destruct (decide (nodes = [])) as [Hnil|Hnn].
  { unfold st, covered. rewrite Hnil. simpl. split_and!; [done | | done].
    split; [by intros [? ?]|]. intros [_ Hc].
    rewrite Heid in Hc. apply Forall_cons in Hc as [[Hin _] _].
    by apply elem_of_nil in Hin. }
  destruct (node_types st) as [|nt0 nts] eqn:Hnt;
    [by apply eq_sym, nil_length_inv in Hl1|].
  destruct (local_node_indices st) as [|ln0 lns] eqn:Hln;
    [by apply eq_sym, nil_length_inv in Hl2|].
  cbn [concat_vectors].
  change (Ok (concat (nt0 :: nts)) ≫= ?f) with (f (concat (nt0 :: nts))).
  cbv beta.
  change (Ok (concat (ln0 :: lns)) ≫= ?f) with (f (concat (ln0 :: lns))).
  cbv beta.
  pose proof (edge_loop_outcome (offset st) (enumerate eid) (key2int st, [], []))
    as Hout.
  rewrite enumerate_keys in Hout.
  assert (Forall (λ keys, is_Some (offset st !! key_first keys)
                          ∧ is_Some (offset st !! key_last keys)) eid.*1
          ↔ covered) as Hcov.
  { unfold covered. apply Forall_iff. intros keys. rewrite !Hdom. tauto. }
  destruct (for_each (edge_step (offset st)) (enumerate eid) _)
    as [[[k eis] ets]|e] eqn:Hloop.
  - apply Hcov in Hout.
    unfold enumerate in Hloop.
    apply edge_loop_closed in Hloop as (shifted & -> & -> & Hall & _).
    apply Forall2_length in Hall.
    destruct shifted as [|s0 shifted];
      [rewrite Heid in Hall; simpl in Hall; lia|].
    cbn [app concat_vectors].
    change (Ok (concat (s0 :: shifted)) ≫= ?f) with (f (concat (s0 :: shifted))).
    cbv beta.
    destruct (imap _ eid) as [|e0 es] eqn:Himap;
      [by rewrite Heid in Himap|].
    simpl. split_and!; [done | split; [done | by eexists] | done].
  - destruct Hout as [-> Hnot]. simpl.
    split_and!; [done | | done].
    split; [by intros [? ?]|]. intros [_ Hc]. by apply Hcov in Hc.
Qed.

End run.

End group_hetero.

(** ** Rooted subgraphs: batching increments *)

Section rooted_more.
Import rooted_subgraph.
Implicit Types (edges : list (nat * nat)) (n_mask e_mask : list (list bool)).

Lemma map_lengths data n_mask sub0 sub1 n_id e_id n_sub_batch e_sub_batch :
  map data n_mask = Ok ((sub0, sub1), n_id, e_id, n_sub_batch, e_sub_batch) →
  length sub0 = length e_id ∧ length sub1 = length e_id
  ∧ length n_sub_batch = length n_id ∧ length e_sub_batch = length e_id.
Proof.
  unfold map, nonzero. intros Hmap.
  bind_inv Hmap. bind_inv Hmap. bind_inv Hmap. bind_inv Hmap.
  bind_inv Hmap. bind_inv Hmap. bind_inv Hmap. bind_inv Hmap.
  bind_inv Hmap. bind_inv Hmap. injection Hmap as <- <- <- <- <- <-.
  apply gather_length in Hstep3, Hstep4, Hstep6, Hstep7, Hstep8.
  rewrite Hstep7, Hstep8, !length_zip_with, Hstep3, Hstep4, Hstep6.
  rewrite !length_fmap. lia.
Qed.

Lemma marked_last m row :
  true ∈ row → ∃ v, last (marked (m ++ [row])) = Some (length m, v).
Proof.
  intros [v Hv%true_columns_elem]%list_elem_of_lookup.
  unfold marked. rewrite imap_app, join_app. simpl.
  rewrite app_nil_r, Nat.add_0_r.
  destruct (true_columns row) as [|c cs _] using rev_ind;
    [by apply elem_of_nil in Hv|].
  exists c. rewrite fmap_app, app_assoc. simpl. by rewrite last_snoc.
Qed.

(** X20.  On the object that [forward] builds from a call of [map] on a graph
    with at least one node, every increment that [__inc__] reports for one of
    the five attributes is a strict upper bound of the entries of that
    attribute: the number of listed nodes for [sub_edge_index], the number of
    nodes for [n_id] and for the two batch vectors, the number of edges for
    [e_id]. *)
Theorem inc_bounds {Val} (super_inc : RootedSubgraphData → string → Val
                                      → result (option nat))
    (extract : Data → result ((list nat * list nat) * list nat * list nat
                              * list nat * list nat))
    data edges n n_mask d (value : Val) :
  edge_index data = Some edges → num_nodes data = Some n →
  square n n_mask = true → valid_edges n edges = true →
  forallb (λ row, bool_decide (true ∈ row)) n_mask = true →
  0 < n →
  extract data = map data n_mask →
  RootedSubgraph_forward extract data = Ok d →
  __inc__ super_inc d "sub_edge_index" value = Ok (Some (length (n_id d)))
  ∧ Forall (λ x, x < length (n_id d)) (sub_edge_index d).1
  ∧ Forall (λ x, x < length (n_id d)) (sub_edge_index d).2
  ∧ __inc__ super_inc d "n_sub_batch" value = Ok (Some n)
  ∧ __inc__ super_inc d "e_sub_batch" value = Ok (Some n)
  ∧ Forall (λ x, x < n) (n_sub_batch d)
  ∧ Forall (λ x, x < n) (e_sub_batch d)
  ∧ __inc__ super_inc d "n_id" value = Ok (Some n)
  ∧ Forall (λ x, x < n) (n_id d)
  ∧ __inc__ super_inc d "e_id" value = Ok (Some (length edges))
  ∧ Forall (λ x, x < length edges) (e_id d).
Proof.
  intros Hei Hn Hsq Hvalid Hrows Hpos Hextract Hfwd.
  destruct (map_run data edges n n_mask Hei Hn Hsq Hvalid Hrows)
    as (e_mask & sub0 & sub1 & Hmap & He_mask & Hsub).
  pose proof (map_lengths _ _ _ _ _ _ _ _ Hmap) as (Hl0 & Hl1 & _ & _).
  unfold RootedSubgraph_forward in Hfwd. rewrite Hextract, Hmap in Hfwd.
  simpl in Hfwd. injection Hfwd as <-. unfold __inc__. simpl.
  rewrite Hn, Hei. simpl.
  pose proof (marked_in_range n n_mask Hsq) as Hrange.
  assert (Forall (λ be, be.1 < n ∧ be.2 < length edges) (marked e_mask))
    as Herange.
  { apply Forall_forall. intros [b e] Hin%marked_elem.
    apply He_mask in Hin as (u & w & Hedge & Hu & _).
    apply (square_cell_lt n) in Hu as [? _]; [|done].
    apply lookup_lt_Some in Hedge. done. }
  assert (getitem_last (marked n_mask).*1 = Ok (n - 1)) as ->.
  { pose proof Hsq as [Hlen Hall]%square_spec.
    destruct n_mask as [|row m _] using rev_ind; [simpl in Hlen; lia|].
    rewrite forallb_app in Hrows. apply andb_true_iff in Hrows as [_ Hrow].
    simpl in Hrow. rewrite andb_true_r in Hrow.
    apply bool_decide_eq_true in Hrow.
    destruct (marked_last m row Hrow) as [v Hlast].
    unfold getitem_last. rewrite fmap_last, Hlast. simpl.
    rewrite length_app in Hlen. simpl in Hlen. f_equal. lia. }
  simpl. replace (S (n - 1)) with n by lia.
  assert (∀ (sub : list nat),
            length sub = length (marked e_mask).*2 →
            (∀ t b e, marked e_mask !! t = Some (b, e) →
                      ∃ s, sub !! t = Some s ∧ is_Some (marked n_mask !! s)) →
            Forall (λ x, x < length (marked n_mask).*2) sub) as Hbound.
  { intros sub Hlen Hall. apply Forall_lookup_2. intros t x Hx.
    assert (t < length (marked e_mask)) as Ht.
    { apply lookup_lt_Some in Hx. rewrite length_fmap in Hlen. lia. }
    destruct (lookup_lt_is_Some_2 _ _ Ht) as [[b e] Hbe].
    destruct (Hall _ _ _ Hbe) as (s & Hs & [bu Hbu]).
    assert (s = x) as -> by congruence.
    apply lookup_lt_Some in Hbu. by rewrite length_fmap. }
  split_and!; try done.
  - apply Hbound; [done|]. intros t b e Ht.
    destruct (Hsub _ _ _ Ht) as (u & w & s0 & s1 & _ & Hs0 & _ & Hm0 & _).
    eauto.
  - apply Hbound; [done|]. intros t b e Ht.
    destruct (Hsub _ _ _ Ht) as (u & w & s0 & s1 & _ & _ & Hs1 & _ & Hm1).
    eauto.
  - apply Forall_fmap. eapply Forall_impl; [exact Hrange|]. simpl. tauto.
  - apply Forall_fmap. eapply Forall_impl; [exact Herange|]. simpl. tauto.
  - apply Forall_fmap. eapply Forall_impl; [exact Hrange|]. simpl. tauto.
  - apply Forall_fmap. eapply Forall_impl; [exact Herange|]. simpl. tauto.
Qed.

End rooted_more.

(** ** Conversion to CSC: refusals, sorted input, time stamps, many edge
    types *)

Section csc_more.
Import sampler_utils.
Implicit Types (edges : list (nat * nat)) (perm row col colptr : list nat).

(** *** Refusals *)

Lemma bind_Raise {A B} (P : exn → Prop) (m : result A) (f : A → result B) :
  (∀ e, m = Raise e → P e) → (∀ a e, f a = Raise e → P e) →
  ∀ e, m ≫= f = Raise e → P e.
Proof.
  destruct m as [a|e']; simpl; intros Hm Hf e; [apply Hf|].
  intros [= <-]. by apply Hm.
Qed.

Lemma gather_not_refused {A} (xs : list A) idx e :
  gather xs idx = Raise e → e = IndexError.
Proof.
  unfold gather. revert e. induction idx as [|i idx IH]; simpl; [done|].
  apply bind_Raise.
  - unfold list_getitem. destruct (xs !! i); [done | by intros e [= <-]].
  - intros a. apply bind_Raise; [exact IH | done].
Qed.

Lemma sort_csc_outcome row col (src_node_time edge_time : option (list Z)) e :
  sort_csc row col src_node_time edge_time = Raise e →
  (e = AssertionError ∧ src_node_time ≠ None ∧ edge_time ≠ None)
  ∨ e = IndexError.
Proof.
  unfold sort_csc. revert e.
  destruct src_node_time as [snt|], edge_time as [et|]; simpl.
  - intros e [= <-]. left. done.
  - apply bind_Raise; [intros e He; right; by eapply gather_not_refused|].
    intros t.
    apply bind_Raise; [intros e He; right; by eapply gather_not_refused|].
    intros r.
    apply bind_Raise; [intros e He; right; by eapply gather_not_refused|].
    done.
  - apply bind_Raise; [intros e He; right; by eapply gather_not_refused|].
    intros r.
    apply bind_Raise; [intros e He; right; by eapply gather_not_refused|].
    done.
  - destruct (index_sort col) as [c p].
    apply bind_Raise; [intros e He; right; by eapply gather_not_refused|].
    done.
Qed.

Ltac settle :=
  unfold is_Some in *;
  intuition (try discriminate; try congruence; eauto);
  repeat match goal with H : ∃ _, _ |- _ => destruct H end;
  try discriminate; try congruence; eauto.

(** X21.  The two refusals of [to_csc]. It raises [NotImplementedError]
    exactly when the graph has an [adj] and a source node time is given,
    whatever the other arguments; it raises [AssertionError] exactly when it
    has to sort an edge index and both a source node time and an edge time are
    given. With [is_sorted] neither time is looked at. *)
Theorem to_csc_refusals (data : Data) (is_sorted : bool)
    (src_node_time edge_time : option (list Z)) :
  (to_csc data is_sorted src_node_time edge_time = Raise NotImplementedError
   ↔ is_Some (adj data) ∧ src_node_time ≠ None)
  ∧ (to_csc data is_sorted src_node_time edge_time = Raise AssertionError
     ↔ adj data = None ∧ adj_t data = None ∧ is_Some (edge_index data)
       ∧ is_sorted = false ∧ src_node_time ≠ None ∧ edge_time ≠ None).
Proof.
  unfold to_csc. destruct (adj data) as [[colptr row]|].
  { destruct src_node_time as [snt|].
    - rewrite bool_decide_eq_true_2 by done. settle.
    - rewrite bool_decide_eq_false_2 by (by intros []). settle. }
  destruct (adj_t data) as [[colptr row]|]; [settle|].
  destruct (edge_index data) as [edge_index|];
    [|destruct (num_nodes data); settle].
  destruct is_sorted; simpl; [settle|].
  destruct (sort_csc edge_index.*1 edge_index.*2 src_node_time edge_time)
    as [[[row col] perm]|e] eqn:Hsort; simpl.
  { destruct src_node_time, edge_time; settle. }
  pose proof (sort_csc_outcome _ _ _ _ _ Hsort) as Hout.
  destruct src_node_time, edge_time; simpl in Hsort; settle.
Qed.

(** *** The pointers of a sorted edge list *)

Lemma colptr_of_sorted (S : list (nat * nat)) n :
  StronglySorted (λ a b : nat * nat, a.2 ≤ b.2) S →
  Forall (λ e, e.2 < n) S →
  length (index2ptr S.*2 (Some n)) = n + 1
  ∧ index2ptr S.*2 (Some n) !! 0 = Some 0
  ∧ last (index2ptr S.*2 (Some n)) = Some (length S)
  ∧ Sorted le (index2ptr S.*2 (Some n))
  ∧ ∀ j, j < n →
      ∃ a b, index2ptr S.*2 (Some n) !! j = Some a
             ∧ index2ptr S.*2 (Some n) !! Datatypes.S j = Some b ∧ a ≤ b
             ∧ take (b - a) (drop a S.*1) = (filter (λ e, e.2 = j) S).*1.
Proof.
  intros HsS HrangeS. split_and!.
  - apply index2ptr_length.
  - rewrite index2ptr_lookup by lia.
    rewrite (filter_none (λ c, c < 0)); [done|].
    apply Forall_forall. intros; lia.
  - rewrite last_lookup, index2ptr_length.
    replace (Init.Nat.pred (n + 1)) with n by lia.
    rewrite index2ptr_lookup by lia. f_equal.
    rewrite (filter_all (λ c, c < n)).
    + by rewrite length_fmap.
    + by rewrite Forall_fmap.
  - unfold index2ptr. simpl default.
    apply (Sorted_fmap _ lt le); [|apply Sorted_lt_seq].
    intros i j Hij. apply filter_length_mono. intros; lia.
  - intros j Hj.
    exists (length (filter (λ e, e.2 < j) S)),
           (length (filter (λ e, e.2 < Datatypes.S j) S)).
    split_and!.
    + rewrite index2ptr_lookup by lia. by rewrite filter_snd_length.
    + rewrite index2ptr_lookup by lia. by rewrite filter_snd_length.
    + apply filter_length_mono. intros; lia.
    + rewrite <- fmap_drop, <- fmap_take. by rewrite (sorted_slice S j HsS).
Qed.

Lemma sorted_by_snd (S : list (nat * nat)) :
  Sorted le S.*2 → StronglySorted (λ a b : nat * nat, a.2 ≤ b.2) S.
Proof.
  intros Hs%Sorted_StronglySorted; [|intros ???; lia].
  induction S as [|e S IH]; [constructor|].
  csimpl in Hs. apply StronglySorted_inv in Hs as [Hs He].
  constructor; [by apply IH|]. by rewrite Forall_fmap in He.
Qed.

(** *** Sorted input *)

(** X22.  With [is_sorted], an edge index whose destinations are
    non-decreasing is converted as it stands, whatever time stamps are passed:
    [row] is the row of sources, there is no permutation, and [colptr] holds
    [n + 1] non-decreasing pointers from [0] to [E] such that the sources
    between [colptr[j]] and [colptr[j + 1]] are those of the edges into [j],
    in their order. *)
Theorem to_csc_sorted (data : Data) edges n
    (src_node_time edge_time : option (list Z)) :
  adj data = None → adj_t data = None →
  edge_index data = Some edges → num_nodes data = Some n →
  forallb (λ e, e.2 <? n) edges = true →
  Sorted le edges.*2 →
  ∃ colptr,
    to_csc data true src_node_time edge_time = Ok (colptr, edges.*1, None)
    ∧ length colptr = n + 1
    ∧ colptr !! 0 = Some 0
    ∧ last colptr = Some (length edges)
    ∧ Sorted le colptr
    ∧ ∀ j, j < n →
        ∃ a b, colptr !! j = Some a ∧ colptr !! S j = Some b ∧ a ≤ b
               ∧ take (b - a) (drop a edges.*1)
                 = (filter (λ e, e.2 = j) edges).*1.
Proof.
  intros Hadj Hadj_t Hei Hn Hrange Hsorted.
  unfold to_csc. rewrite Hadj, Hadj_t, Hei, Hn. simpl.
  eexists. split; [done|].
  apply colptr_of_sorted; [by apply sorted_by_snd|].
  apply Forall_forall. intros e He. rewrite forallb_forall in Hrange.
  apply list_elem_of_In, Hrange in He. by apply Nat.ltb_lt.
Qed.

(** *** Time stamps *)

Lemma lex_leb_le a b : lex_leb a b = true → lex_le a b.
Proof.
  unfold lex_leb, lex_le.
  intros [?%Nat.ltb_lt|[?%Nat.eqb_eq ?%Z.leb_le]%andb_true_iff]%orb_true_iff;
    [by left | by right].
Qed.

Lemma lex_leb_total a b : lex_leb a b = false → lex_le b a.
Proof.
  unfold lex_leb, lex_le.
  intros [Hlt%Nat.ltb_ge Hrest]%orb_false_iff.
  apply andb_false_iff in Hrest as [Hne%Nat.eqb_neq|Hgt%Z.leb_gt];
    [left; lia|].
  destruct (decide (b.1 = a.1)); [right; lia | left; lia].
Qed.

#[local] Instance lex_le_trans : Transitive lex_le.
Proof. unfold lex_le. intros a b c. lia. Qed.

Lemma zip_fmap_same {A B C} (f : A → B) (g : A → C) (l : list A) :
  zip (f <$> l) (g <$> l) = (λ x, (f x, g x)) <$> l.
Proof. induction l as [|x l IH]; csimpl; [done | by rewrite IH]. Qed.

(** X23.  With edge time stamps, the edges are laid out by destination and,
    into one destination, by time: [perm] is a permutation of the edge
    positions, along it the pairs of destination and time are in lexicographic
    order, [row] holds the sources along it, and [colptr] delimits, for every
    node, the sources of the edges into it. *)
Theorem to_csc_temporal (data : Data) edges n (edge_time : list Z) :
  adj data = None → adj_t data = None →
  edge_index data = Some edges → num_nodes data = Some n →
  forallb (λ e, e.2 <? n) edges = true →
  length edge_time = length edges →
  ∃ colptr row perm col times,
    to_csc data false None (Some edge_time) = Ok (colptr, row, Some perm)
    ∧ perm ≡ₚ seq 0 (length edges)
    ∧ gather edges.*1 perm = Ok row
    ∧ gather edges.*2 perm = Ok col
    ∧ gather edge_time perm = Ok times
    ∧ StronglySorted lex_le (zip col times)
    ∧ length colptr = n + 1
    ∧ colptr !! 0 = Some 0
    ∧ last colptr = Some (length edges)
    ∧ Sorted le colptr
    ∧ ∀ j, j < n →
        ∃ a b, colptr !! j = Some a ∧ colptr !! S j = Some b ∧ a ≤ b
               ∧ take (b - a) (drop a row)
                 ≡ₚ (filter (λ e, e.2 = j) edges).*1.
Proof.
  intros Hadj Hadj_t Hei Hn Hrange Hlen.
  unfold to_csc. rewrite Hadj, Hadj_t, Hei, Hn. simpl.
  unfold lexsort2.
  set (keys := zip edges.*2 edge_time).
  set (X := zip edges edge_time).
  assert (length keys = length edges) as Hklen.
  { unfold keys. rewrite length_zip_with, length_fmap. lia. }
  assert (length X = length edges) as HXlen.
  { unfold X. rewrite length_zip_with. lia. }
  assert (X.*1 = edges) as HX1 by (apply fst_zip; lia).
  assert (X.*2 = edge_time) as HX2 by (apply snd_zip; lia).
  assert (keys = (λ x : nat * nat * Z, (x.1.2, x.2)) <$> X) as Hkeys.
  { unfold keys. rewrite <- HX1 at 1. rewrite <- HX2 at 1.
    rewrite <- list_fmap_compose. apply zip_fmap_same. }
  pose proof (sort_keys_Permutation lex_leb keys) as Hp.
  pose proof (sort_keys_sorted lex_leb lex_le lex_leb_le lex_leb_total keys)
    as Hs.
  set (sk := sort_keys lex_leb keys) in *.
  assert (sk.*2 ≡ₚ seq 0 (length edges)) as Hperm.
  { rewrite Hp, snd_zip, Hklen; [done|]. by rewrite length_seq. }
  assert (gather keys sk.*2 = Ok sk.*1) as Hgk.
  { apply gather_Ok. apply Forall2_fmap, Forall_Forall2_diag.
    apply Forall_forall. intros kv Hin. rewrite Hp in Hin.
    apply zip_seq_lookup in Hin as [_ Hk]. by rewrite Nat.sub_0_r in Hk. }
  pose proof (gather_seq X) as HgX. rewrite HXlen in HgX.
  destruct (gather_Permutation X _ _ _ (symmetry Hperm) HgX)
    as (SX & HSX & HpX).
  pose proof (gather_fmap (λ x : nat * nat * Z, (x.1.2, x.2)) _ _ _ HSX)
    as Hgk'.
  rewrite <- Hkeys, Hgk in Hgk'. injection Hgk' as Hsorted.
  pose proof (gather_fmap (λ x : nat * nat * Z, x.1.1) _ _ _ HSX) as Hrow.
  pose proof (gather_fmap (λ x : nat * nat * Z, x.1.2) _ _ _ HSX) as Hcol.
  pose proof (gather_fmap snd _ _ _ HSX) as Htime.
  rewrite HX2 in Htime.
  assert (∀ (Y : list (nat * nat * Z)),
            (λ x : nat * nat * Z, x.1.1) <$> Y = (Y.*1).*1
            ∧ (λ x : nat * nat * Z, x.1.2) <$> Y = (Y.*1).*2) as Hcomp.
  { intros Y. by rewrite <- !list_fmap_compose. }
  rewrite (proj1 (Hcomp X)), (proj1 (Hcomp SX)), HX1 in Hrow.
  rewrite (proj2 (Hcomp X)), (proj2 (Hcomp SX)), HX1 in Hcol.
  rewrite Hrow, Hcol. simpl.
  assert (StronglySorted lex_le
            ((λ x : nat * nat * Z, (x.1.2, x.2)) <$> SX)) as Hlex.
  { rewrite <- Hsorted.
    by apply (StronglySorted_fmap fst (λ a b : nat * Z * nat, lex_le a.1 b.1)
                lex_le). }
  assert (StronglySorted (λ a b : nat * nat, a.2 ≤ b.2) SX.*1) as HsS.
  { clear -Hlex. induction SX as [|x SX IH]; [constructor|].
    csimpl in Hlex. apply StronglySorted_inv in Hlex as [Hs He].
    csimpl. constructor; [by apply IH|].
    rewrite Forall_fmap in He. rewrite Forall_fmap.
    eapply Forall_impl; [exact He|].
    unfold lex_le. simpl. intros y. lia. }
  assert (SX.*1 ≡ₚ edges) as HpS by by rewrite <- HpX, HX1.
  assert (Forall (λ e, e.2 < n) SX.*1) as HrangeS.
  { rewrite HpS. apply Forall_forall. intros e He.
    rewrite forallb_forall in Hrange.
    apply list_elem_of_In, Hrange in He. by apply Nat.ltb_lt. }
  destruct (colptr_of_sorted SX.*1 n HsS HrangeS)
    as (Hc1 & Hc2 & Hc3 & Hc4 & Hc5).
  eexists _, _, _, _, SX.*2. split_and!; [done..| | | | | |].
  - rewrite <- (proj2 (Hcomp SX)). by rewrite zip_fmap_same.
  - done.
  - done.
  - rewrite Hc3. by rewrite length_fmap, <- HXlen, HpX.
  - done.
  - intros j Hj. destruct (Hc5 j Hj) as (a & b & Ha & Hb & Hab & Hslice).
    exists a, b. split_and!; [done..|]. rewrite Hslice. by rewrite HpS.
Qed.

(** *** Many edge types *)

Lemma to_hetero_csc_loop (data : list (EdgeType * Data)) is_sorted
    node_time_dict edge_time_dict colptr_dict row_dict perm_dict :
  NoDup (colptr_dict.*1 ++ data.*1) →
  row_dict.*1 = colptr_dict.*1 → perm_dict.*1 = colptr_dict.*1 →
  match for_each (to_hetero_csc_step is_sorted node_time_dict edge_time_dict)
                 data (colptr_dict, row_dict, perm_dict) with
  | Ok (colptr_dict', row_dict', perm_dict') =>
    ∃ outs,
      Forall2 (λ item out,
                 to_csc item.2 is_sorted
                        (default ∅ node_time_dict !! key_first item.1)
                        (default ∅ edge_time_dict !! item.1)
                 = Ok out) data outs
      ∧ colptr_dict' = colptr_dict ++ zip data.*1 (outs.*1).*1
      ∧ row_dict' = row_dict ++ zip data.*1 (outs.*1).*2
      ∧ perm_dict' = perm_dict ++ zip data.*1 outs.*2
  | Raise e =>
    ∃ done item rest,
      data = done ++ item :: rest
      ∧ Forall (λ item, ∃ out,
                  to_csc item.2 is_sorted
                         (default ∅ node_time_dict !! key_first item.1)
                         (default ∅ edge_time_dict !! item.1)
                  = Ok out) done
      ∧ to_csc item.2 is_sorted
               (default ∅ node_time_dict !! key_first item.1)
               (default ∅ edge_time_dict !! item.1)
        = Raise e
  end.
Proof.
  revert colptr_dict row_dict perm_dict.
  induction data as [|[edge_type store] data IH];
    intros colptr_dict row_dict perm_dict Hnd Hr Hp.
  - simpl. exists []. rewrite !app_nil_r. split_and!; [constructor | done..].
  - cbn [for_each]. unfold to_hetero_csc_step at 2. simpl.
    destruct (to_csc store is_sorted _ _) as [[[colptr row] perm]|e] eqn:Hcsc;
      simpl.
    2:{ exists [], (edge_type, store), data. split_and!; [done | constructor | done]. }
    simpl in Hnd.
    assert (edge_type ∉ colptr_dict.*1) as Hfresh.
    { apply NoDup_app in Hnd as (_ & Hdisj & _). intros Hin.
      apply (Hdisj _ Hin), list_elem_of_here. }
    rewrite !dict_store_fresh by congruence.
    specialize (IH (colptr_dict ++ [(edge_type, colptr)])
                   (row_dict ++ [(edge_type, row)])
                   (perm_dict ++ [(edge_type, perm)])).
    destruct (for_each _ data _) as [[[cd rd] pd]|e].
    + destruct IH as (outs & Hall & -> & -> & ->).
      * rewrite fmap_app, <- app_assoc. done.
      * rewrite !fmap_app. by rewrite Hr.
      * rewrite !fmap_app. by rewrite Hp.
      * exists ((colptr, row, perm) :: outs).
        split_and!; [by constructor | by rewrite <- app_assoc..].
    + destruct IH as (done & item & rest & -> & Hdone & Hitem).
      * rewrite fmap_app, <- app_assoc. done.
      * rewrite !fmap_app. by rewrite Hr.
      * rewrite !fmap_app. by rewrite Hp.
      * exists ((edge_type, store) :: done), item, rest.
        split_and!; [done | | done]. constructor; [|done]. eauto.
Qed.

(** X24.  [to_hetero_csc] converts every edge store on its own: the three
    dictionaries hold, for the edge types in the order of [edge_items], what
    [to_csc] returns for the store with the time stamps of its source node
    type and of the edge type; a failure is that of the first store on which
    [to_csc] fails, and an absent dictionary of time stamps is an empty one. *)
Theorem to_hetero_csc_entries (data : list (EdgeType * Data)) is_sorted
    node_time_dict edge_time_dict :
  NoDup data.*1 →
  match to_hetero_csc data is_sorted node_time_dict edge_time_dict with
  | Ok (colptr_dict, row_dict, perm_dict) =>
    ∃ outs,
      Forall2 (λ item out,
                 to_csc item.2 is_sorted
                        (default ∅ node_time_dict !! key_first item.1)
                        (default ∅ edge_time_dict !! item.1)
                 = Ok out) data outs
      ∧ colptr_dict = zip data.*1 (outs.*1).*1
      ∧ row_dict = zip data.*1 (outs.*1).*2
      ∧ perm_dict = zip data.*1 outs.*2
  | Raise e =>
    ∃ done item rest,
      data = done ++ item :: rest
      ∧ Forall (λ item, ∃ out,
                  to_csc item.2 is_sorted
                         (default ∅ node_time_dict !! key_first item.1)
                         (default ∅ edge_time_dict !! item.1)
                  = Ok out) done
      ∧ to_csc item.2 is_sorted
               (default ∅ node_time_dict !! key_first item.1)
               (default ∅ edge_time_dict !! item.1)
        = Raise e
  end.
Proof.
  intros Hnd. unfold to_hetero_csc.
  by apply (to_hetero_csc_loop data is_sorted node_time_dict edge_time_dict
              [] [] []).
Qed.

End csc_more.

(** ** [construct_bipartite_edge_index]: attributes and edges side by side *)

Section construct_more.
Import hetero.
Context {A : Type}.
Implicit Types (h k : heap A) (l : loc) (o : obj A).
Implicit Types edge_index_dict : gmap EdgeType loc.
Implicit Types dst_offset_dict : gmap NodeType Z.
Implicit Types src_offset_dict : list (EdgeType * Z).
Implicit Types edge_attr_dict : option attr_dict.

(** What a call on dense edge indices returns, or why it does not. *)
Lemma construct_run h edge_index_dict
    src_offset_dict dst_offset_dict edge_attr_dict num_nodes :
  holds_dense h edge_index_dict = true →
  holds_attrs h edge_attr_dict = true →
  match construct_bipartite_edge_index edge_index_dict src_offset_dict
          dst_offset_dict edge_attr_dict num_nodes h with
  | (Ok (l, la), h') =>
    ∃ edge_index edge_attr,
      spec_edge_index add64 h edge_index_dict src_offset_dict dst_offset_dict
        = Some edge_index
      ∧ spec_edge_attr h edge_index_dict src_offset_dict edge_attr_dict
        = Some edge_attr
      ∧ dense_at h' l = Some edge_index
      ∧ returned_attr h' la = Some edge_attr
  | (Raise _, _) =>
    spec_edge_index add64 h edge_index_dict src_offset_dict dst_offset_dict = None
    ∨ spec_edge_attr h edge_index_dict src_offset_dict edge_attr_dict = None
  end.
Proof.
  intros Hd Ha. unfold construct_bipartite_edge_index.
  destruct (construct_loop_run h _ dst_offset_dict _ src_offset_dict Hd Ha
              (false, [], []) h ltac:(done) ltac:(done))
    as (r & h1 & Hrun & Hpre & Hpost).
  rewrite (bind_run _ _ _ _ Hrun). simpl.
  unfold spec_edge_index, spec_edge_attr.
  destruct r as [[[b eis] eas]|e].
  2:{ destruct Hpost as [->|(d & -> & ->)]; [by left | by right]. }
  destruct Hpost as (les & parts & Hparts & Hb & Heis & Hles & Hattr).
  simpl in Hb, Heis. subst b eis. rewrite Hparts. simpl.
  rewrite (bind_run _ _ _ _ (concat_axis1_run _ _ _ Hles)).
  destruct parts as [|p parts]; simpl; [by left|].
  set (ei := concat (p :: parts)) in *.
  assert (h1 `prefix_of` h1 ++ [Dense ei]) as Hpre1
    by apply prefix_app_r, reflexivity.
  destruct edge_attr_dict as [d|]; simpl.
  - destruct Hattr as (las & aparts & Haparts & Heas & Hlas).
    simpl in Heas. subst eas. rewrite Haparts. simpl.
    assert (Forall2 (λ la rows, attr_at (h1 ++ [Dense ei]) la = Some rows)
              las aparts) as Hlas1.
    { eapply Forall2_impl; [done|]. simpl. intros la rows Hla.
      apply attr_at_Some. apply attr_at_Some in Hla.
      by apply (prefix_lookup_Some _ _ _ _ Hla). }
    rewrite (bind_run _ _ _ _ (bind_run _ _ _ _
               (concat_axis0_run _ _ _ Hlas1))).
    destruct (concat_rows aparts) as [rows|e]; simpl; [|by right].
    exists ei, (Some rows). split_and!; try done.
    + apply dense_at_Some, lookup_app_l_Some, lookup_fresh.
    + simpl. rewrite (proj2 (attr_at_Some _ _ _) (lookup_fresh _ _)). done.
  - exists ei, None. split_and!; try done.
    apply dense_at_Some, lookup_fresh.
Qed.

Lemma attr_part_length h edge_index_dict dst_offset_dict d
    (item : EdgeType * Z) rows cols :
  attr_part h edge_index_dict d item = Some rows →
  shifted add64 h edge_index_dict dst_offset_dict item = Some cols →
  length rows = length cols.
Proof.
  unfold attr_part, shifted.
  destruct (edge_index_dict !! item.1) as [le|]; [|done]. simpl.
  destruct (dense_at h le) as [cs|]; [|done]. simpl.
  destruct (to_option (attr_getitem d item.1)) as [la|]; [|done]. simpl.
  destruct (attr_at h la) as [rs|]; [|done]. simpl.
  destruct (dst_offset_dict !! key_last item.1) as [dst_offset|]; [|done].
  simpl. intros Hrows [= <-]. rewrite length_offset_index.
  destruct (Nat.eqb_spec (length rs) (length cs)) as [Heq|Hne].
  - by injection Hrows as <-.
  - unfold expand_rows in Hrows. destruct rs as [|r [|r' rs]]; try done.
    injection Hrows as <-. by rewrite length_replicate.
Qed.

Lemma concat_rows_Ok (parts : list (list (list A))) rows :
  concat_rows parts = Ok rows → rows = concat parts.
Proof.
  unfold concat_rows. destruct parts; [done|].
  destruct (same_width _); [by intros [= <-] | done].
Qed.

(** X25.  The attributes stay aligned with the edges: whenever a call on dense
    edge indices returns an attribute tensor, it has one row for every column
    of the returned edge index. *)
Theorem edge_attr_rows_match_edges h edge_index_dict src_offset_dict
    dst_offset_dict edge_attr_dict num_nodes l la h' :
  holds_dense h edge_index_dict = true →
  holds_attrs h edge_attr_dict = true →
  construct_bipartite_edge_index edge_index_dict src_offset_dict
    dst_offset_dict edge_attr_dict num_nodes h = (Ok (l, Some la), h') →
  ∃ edge_index edge_attr,
    dense_at h' l = Some edge_index
    ∧ attr_at h' la = Some edge_attr
    ∧ length edge_attr = length edge_index.
Proof.
  intros Hd Ha Hrun.
  pose proof (construct_run h edge_index_dict src_offset_dict dst_offset_dict
                edge_attr_dict num_nodes Hd Ha) as Hspec.
  rewrite Hrun in Hspec.
  destruct Hspec as (ei & ea & Hei & Hea & Hl & Hla).
  simpl in Hla. destruct (attr_at h' la) as [rows|] eqn:Hrows; [|done].
  injection Hla as <-. exists ei, rows. split_and!; [done..|].
  unfold spec_edge_index in Hei. unfold spec_edge_attr in Hea.
  destruct edge_attr_dict as [d|]; [|done].
  destruct (mapM (shifted add64 h edge_index_dict dst_offset_dict) src_offset_dict)
    as [parts|] eqn:Hparts; [|done].
  destruct (mapM (attr_part h edge_index_dict d) src_offset_dict)
    as [aparts|] eqn:Haparts; [|done].
  simpl in Hei, Hea.
  destruct (concat_rows aparts) as [rows'|] eqn:Hcat; [|done].
  simpl in Hea. injection Hea as <-.
  apply concat_rows_Ok in Hcat as ->.
  assert (ei = concat parts) as -> by (destruct parts; [done | congruence]).
  apply mapM_Some in Hparts, Haparts.
  clear -Hparts Haparts. revert aparts Haparts.
  induction Hparts as [|item p src parts Hp _ IH]; intros aparts Haparts.
  - by apply Forall2_nil_inv_l in Haparts as ->.
  - apply Forall2_cons_inv_l in Haparts as (a & aparts' & Ha & Haparts & ->).
    simpl. rewrite !length_app. f_equal; [|by apply IH].
    by eapply attr_part_length.
Qed.

End construct_more.

(** ** The statements on the examples *)

Section on_examples.
Import hetero_conv hetero sampler_utils rooted_subgraph parameter_dict.
Import examples.

(** *** Runs *)

(** Without a reduction the outputs are stacked on axis 1. *)
Example group_stack :
  group [t22 1 2 3 4; t22 10 20 30 40] None
  = Ok (Some {| shape := [2; 2; 2];
                values := [1; 2; 10; 20; 3; 4; 30; 40]%Z |}).
Proof. by vm_compute. Qed.

(** A single output is returned as it is, whatever the reduction. *)
Example group_single :
  group [t22 1 2 3 4] (Some "mean"%string) = Ok (Some (t22 1 2 3 4)).
Proof. by vm_compute. Qed.

(** "cat" concatenates on the last axis. *)
Example group_cat :
  group [t22 1 2 3 4; t22 10 20 30 40] (Some "cat"%string)
  = Ok (Some {| shape := [2; 4];
                values := [1; 2; 10; 20; 3; 4; 30; 40]%Z |}).
Proof. by vm_compute. Qed.

(** "max" reduces the stacked outputs over axis 1. *)
Example group_max :
  group [t22 1 20 3 40; t22 10 2 30 4] (Some "max"%string)
  = Ok (Some (t22 10 20 30 40)).
Proof. by vm_compute. Qed.

(** A keyword that does not end with "_dict" is refused. *)
Example forward_bad_keyword :
  forward ex_conv [ex_x_dict] [("edge_index"%string, ex_edge_index_dict)]
  = Raise ValueError.
Proof. by vm_compute. Qed.

(** The edge indices may come by keyword. *)
Example forward_keyword :
  forward ex_conv [ex_x_dict] [("edge_index_dict"%string, ex_edge_index_dict)]
  = Ok ex_out.
Proof. by vm_compute. Qed.

(** Self-loops on a bipartite edge type are refused at construction. *)
Example init_bipartite_self_loops :
  init [(writes, {| add_self_loops := Some true;
                    call := λ _ _, Ok (t22 0 0 0 0) |})]
       (Some "sum"%string)
  = (Raise ValueError : result (HeteroConv tensor tensor * bool)).
Proof. by vm_compute. Qed.

(** The star: two edges into node 0, one into 1 and 2, none into 3. *)
Example to_csc_star :
  to_csc star4 false None None
  = Ok ([0; 2; 3; 4; 4], [1; 3; 2; 0], Some [1; 3; 2; 0]).
Proof. by vm_compute. Qed.

(** The store after the call: the inputs, then one tensor per clone and
    one per concatenation. *)
Example construct_example :
  construct_bipartite_edge_index ex_index_dict ex_src_offset ex_dst_offset
    ex_attr_dict None ex_heap
  = (Ok (7, Some 8),
     ex_heap ++ [Dense [(10, 201); (11, 200)]; Attr [[5]; [5]];
                 Dense [(20, 100)];
                 Dense [(10, 201); (11, 200); (20, 100)];
                 Attr [[5]; [5]; [7]]]%Z).
Proof. by vm_compute. Qed.

(** An entry at the upper end of int64 wraps around under its offset. *)
Example construct_wraps :
  construct_bipartite_edge_index {[ to_b := 0 ]} [(to_b, 1%Z)]
    {[ "b"%string := 0%Z ]} None None
    [Dense [(2 ^ 63 - 1, 5)]%Z : obj Z]
  = (Ok (2, None),
     [Dense [(2 ^ 63 - 1, 5)]; Dense [(- 2 ^ 63, 5)];
      Dense [(- 2 ^ 63, 5)]]%Z).
Proof. by vm_compute. Qed.

(** The subgraphs of the path under the mask of one hop. *)
Example map_path :
  map path3 path3_mask
  = Ok (([0; 1; 2; 3; 3; 4; 5; 6], [1; 0; 3; 2; 4; 3; 6; 5]),
        [0; 1; 0; 1; 2; 1; 2], [0; 1; 0; 1; 2; 3; 2; 3],
        [0; 0; 1; 1; 1; 2; 2], [0; 0; 1; 1; 1; 1; 2; 2]).
Proof. by vm_compute. Qed.

(** [RootedEgoNets] on the path: the call of [paddle.eye] raises. *)
Example ego_nets_path : RootedEgoNets_extract 1 path3 = Raise TypeError.
Proof. by vm_compute. Qed.

(** [RootedRWSubgraph] on the path: the call of [paddle.arange] raises,
    whatever the walks. *)
Example rw_path :
  RootedRWSubgraph_extract ex_random_walk 1 2 path3 = Raise TypeError.
Proof. by vm_compute. Qed.

(** The two walks per node, marked on the matrix of zeros. *)
Example mark_walks_path :
  mark_walks (replicate 3 (replicate 3 false)) 1 (tile_each 2 (seq 0 3))
    (ex_random_walk [0; 1; 1; 2] [1; 0; 2; 1] (tile_each 2 (seq 0 3)) 1 3)
  = Ok path3_mask.
Proof. by vm_compute. Qed.

(** A tuple key is joined and wrapped. *)
Example internal_key_of_tuple :
  to_internal_key sample_attrs ex_key = Ok "<author___writes___paper>"%string.
Proof. by vm_compute. Qed.

(** A dot becomes "#"; a name of the class is wrapped. *)
Example internal_key_of_attribute :
  to_internal_key sample_attrs (KStr "keys.0") = Ok "keys#0"%string
  ∧ to_internal_key sample_attrs (KStr "keys") = Ok "<keys>"%string
  ∧ to_external_key sample_attrs "<keys>" = Ok (KStr "keys").
Proof. by vm_compute. Qed.

(** *** The theorems on these inputs *)

(** [forward] on the authors and papers: only "paper" receives outputs,
    from the two edge types that have an edge index. *)
Lemma forward_spec_witness :
  forward ex_conv [ex_x_dict; ex_edge_index_dict] [] = Ok ex_out
  ∧ NoDup ex_out.*1
  ∧ ∀ dst,
      (dst ∈ ex_out.*1 ↔
         ∃ item, item ∈ convs ex_conv ∧ key_last item.1 = dst
                 ∧ edge_level item.1 [ex_x_dict; ex_edge_index_dict] []
                   = true)
      ∧ ∀ value, (dst, value) ∈ ex_out →
          ∃ outs t,
            Forall2 (λ item o,
                       conv_output [ex_x_dict; ex_edge_index_dict] [] item
                       = Ok o)
                    (targeting dst [ex_x_dict; ex_edge_index_dict] []
                               (convs ex_conv)) outs
            ∧ value = Some t
            ∧ grouping (aggr ex_conv) outs = Ok t.
Proof.
  split; [by vm_compute | apply forward_spec; by vm_compute].
Defined.

(** [to_csc] on the star. *)
Lemma to_csc_spec_witness :
  (adj star4 = None ∧ adj_t star4 = None
   ∧ edge_index star4 = Some [(0, 2); (1, 0); (2, 1); (3, 0)]
   ∧ num_nodes star4 = Some 4
   ∧ forallb (λ e, e.2 <? 4) [(0, 2); (1, 0); (2, 1); (3, 0)] = true)
  ∧ ∃ colptr row perm col,
      to_csc star4 false None None = Ok (colptr, row, Some perm)
      ∧ perm ≡ₚ seq 0 4
      ∧ gather [2; 0; 1; 0] perm = Ok col ∧ Sorted le col
      ∧ gather [0; 1; 2; 3] perm = Ok row
      ∧ length colptr = 4 + 1
      ∧ colptr !! 0 = Some 0
      ∧ last colptr = Some 4
      ∧ Sorted le colptr
      ∧ ∀ j, j < 4 →
          ∃ a b, colptr !! j = Some a ∧ colptr !! S j = Some b ∧ a ≤ b
                 ∧ take (b - a) (drop a row)
                   ≡ₚ (filter (λ e, e.2 = j)
                              [(0, 2); (1, 0); (2, 1); (3, 0)]).*1.
Proof.
  split; [by repeat split|].
  apply (to_csc_spec star4 [(0, 2); (1, 0); (2, 1); (3, 0)] 4);
    reflexivity.
Defined.

(** [construct_bipartite_edge_index] on the store of the examples, where
    no sum leaves the range of int64. *)
Lemma construct_bipartite_edge_index_spec_witness :
  (holds_dense ex_heap ex_index_dict = true
   ∧ holds_attrs ex_heap ex_attr_dict = true
   ∧ sums_in_range ex_heap ex_index_dict ex_src_offset ex_dst_offset = true)
  ∧ match construct_bipartite_edge_index ex_index_dict ex_src_offset
            ex_dst_offset ex_attr_dict None ex_heap with
    | (Ok (l, la), h') =>
      ∃ edge_index edge_attr,
        spec_edge_index add64 ex_heap ex_index_dict ex_src_offset
          ex_dst_offset = Some edge_index
        ∧ (sums_in_range ex_heap ex_index_dict ex_src_offset ex_dst_offset
           = true →
           spec_edge_index Z.add ex_heap ex_index_dict ex_src_offset
             ex_dst_offset = Some edge_index)
        ∧ spec_edge_attr ex_heap ex_index_dict ex_src_offset ex_attr_dict
          = Some edge_attr
        ∧ dense_at h' l = Some edge_index
        ∧ returned_attr h' la = Some edge_attr
    | (Raise _, _) =>
      spec_edge_index add64 ex_heap ex_index_dict ex_src_offset
        ex_dst_offset = None
      ∨ spec_edge_attr ex_heap ex_index_dict ex_src_offset ex_attr_dict
        = None
    end.
Proof.
  split; [by vm_compute|].
  apply construct_bipartite_edge_index_spec; by vm_compute.
Defined.

Lemma construct_bipartite_edge_index_frame_witness :
  holds_dense ex_heap ex_index_dict = true
  ∧ ∀ l o, ex_heap !! l = Some o →
      (construct_bipartite_edge_index ex_index_dict ex_src_offset
         ex_dst_offset ex_attr_dict None ex_heap).2 !! l = Some o.
Proof.
  split; [by vm_compute|].
  apply construct_bipartite_edge_index_frame; by vm_compute.
Defined.

(** The rooted subgraphs of the path. *)
Lemma map_spec_witness :
  (edge_index path3 = Some [(0, 1); (1, 0); (1, 2); (2, 1)]
   ∧ num_nodes path3 = Some 3
   ∧ square 3 path3_mask = true
   ∧ valid_edges 3 [(0, 1); (1, 0); (1, 2); (2, 1)] = true
   ∧ forallb (λ row, bool_decide (true ∈ row)) path3_mask = true)
  ∧ ∃ sub0 sub1 n_id e_id n_sub_batch e_sub_batch,
      map path3 path3_mask
      = Ok ((sub0, sub1), n_id, e_id, n_sub_batch, e_sub_batch)
      ∧ length e_sub_batch = length e_id
      ∧ ∀ t b e, e_sub_batch !! t = Some b → e_id !! t = Some e →
          ∃ u w s0 s1,
            [(0, 1); (1, 0); (1, 2); (2, 1)] !! e = Some (u, w)
            ∧ cell path3_mask b u = Some true
            ∧ cell path3_mask b w = Some true
            ∧ sub0 !! t = Some s0 ∧ sub1 !! t = Some s1
            ∧ n_id !! s0 = Some u ∧ n_id !! s1 = Some w
            ∧ n_sub_batch !! s0 = Some b ∧ n_sub_batch !! s1 = Some b.
Proof.
  split; [by vm_compute|].
  apply (map_spec path3 [(0, 1); (1, 0); (1, 2); (2, 1)] 3 path3_mask);
    by vm_compute.
Defined.

(** The key of an edge type, stored in an empty dictionary. *)
Lemma key_round_trip_witness :
  key_ok sample_attrs ex_key = true
  ∧ (∃ k, to_internal_key sample_attrs ex_key = Ok k
          ∧ to_external_key sample_attrs k = Ok ex_key)
  ∧ (keys sample_attrs ([] : list (string * nat)) = Ok [] →
     ∃ self' ks' its',
       setitem sample_attrs [] ex_key 7 = Ok self'
       ∧ keys sample_attrs self' = Ok ks' ∧ ex_key ∈ ks'
       ∧ items sample_attrs self' = Ok its' ∧ (ex_key, 7) ∈ its').
Proof.
  split; [by vm_compute|].
  apply key_round_trip. by vm_compute.
Defined.

End on_examples.

(** ** The further statements on the examples *)

Section more_on_examples.
Import hetero_conv hetero sampler_utils rooted_subgraph parameter_dict.
Import examples.

(** The names of [sample_attrs] are plain: none is empty, starts with
    ['<'] or holds a dot or a ['#']. *)
Lemma sample_attrs_plain : attrs_plain sample_attrs.
Proof.
  intros s Hs. apply bool_decide_eq_true in Hs.
  repeat (apply elem_of_cons in Hs as [-> | Hs]; [by vm_compute|]).
  by apply elem_of_nil in Hs.
Qed.

(** *** [remap_keys] *)

Lemma remap_keys_distinct_witness :
  NoDup (remap_key ex_mapping [] <$> ex_inputs.*1)
  ∧ remap_keys ex_inputs ex_mapping None
    = [("x", 1); ("y", 2); ("c", 3)]%string.
Proof.
  assert (Hn : NoDup (remap_key ex_mapping (default [] None)
                        <$> ex_inputs.*1)).
  { apply (bool_decide_unpack _). by vm_compute. }
  split; [exact Hn|].
  exact (remap_keys_distinct ex_inputs ex_mapping None Hn).
Defined.

Lemma remap_keys_round_trip_witness :
  (NoDup ex_inputs.*1
   ∧ Forall (λ k, remap_key ex_inverse [] (remap_key ex_mapping [] k) = k)
            ex_inputs.*1)
  ∧ remap_keys (remap_keys ex_inputs ex_mapping None) ex_inverse None
    = ex_inputs.
Proof.
  assert (Hn : NoDup ex_inputs.*1).
  { apply (bool_decide_unpack _). by vm_compute. }
  assert (Hf : Forall (λ k, remap_key ex_inverse []
                              (remap_key ex_mapping [] k) = k)
                      ex_inputs.*1).
  { apply (bool_decide_unpack _). by vm_compute. }
  split; [by split|].
  apply remap_keys_round_trip; [exact Hn|].
  by apply Forall_forall.
Defined.

(** *** [ParameterDict] *)

Lemma setitem_getitem_witness :
  setitem sample_attrs [] ex_key 7
  = Ok [("<author___writes___paper>"%string, 7)]
  ∧ __getitem__ sample_attrs [("<author___writes___paper>"%string, 7)] ex_key
    = Ok 7
  ∧ __contains__ sample_attrs [("<author___writes___paper>"%string, 7)]
      ex_key = Ok true
  ∧ ∀ key' : Key,
      to_internal_key sample_attrs key' ≠ to_internal_key sample_attrs ex_key →
      __getitem__ sample_attrs [("<author___writes___paper>"%string, 7)] key'
      = __getitem__ sample_attrs ([] : list (string * nat)) key'
      ∧ __contains__ sample_attrs [("<author___writes___paper>"%string, 7)]
          key'
        = __contains__ sample_attrs ([] : list (string * nat)) key'.
Proof.
  split; [by vm_compute|].
  apply (setitem_getitem sample_attrs [] ex_key 7). by vm_compute.
Defined.

Lemma dotted_key_alias_witness :
  (attrs_plain sample_attrs
   ∧ setitem sample_attrs [] (KStr "layer.weight") 7
     = Ok [("layer#weight"%string, 7)])
  ∧ __getitem__ sample_attrs [("layer#weight"%string, 7)]
      (KStr "layer#weight") = Ok 7.
Proof.
  split; [split; [exact sample_attrs_plain | by vm_compute]|].
  apply (dotted_key_alias sample_attrs [] "layer.weight" 7);
    [exact sample_attrs_plain | by vm_compute].
Defined.


Lemma items_fetch_witness :
  (attrs_plain sample_attrs
   ∧ __init__ sample_attrs (Some ex_parameters)
     = Ok [("<author___writes___paper>"%string, 1); ("<keys>"%string, 2)]
   ∧ for_each (λ d kv, setitem sample_attrs d kv.1 kv.2) [(KStr "a.b", 3)]
       [("<author___writes___paper>"%string, 1); ("<keys>"%string, 2)]
     = Ok [("<author___writes___paper>"%string, 1); ("<keys>"%string, 2);
           ("a#b"%string, 3)]
   ∧ items sample_attrs
       [("<author___writes___paper>"%string, 1); ("<keys>"%string, 2);
        ("a#b"%string, 3)]
     = Ok [(ex_key, 1); (KStr "keys", 2); (KStr "a.b", 3)]
   ∧ (KStr "keys", 2) ∈ [(ex_key, 1); (KStr "keys", 2); (KStr "a.b", 3)])
  ∧ __getitem__ sample_attrs
      [("<author___writes___paper>"%string, 1); ("<keys>"%string, 2);
       ("a#b"%string, 3)] (KStr "keys") = Ok 2.
Proof.
  assert (Hin : (KStr "keys", 2)
                ∈ [(ex_key, 1); (KStr "keys", 2); (KStr "a.b", 3)]).
  { apply list_elem_of_lookup. by exists 1. }
  split.
  { split; [exact sample_attrs_plain|]. repeat split; by vm_compute || exact Hin. }
  apply (items_fetch sample_attrs (Some ex_parameters) [(KStr "a.b", 3)]
           [("<author___writes___paper>"%string, 1); ("<keys>"%string, 2)]
           [("<author___writes___paper>"%string, 1); ("<keys>"%string, 2);
            ("a#b"%string, 3)]
           [(ex_key, 1); (KStr "keys", 2); (KStr "a.b", 3)]
           (KStr "keys") 2);
    [exact sample_attrs_plain | by vm_compute | by vm_compute | by vm_compute
    | exact Hin].
Defined.

Lemma init_outcome_witness :
  (forallb key_accepted [KTuple ["author"]%string] = false
   ∧ __init__ sample_attrs (Some [(KTuple ["author"]%string, 1)])
     = Raise AssertionError)
  ∧ __init__ sample_attrs (Some ex_parameters)
    = Ok [("<author___writes___paper>"%string, 1); ("<keys>"%string, 2)]
  ∧ forallb key_accepted ex_parameters.*1 = true
  ∧ NoDup [("<author___writes___paper>"%string, 1);
           ("<keys>"%string, 2)].*1
  ∧ Forall (λ k, contains "." k = false)
           [("<author___writes___paper>"%string, 1);
            ("<keys>"%string, 2)].*1
  ∧ length [("<author___writes___paper>"%string, 1); ("<keys>"%string, 2)]
    ≤ length ex_parameters.
Proof.
  split.
  - split; [by vm_compute|].
    apply (proj1 (init_outcome sample_attrs
                    (Some [(KTuple ["author"]%string, 1)]))).
    by vm_compute.
  - split; [by vm_compute|].
    apply (proj2 (init_outcome sample_attrs (Some ex_parameters))).
    by vm_compute.
Defined.

(** *** [HeteroConv] *)

Lemma forward_keyword_check_witness :
  existsb (λ kv : string * gmap (NodeType + EdgeType) tensor,
             negb (endswith kv.1 "_dict"))
          [("edge_index"%string, ex_edge_index_dict)] = true
  ∧ forward ex_conv [ex_x_dict] [("edge_index"%string, ex_edge_index_dict)]
    = Raise ValueError.
Proof.
  split; [by vm_compute|].
  apply (forward_keyword_check ex_conv [ex_x_dict]
           [("edge_index"%string, ex_edge_index_dict)]).
  by vm_compute.
Defined.

Lemma forward_without_edge_level_witness :
  (forallb (λ kv : string * gmap (NodeType + EdgeType) tensor,
              endswith kv.1 "_dict") [] = true
   ∧ forallb (λ item, negb (edge_level item.1 [ex_x_dict] []))
             (convs ex_conv) = true)
  ∧ forward ex_conv [ex_x_dict] [] = Ok [].
Proof.
  split; [by vm_compute|].
  apply forward_without_edge_level; by vm_compute.
Defined.

Lemma unused_node_types_missing_witness :
  (forward ex_conv_papers [ex_x_dict; ex_edge_index_dict] [] = Ok ex_out
   ∧ forallb (λ item, edge_level item.1 [ex_x_dict; ex_edge_index_dict] [])
             (convs ex_conv_papers) = true)
  ∧ ("author"%string
     ∈ get_unused_node_types ["author"; "paper"]%string
         (convs ex_conv_papers).*1
     ↔ "author"%string ∈ ["author"; "paper"]%string
       ∧ "author"%string ∉ ex_out.*1).
Proof.
  split; [by vm_compute|].
  apply (unused_node_types_missing ex_conv_papers
           [ex_x_dict; ex_edge_index_dict] []); by vm_compute.
Defined.

Lemma init_warning_accurate_witness :
  (init (convs ex_conv_papers) (Some "sum"%string)
   = Ok (ex_conv_papers, true)
   ∧ forward ex_conv_papers [ex_x_dict; ex_edge_index_dict] [] = Ok ex_out)
  ∧ (true = true
     ↔ get_unused_node_types
         ((λ kv, key_first kv.1) <$> convs ex_conv_papers)
         (convs ex_conv_papers).*1 ≠ ∅)
  ∧ (true = true →
     ∃ item, item ∈ convs ex_conv_papers ∧ key_first item.1 ∉ ex_out.*1)
  ∧ (true = false →
     forallb (λ item, edge_level item.1 [ex_x_dict; ex_edge_index_dict] [])
             (convs ex_conv_papers) = true →
     ∀ item, item ∈ convs ex_conv_papers →
             key_first item.1 ∈ ex_out.*1 ∧ key_last item.1 ∈ ex_out.*1).
Proof.
  split; [by vm_compute|].
  apply (init_warning_accurate (convs ex_conv_papers) (Some "sum"%string)
           ex_conv_papers true [ex_x_dict; ex_edge_index_dict] [] ex_out);
    by vm_compute.
Defined.

Lemma aggr_unused_for_single_outputs_witness :
  NoDup ((λ item : EdgeType * MessagePassing tensor tensor, key_last item.1)
           <$> filter (λ item, edge_level item.1 [ex_x_dict; ex_writes_dict] []
                               = true)
                      (convs ex_conv))
  ∧ forward {| convs := convs ex_conv; aggr := Some "sum"%string |}
            [ex_x_dict; ex_writes_dict] []
    = forward {| convs := convs ex_conv; aggr := Some "median"%string |}
              [ex_x_dict; ex_writes_dict] [].
Proof.
  assert (Hn : NoDup ((λ item : EdgeType * MessagePassing tensor tensor,
                         key_last item.1)
                        <$> filter (λ item, edge_level item.1
                                              [ex_x_dict; ex_writes_dict] []
                                            = true)
                                   (convs ex_conv))).
  { apply (bool_decide_unpack _). by vm_compute. }
  split; [exact Hn|].
  exact (aggr_unused_for_single_outputs (convs ex_conv) "sum" "median"
           [ex_x_dict; ex_writes_dict] [] Hn).
Defined.

(** *** [group_hetero_graph] *)

Lemma global_node_index_witness :
  (ex_maybe_num_nodes_dict ex_local_edges (Some ex_num_nodes)
   = Ok ex_num_nodes
   ∧ NoDup ex_num_nodes.*1)
  ∧ ∃ edge_index edge_type node_type local_node_idx l2g k2i,
      group_hetero_graph ex_maybe_num_nodes_dict ex_local_edges
        (Some ex_num_nodes)
      = Ok (edge_index, edge_type, node_type, local_node_idx, l2g, k2i)
      ∧ length node_type = sum_list ex_num_nodes.*2
      ∧ length local_node_idx = sum_list ex_num_nodes.*2
      ∧ (∀ i key N, ex_num_nodes !! i = Some (key, N) →
           k2i !! inl key = Some i ∧ l2g !! inr i = l2g !! inl key)
      ∧ ∀ g i j,
          node_type !! g = Some i ∧ local_node_idx !! g = Some j
          ↔ ∃ key N, ex_num_nodes !! i = Some (key, N) ∧ j < N
                     ∧ global_index l2g (inl key) j = Some g.
Proof.
  assert (Hn : NoDup ex_num_nodes.*1).
  { apply (bool_decide_unpack _). by vm_compute. }
  split; [by split|].
  assert (Hok : match group_hetero_graph ex_maybe_num_nodes_dict
                        ex_local_edges (Some ex_num_nodes) with
                | Ok _ => true
                | Raise _ => false
                end = true) by (by vm_compute).
  destruct (group_hetero_graph ex_maybe_num_nodes_dict ex_local_edges
              (Some ex_num_nodes))
    as [[[[[[edge_index edge_type] node_type] local_node_idx] l2g] k2i]|e]
    eqn:Hrun; [|discriminate Hok].
  exists edge_index, edge_type, node_type, local_node_idx, l2g, k2i.
  split; [reflexivity|].
  apply (global_node_index ex_maybe_num_nodes_dict ex_local_edges
           (Some ex_num_nodes) ex_num_nodes edge_index edge_type);
    [reflexivity | exact Hn | exact Hrun].
Defined.

Lemma global_edge_index_witness :
  (ex_maybe_num_nodes_dict ex_local_edges (Some ex_num_nodes)
   = Ok ex_num_nodes
   ∧ NoDup ex_num_nodes.*1 ∧ NoDup ex_local_edges.*1
   ∧ edges_in_range ex_num_nodes ex_local_edges = true)
  ∧ ∃ edge_index edge_type node_type local_node_idx l2g k2i,
      group_hetero_graph ex_maybe_num_nodes_dict ex_local_edges
        (Some ex_num_nodes)
      = Ok (edge_index, edge_type, node_type, local_node_idx, l2g, k2i)
      ∧ length edge_type = length edge_index
      ∧ (∀ q a b t,
           edge_index !! q = Some (a, b) → edge_type !! q = Some t →
           ∃ keys edges u v,
             ex_local_edges !! t = Some (keys, edges) ∧ (u, v) ∈ edges
             ∧ k2i !! inr keys = Some t
             ∧ global_index l2g (inl (key_first keys)) u = Some a
             ∧ global_index l2g (inl (key_last keys)) v = Some b)
      ∧ (∀ t keys edges u v,
           ex_local_edges !! t = Some (keys, edges) → (u, v) ∈ edges →
           ∃ q a b,
             edge_index !! q = Some (a, b) ∧ edge_type !! q = Some t
             ∧ global_index l2g (inl (key_first keys)) u = Some a
             ∧ global_index l2g (inl (key_last keys)) v = Some b).
Proof.
  assert (Hn : NoDup ex_num_nodes.*1).
  { apply (bool_decide_unpack _). by vm_compute. }
  assert (He : NoDup ex_local_edges.*1).
  { apply (bool_decide_unpack _). by vm_compute. }
  split; [by repeat split|].
  assert (Hok : match group_hetero_graph ex_maybe_num_nodes_dict
                        ex_local_edges (Some ex_num_nodes) with
                | Ok _ => true
                | Raise _ => false
                end = true) by (by vm_compute).
  destruct (group_hetero_graph ex_maybe_num_nodes_dict ex_local_edges
              (Some ex_num_nodes))
    as [[[[[[edge_index edge_type] node_type] local_node_idx] l2g] k2i]|e]
    eqn:Hrun; [|discriminate Hok].
  exists edge_index, edge_type, node_type, local_node_idx, l2g, k2i.
  split; [reflexivity|].
  apply (global_edge_index ex_maybe_num_nodes_dict ex_local_edges
           (Some ex_num_nodes) ex_num_nodes edge_index edge_type node_type
           local_node_idx);
    [reflexivity | exact Hn | exact He | reflexivity | exact Hrun].
Defined.

Lemma group_hetero_graph_outcome_witness :
  ex_maybe_num_nodes_dict ex_local_edges (Some [("a"%string, 2)])
  = Ok [("a"%string, 2)]
  ∧ group_hetero_graph ex_maybe_num_nodes_dict ex_local_edges
      (Some [("a"%string, 2)]) = Raise KeyError
  ∧ (ex_local_edges = [] →
     group_hetero_graph ex_maybe_num_nodes_dict ex_local_edges
       (Some [("a"%string, 2)]) = Raise IndexError)
  ∧ ((∃ r, group_hetero_graph ex_maybe_num_nodes_dict ex_local_edges
             (Some [("a"%string, 2)]) = Ok r)
     ↔ ex_local_edges ≠ []
       ∧ Forall (λ keys, key_first keys ∈ [("a"%string, 2)].*1
                         ∧ key_last keys ∈ [("a"%string, 2)].*1)
                ex_local_edges.*1)
  ∧ (ex_local_edges ≠ [] → [("a"%string, 2)] ≠ [] →
     ¬ Forall (λ keys, key_first keys ∈ [("a"%string, 2)].*1
                       ∧ key_last keys ∈ [("a"%string, 2)].*1)
              ex_local_edges.*1 →
     group_hetero_graph ex_maybe_num_nodes_dict ex_local_edges
       (Some [("a"%string, 2)]) = Raise KeyError).
Proof.
  split; [reflexivity|]. split; [by vm_compute|].
  apply (group_hetero_graph_outcome ex_maybe_num_nodes_dict ex_local_edges
           (Some [("a"%string, 2)]) [("a"%string, 2)]).
  reflexivity.
Defined.

(** *** Rooted subgraphs *)

Lemma inc_bounds_witness :
  (edge_index path3 = Some [(0, 1); (1, 0); (1, 2); (2, 1)]
   ∧ num_nodes path3 = Some 3
   ∧ square 3 path3_mask = true
   ∧ valid_edges 3 [(0, 1); (1, 0); (1, 2); (2, 1)] = true
   ∧ forallb (λ row, bool_decide (true ∈ row)) path3_mask = true
   ∧ 0 < 3)
  ∧ ∃ d,
      RootedSubgraph_forward (λ data, map data path3_mask) path3 = Ok d
      ∧ __inc__ ex_super_inc d "sub_edge_index" ()
        = Ok (Some (length (n_id d)))
      ∧ Forall (λ x, x < length (n_id d)) (sub_edge_index d).1
      ∧ Forall (λ x, x < length (n_id d)) (sub_edge_index d).2
      ∧ __inc__ ex_super_inc d "n_sub_batch" () = Ok (Some 3)
      ∧ __inc__ ex_super_inc d "e_sub_batch" () = Ok (Some 3)
      ∧ Forall (λ x, x < 3) (n_sub_batch d)
      ∧ Forall (λ x, x < 3) (e_sub_batch d)
      ∧ __inc__ ex_super_inc d "n_id" () = Ok (Some 3)
      ∧ Forall (λ x, x < 3) (n_id d)
      ∧ __inc__ ex_super_inc d "e_id" ()
        = Ok (Some (length [(0, 1); (1, 0); (1, 2); (2, 1)]))
      ∧ Forall (λ x, x < length [(0, 1); (1, 0); (1, 2); (2, 1)]) (e_id d).
Proof.
  split; [repeat split; first [lia | by vm_compute]|].
  eexists. split; [by vm_compute|].
  apply (inc_bounds ex_super_inc (λ data, map data path3_mask) path3
           [(0, 1); (1, 0); (1, 2); (2, 1)] 3 path3_mask);
    first [lia | by vm_compute].
Defined.

(** *** [to_csc] and [to_hetero_csc] *)

Lemma to_csc_sorted_witness :
  (adj star4_sorted = None ∧ adj_t star4_sorted = None
   ∧ edge_index star4_sorted = Some [(1, 0); (3, 0); (2, 1); (0, 2)]
   ∧ num_nodes star4_sorted = Some 4
   ∧ forallb (λ e, e.2 <? 4) [(1, 0); (3, 0); (2, 1); (0, 2)] = true
   ∧ Sorted le [(1, 0); (3, 0); (2, 1); (0, 2)].*2)
  ∧ ∃ colptr,
      to_csc star4_sorted true (Some [9; 8; 7; 6]%Z) (Some ex_edge_time)
      = Ok (colptr, [(1, 0); (3, 0); (2, 1); (0, 2)].*1, None)
      ∧ length colptr = 4 + 1
      ∧ colptr !! 0 = Some 0
      ∧ last colptr = Some (length [(1, 0); (3, 0); (2, 1); (0, 2)])
      ∧ Sorted le colptr
      ∧ ∀ j, j < 4 →
          ∃ a b, colptr !! j = Some a ∧ colptr !! S j = Some b ∧ a ≤ b
                 ∧ take (b - a) (drop a [(1, 0); (3, 0); (2, 1); (0, 2)].*1)
                   = (filter (λ e, e.2 = j)
                             [(1, 0); (3, 0); (2, 1); (0, 2)]).*1.
Proof.
  assert (Hs : Sorted le [(1, 0); (3, 0); (2, 1); (0, 2)].*2).
  { apply (bool_decide_unpack _). by vm_compute. }
  split; [by repeat split|].
  apply (to_csc_sorted star4_sorted [(1, 0); (3, 0); (2, 1); (0, 2)] 4);
    [reflexivity | reflexivity | reflexivity | reflexivity | reflexivity
    | exact Hs].
Defined.

Lemma to_csc_temporal_witness :
  (adj star4 = None ∧ adj_t star4 = None
   ∧ edge_index star4 = Some [(0, 2); (1, 0); (2, 1); (3, 0)]
   ∧ num_nodes star4 = Some 4
   ∧ forallb (λ e, e.2 <? 4) [(0, 2); (1, 0); (2, 1); (3, 0)] = true
   ∧ length ex_edge_time = length [(0, 2); (1, 0); (2, 1); (3, 0)])
  ∧ ∃ colptr row perm col times,
      to_csc star4 false None (Some ex_edge_time)
      = Ok (colptr, row, Some perm)
      ∧ perm ≡ₚ seq 0 (length [(0, 2); (1, 0); (2, 1); (3, 0)])
      ∧ gather [(0, 2); (1, 0); (2, 1); (3, 0)].*1 perm = Ok row
      ∧ gather [(0, 2); (1, 0); (2, 1); (3, 0)].*2 perm = Ok col
      ∧ gather ex_edge_time perm = Ok times
      ∧ StronglySorted lex_le (zip col times)
      ∧ length colptr = 4 + 1
      ∧ colptr !! 0 = Some 0
      ∧ last colptr = Some (length [(0, 2); (1, 0); (2, 1); (3, 0)])
      ∧ Sorted le colptr
      ∧ ∀ j, j < 4 →
          ∃ a b, colptr !! j = Some a ∧ colptr !! S j = Some b ∧ a ≤ b
                 ∧ take (b - a) (drop a row)
                   ≡ₚ (filter (λ e, e.2 = j)
                              [(0, 2); (1, 0); (2, 1); (3, 0)]).*1.
Proof.
  split; [by repeat split|].
  apply (to_csc_temporal star4 [(0, 2); (1, 0); (2, 1); (3, 0)] 4
           ex_edge_time); reflexivity.
Defined.

Lemma to_hetero_csc_entries_witness :
  NoDup ex_hetero.*1
  ∧ match to_hetero_csc ex_hetero false None None with
    | Ok (colptr_dict, row_dict, perm_dict) =>
      ∃ outs,
        Forall2 (λ item out,
                   to_csc item.2 false
                          (default ∅ (None : option (gmap NodeType (list Z)))
                             !! key_first item.1)
                          (default ∅ (None : option (gmap EdgeType (list Z)))
                             !! item.1)
                   = Ok out) ex_hetero outs
        ∧ colptr_dict = zip ex_hetero.*1 (outs.*1).*1
        ∧ row_dict = zip ex_hetero.*1 (outs.*1).*2
        ∧ perm_dict = zip ex_hetero.*1 outs.*2
    | Raise e =>
      ∃ done item rest,
        ex_hetero = done ++ item :: rest
        ∧ Forall (λ item, ∃ out,
                    to_csc item.2 false
                           (default ∅ (None : option (gmap NodeType (list Z)))
                             !! key_first item.1)
                           (default ∅ (None : option (gmap EdgeType (list Z)))
                             !! item.1)
                    = Ok out) done
        ∧ to_csc item.2 false
                 (default ∅ (None : option (gmap NodeType (list Z)))
                             !! key_first item.1)
                 (default ∅ (None : option (gmap EdgeType (list Z)))
                             !! item.1)
          = Raise e
    end.
Proof.
  assert (Hn : NoDup ex_hetero.*1).
  { apply (bool_decide_unpack _). by vm_compute. }
  split; [exact Hn|].
  exact (to_hetero_csc_entries ex_hetero false None None Hn).
Defined.

(** *** [construct_bipartite_edge_index] *)

Lemma edge_attr_rows_match_edges_witness :
  (holds_dense ex_heap ex_index_dict = true
   ∧ holds_attrs ex_heap ex_attr_dict = true
   ∧ construct_bipartite_edge_index ex_index_dict ex_src_offset
       ex_dst_offset ex_attr_dict None ex_heap
     = (Ok (7, Some 8),
        ex_heap ++ [Dense [(10, 201); (11, 200)]; Attr [[5]; [5]];
                    Dense [(20, 100)];
                    Dense [(10, 201); (11, 200); (20, 100)];
                    Attr [[5]; [5]; [7]]]%Z))
  ∧ ∃ edge_index edge_attr,
      dense_at (ex_heap ++ [Dense [(10, 201); (11, 200)]; Attr [[5]; [5]];
                            Dense [(20, 100)];
                            Dense [(10, 201); (11, 200); (20, 100)];
                            Attr [[5]; [5]; [7]]]%Z) 7 = Some edge_index
      ∧ attr_at (ex_heap ++ [Dense [(10, 201); (11, 200)]; Attr [[5]; [5]];
                             Dense [(20, 100)];
                             Dense [(10, 201); (11, 200); (20, 100)];
                             Attr [[5]; [5]; [7]]]%Z) 8 = Some edge_attr
      ∧ length edge_attr = length edge_index.
Proof.
  split; [by vm_compute|].
  apply (edge_attr_rows_match_edges ex_heap ex_index_dict ex_src_offset
           ex_dst_offset ex_attr_dict None); by vm_compute.
Defined.

End more_on_examples.
